(** * Gemini key-rotating prompt server: the dispatch loop of [src/main.py]

    A shallow embedding of the request handler [generate] and of the helpers
    it calls ([send_warning_email], [mark_key_notified], [get_notified_keys],
    [call_gemini_with_key]), followed by the properties of the key walk.

    Conventions.
    - Python integers are [Z]; text is [string] (a sequence of bytes), and
      [str.lower] is modelled on the ASCII range.
    - Durations handed to [asyncio.sleep] are exact rationals [Q]: the
      literal [1.5] is [3 # 2] and [0.2] is [2 # 10]; rounding of binary
      floating point is not modelled.  The [OverflowError] that the power
      [1.5 ** (total_attempts - 1)] raises when it leaves the range of a
      double is modelled: it is raised from the exponent 1751 on.
    - Requests are handled one at a time.  The handler is a coroutine, and
      the interleaving of overlapping requests at its [await]s is not
      modelled: a statement about [generate] or [serve] and the table is a
      statement about requests that do not overlap.  What a request does
      whose snapshot of the table is out of date is stated of the walk,
      which takes the snapshot as an argument of its own.
    - The network, the SMTP server, the clock and the header check of the
      mail library are an explicit [World] of oracles; the SQLite table
      [key_notifications] is a finite map from its primary key [key_index]
      to the column [notified_at].
    - Effects are threaded through a small monad [M] of state, trace and
      exceptions: the state is the table, the trace is the list of
      observable events in the order in which the handler performs them,
      and a raised exception ends the computation it is raised in. *)

From Stdlib Require Import ZArith QArith Lia Ascii.
From stdpp Require Import base gmap strings list pretty.

Local Open Scope string_scope.
Local Open Scope list_scope.
Local Open Scope Z_scope.

(* ===================================================================== *)
(** ** Text: [str.lower] and the [in] operator on strings *)
(* ===================================================================== *)

Module Text.

(** ASCII case folding of one character, as [str.lower] does on the
    ASCII range: the letters 65..90 move to 97..122. *)
Definition lower_char (c : ascii) : ascii :=
  let n := nat_of_ascii c in
  if Nat.leb 65 n && Nat.leb n 90 then ascii_of_nat (n + 32) else c.

Fixpoint lower (s : string) : string :=
  match s with
  | EmptyString => EmptyString
  | String c s' => String (lower_char c) (lower s')
  end.

(** [starts_with p s]: [s.startswith(p)]. *)
Fixpoint starts_with (p s : string) : bool :=
  match p, s with
  | EmptyString, _ => true
  | String _ _, EmptyString => false
  | String a p', String b s' => bool_decide (a = b) && starts_with p' s'
  end.

(** [str_in sub s]: the Python expression [sub in s] on two strings. *)
Fixpoint str_in (sub s : string) : bool :=
  match s with
  | EmptyString => starts_with sub EmptyString
  | String _ s' => starts_with sub s || str_in sub s'
  end.

(** The declarative reading of [sub in s]. *)
Definition Substring (sub s : string) : Prop :=
  ∃ pre post : string, s = pre +:+ sub +:+ post.

(** The line feed character used in the alert body. *)
Definition nl : string := String (ascii_of_nat 10) EmptyString.

End Text.

(* ===================================================================== *)
(** ** Data model *)
(* ===================================================================== *)

(** The value bound to [payload] at lines 183-186: what [resp.json()]
    returned, or the dictionary wrapping [resp.text] when the body is not
    JSON.  A Python value is represented by what the handler observes of
    it.  Line 199 asks whether it is a [dict], and takes its [json.dumps]
    when it is and its [str] otherwise; line 190 hands it to a field
    declared [Optional[dict]], which tells [None] (the body [null]) from
    the values that are neither a [dict] nor [None] (a list, a text, a
    number, a truth value). *)
Inductive Payload : Type :=
| PyDict (json_dumps : string)
| PyNone
| PyOther (str : string).

(** What one upstream call gives back: an [httpx.Response] (any status,
    4xx and 5xx included), or an [httpx.RequestError] raised by the
    transport. *)
Inductive RawOutcome : Type :=
| Response (status_code : Z) (payload : Payload)
| RequestError (message : string).

(** The verdicts of the specification's Outcome Classifier. *)
Inductive Verdict : Type :=
| Success | RateLimited | AuthFailure | ServerError | TransportError | OtherFailure.

#[global] Instance Verdict_eq_dec : EqDecision Verdict.
Proof. solve_decision. Defined.

(** The variable [last_error]: [None], [str(e)], [f"Rate limit for key
    index {idx}"] or [f"Status {status}: {payload}"], kept structured. *)
Inductive LastError : Type :=
| ErrNone
| ErrNetwork (message : string)
| ErrRateLimit (idx : Z)
| ErrStatus (status : Z) (payload : Payload).

Record GenerateRequest : Type := {
  prompt : string;
  email_to : option string;
  metadata : option string
}.

Record GeminiResponse : Type := {
  success : bool;
  key_used_index : option Z;
  raw_response : option Payload;
  error : option string
}.

(** The [detail] of the two [HTTPException]s the handler raises. *)
Inductive Detail : Type :=
| NoKeysConfigured
| FailedWithAnyKey (last_error : LastError).

(** The exceptions that leave the handler: the two [HTTPException]s it
    raises itself; the [ValueError] of the mail library when a header is
    assigned a value it rejects (lines 105-107, outside the [try]); the
    [ValidationError] of the response model when [raw_response] is given a
    value that is neither a [dict] nor [None] (line 190); the
    [OverflowError] of the power in the backoff (lines 177, 221, 234). *)
Inductive PyExc : Type :=
| HTTPException (status_code : Z) (detail : Detail)
| ValueError (message : string)
| ValidationError
| OverflowError.

(** How a computation ends: with a value, or with an exception. *)
Inductive Res (A : Type) : Type :=
| Val (a : A)
| Exc (e : PyExc).

Arguments Val {A} a.
Arguments Exc {A} e.

(** How a call of [generate] ends: it returns a [GeminiResponse] or
    raises. *)
Abbreviation Result := (Res GeminiResponse).
Abbreviation Ok := (@Val GeminiResponse).

(** The module-level configuration read from the environment at start-up. *)
Record Config : Type := {
  GEMINI_KEYS : list string;
  SMTP_HOST : option string;
  SMTP_USER : option string;
  SMTP_PASS : option string;
  DEFAULT_WARNING_TO : option string;
  WATCH_KEYS_INDICES : gset Z;
  MAX_TOTAL_RETRIES_PER_PROMPT : Z;
  BASE_BACKOFF_SECONDS : Q
}.

(** The watched indices as the source file fixes them (line 32). *)
Definition source_watch_keys : gset Z := {[ 5; 8; 10 ]}.

(** The outside world during one request.  [upstream n key prompt metadata]
    answers the [n]-th call of the request; [rejects_header name value]
    tells whether [msg[name] = value] on an [EmailMessage] raises
    [ValueError] (the default policy of the mail library rejects a value
    of more than one line); [smtp_deliver to subject body] tells whether
    the SMTP session of lines 111-114 ran without raising; [utcnow] is
    [datetime.utcnow().isoformat()]. *)
Record World : Type := {
  upstream : Z → string → string → option string → RawOutcome;
  rejects_header : string → string → bool;
  smtp_deliver : string → string → string → bool;
  utcnow : string
}.

(** Observable events, in the order the handler performs them:
    an upstream call and what it gave back; the opening of an SMTP
    session; the invocation of the alert emitter for an index, and what it
    returned; the write to the table; a pause. *)
Inductive Event : Type :=
| EvCall (idx : Z) (attempt : Z) (o : RawOutcome)
| EvSmtp (to subject : string)
| EvAlert (idx : Z)
| EvSent (idx : Z) (sent : bool)
| EvMark (idx : Z)
| EvSleep (seconds : Q).

(* ===================================================================== *)
(** ** The effect monad: table state, event trace and exceptions *)
(* ===================================================================== *)

Definition M (A : Type) : Type :=
  gmap Z string → Res A * gmap Z string * list Event.

Definition ret {A} (a : A) : M A := λ db, (Val a, db, []).

Definition raise {A} (e : PyExc) : M A := λ db, (Exc e, db, []).

Definition bind {A B} (m : M A) (f : A → M B) : M B :=
  λ db, let '(r, db1, t1) := m db in
        match r with
        | Val a => let '(b, db2, t2) := f a db1 in (b, db2, t1 ++ t2)
        | Exc e => (Exc e, db1, t1)
        end.

Definition emit (e : Event) : M unit := λ db, (Val tt, db, [e]).

Declare Scope m_scope.
Delimit Scope m_scope with M.
Notation "'let*' x ':=' c 'in' k" := (bind c (λ x, k))
  (at level 10, x name, c at level 100, k at level 200) : m_scope.
Notation "c '>>' k" := (bind c (λ _, k))
  (at level 100, k at level 200, right associativity) : m_scope.
Local Open Scope m_scope.

(* ===================================================================== *)
(** ** The helpers of [src/main.py] *)
(* ===================================================================== *)

(** Python truthiness of an [Optional[str]]: [None] and the empty string
    are falsy. *)
Definition truthy (o : option string) : bool :=
  match o with
  | None => false
  | Some s => negb (bool_decide (s = EmptyString))
  end.

(** [a or b] on two [Optional[str]]. *)
Definition py_or (a b : option string) : option string :=
  if truthy a then a else b.

(** [get_notified_keys] (lines 61-67): the set of primary keys of the
    table. *)
Definition get_notified_keys : M (gset Z) := λ db, (Val (dom db), db, []).

(** [mark_key_notified] (lines 69-78): [INSERT OR REPLACE] of the row
    [(key_index, now)]. *)
Definition mark_key_notified (w : World) (key_index : Z) : M unit :=
  λ db, (Val tt, <[ key_index := utcnow w +:+ "Z" ]> db, [EvMark key_index]).

(** [asyncio.sleep]. *)
Definition sleep (seconds : Q) : M unit := emit (EvSleep seconds).

(** The exception of a rejected header. *)
Definition header_error : PyExc :=
  ValueError
    "Header values may not contain linefeed or carriage return characters".

(** [msg[name] = value] on an [EmailMessage] (lines 105-107). *)
Definition set_header (w : World) (name value : string) : M unit :=
  if rejects_header w name value then raise header_error else ret tt.

(** [send_warning_email] (lines 99-119).  The headers are assigned before
    the [try] statement; the SMTP session runs inside it, and whatever it
    raises is caught and turned into [False]. *)
Definition send_warning_email (cfg : Config) (w : World)
    (subject body : string) (to_email : option string) : M bool :=
  if negb (truthy (SMTP_HOST cfg) && truthy (SMTP_USER cfg)
           && truthy (SMTP_PASS cfg) && truthy to_email)
  then ret false
  else
    let to := default EmptyString to_email in
    set_header w "From" (default EmptyString (SMTP_USER cfg)) >>
    set_header w "To" to >>
    set_header w "Subject" subject >>
    emit (EvSmtp to subject) >>
    if smtp_deliver w to subject body then ret true else ret false.

(** [call_gemini_with_key] (lines 122-144), issued as attempt number
    [attempt] against the key at position [idx]. *)
Definition call_gemini_with_key (w : World) (idx attempt : Z)
    (key prompt : string) (metadata : option string) : M RawOutcome :=
  let o := upstream w attempt key prompt metadata in
  emit (EvCall idx attempt o) >> ret o.

(** [BASE_BACKOFF_SECONDS * (1.5 ** (total_attempts - 1))], when the
    power is in the range of a double. *)
Definition backoff (cfg : Config) (total_attempts : Z) : Q :=
  (BASE_BACKOFF_SECONDS cfg * (3 # 2) ^ (total_attempts - 1))%Q.

(** [1.5 ** (total_attempts - 1)] raises [OverflowError]: the power is
    beyond the largest double, which it is from the exponent 1751 on
    ([1.5 ** 1750] is about [1.44e308]). *)
Definition pow_overflows (total_attempts : Z) : bool :=
  1751 <=? total_attempts - 1.

(** [await asyncio.sleep(BASE_BACKOFF_SECONDS * (1.5 ** (total_attempts -
    1)))] (lines 177, 221 and 234). *)
Definition backoff_sleep (cfg : Config) (total_attempts : Z) : M unit :=
  if pow_overflows total_attempts then raise OverflowError
  else sleep (backoff cfg total_attempts).

(** The declaration [raw_response: Optional[dict]] of the response model
    (line 95): the field takes a [dict] and [None]; for every other value
    the construction of the model raises [ValidationError], as pydantic 2
    validates the field (pydantic 1 would first try to build a [dict] from
    the value). *)
Definition is_optional_dict (payload : Payload) : bool :=
  match payload with
  | PyDict _ | PyNone => true
  | PyOther _ => false
  end.

(** The flag [is_rate_limit] of lines 193-202. *)
Definition is_rate_limit (status : Z) (payload : Payload) : bool :=
  if status =? 429 then true
  else
    let body_str :=
      match payload with
      | PyDict json_dumps => json_dumps
      | PyNone => "None"
      | PyOther str => str
      end in
    let lower := Text.lower body_str in
    Text.str_in "ratelimit" lower || Text.str_in "rate limit" lower
    || Text.str_in "ratelimitexceeded" lower || Text.str_in "quota" lower.

(** The alert texts of lines 209-214. *)
Definition alert_subject (idx : Z) : string :=
  "API Key #" +:+ pretty idx
  +:+ " has reached its limit. Please prepare the next batch of 10 keys.".

Definition alert_body (w : World) (idx : Z) : string :=
  "Automated alert: API Key #" +:+ pretty idx
  +:+ " (1-based index) triggered a rate limit response at "
  +:+ utcnow w +:+ "Z." +:+ Text.nl +:+ Text.nl
  +:+ "Please prepare the next batch of 10 keys and rotate them into your environment variables."
  +:+ Text.nl +:+ Text.nl
  +:+ "This is an automated notification from the Gemini key-rotating server.".

(** [enumerate(keys, start)]. *)
Fixpoint enumerate {A} (start : Z) (l : list A) : list (Z * A) :=
  match l with
  | [] => []
  | x :: l' => (start, x) :: enumerate (start + 1) l'
  end.

(* ===================================================================== *)
(** ** The request handler [generate] (lines 145-242) *)
(* ===================================================================== *)

(** How one turn of the [for] loop ends: [continue] with the updated loop
    variables, [break], or [return]. *)
Inductive Flow : Type :=
| Continue (total_attempts : Z) (last_error : LastError)
| Break (last_error : LastError)
| Return (r : GeminiResponse).

Section Handler.

Variable cfg : Config.
Variable w : World.
Variable req : GenerateRequest.

(** The body of the loop (lines 166-238) for the pair [(idx, key)]. *)
Definition loop_body (notified_keys : gset Z) (idx : Z) (key : string)
    (total_attempts : Z) (last_error : LastError) : M Flow :=
  if MAX_TOTAL_RETRIES_PER_PROMPT cfg <=? total_attempts then
    ret (Break last_error)
  else
    let total_attempts := total_attempts + 1 in
    let* o := call_gemini_with_key w idx total_attempts key
                (prompt req) (metadata req) in
    match o with
    | RequestError e =>
        backoff_sleep cfg total_attempts >>
        ret (Continue total_attempts (ErrNetwork e))
    | Response status payload =>
        if (200 <=? status) && (status <? 300) then
          if is_optional_dict payload then
            ret (Return {| success := true; key_used_index := Some idx;
                           raw_response := Some payload; error := None |})
          else raise ValidationError
        else if is_rate_limit status payload then
          (if bool_decide (idx ∈ WATCH_KEYS_INDICES cfg)
              && negb (bool_decide (idx ∈ notified_keys))
           then
             emit (EvAlert idx) >>
             let* sent := send_warning_email cfg w (alert_subject idx)
                            (alert_body w idx)
                            (py_or (email_to req) (DEFAULT_WARNING_TO cfg)) in
             emit (EvSent idx sent) >>
             if sent then mark_key_notified w idx else ret tt
           else ret tt) >>
          backoff_sleep cfg total_attempts >>
          ret (Continue total_attempts (ErrRateLimit idx))
        else if (status =? 401) || (status =? 403) then
          sleep (2 # 10) >>
          ret (Continue total_attempts (ErrStatus status payload))
        else if (500 <=? status) && (status <? 600) then
          backoff_sleep cfg total_attempts >>
          ret (Continue total_attempts (ErrStatus status payload))
        else
          ret (Break (ErrStatus status payload))
    end.

(** The [for] loop over [enumerate(GEMINI_KEYS, start=1)] followed by
    the statements after it (lines 241-242). *)
Fixpoint walk (notified_keys : gset Z) (items : list (Z * string))
    (total_attempts : Z) (last_error : LastError) : M GeminiResponse :=
  match items with
  | [] => raise (HTTPException 502 (FailedWithAnyKey last_error))
  | (idx, key) :: rest =>
      let* f := loop_body notified_keys idx key total_attempts last_error in
      match f with
      | Continue total_attempts last_error =>
          walk notified_keys rest total_attempts last_error
      | Break last_error =>
          raise (HTTPException 502 (FailedWithAnyKey last_error))
      | Return r => ret r
      end
  end.

Definition generate : M GeminiResponse :=
  match GEMINI_KEYS cfg with
  | [] => raise (HTTPException 500 NoKeysConfigured)
  | _ =>
      let* notified_keys := get_notified_keys in
      walk notified_keys (enumerate 1 (GEMINI_KEYS cfg)) 0 ErrNone
  end.

End Handler.

(** The three components of a run. *)
Definition result_of {A} (r : A * gmap Z string * list Event) : A := r.1.1.
Definition ledger_of {A} (r : A * gmap Z string * list Event) : gmap Z string := r.1.2.
Definition trace_of {A} (r : A * gmap Z string * list Event) : list Event := r.2.

(** The two terminal failures, in the specification's words. *)
Definition NotConfigured : Result := Exc (HTTPException 500 NoKeysConfigured).
Definition Exhausted (last_error : LastError) : Result :=
  Exc (HTTPException 502 (FailedWithAnyKey last_error)).

(* ===================================================================== *)
(** ** The decisions of the loop body, read off the code *)
(* ===================================================================== *)

(** Which branch of lines 173-238 an upstream outcome takes, named by the
    specification's verdicts.  The order of the tests is the order of the
    source: the success range, then the flag [is_rate_limit], then the
    statuses 401 and 403, then the range of server errors. *)
Definition classify (o : RawOutcome) : Verdict :=
  match o with
  | RequestError _ => TransportError
  | Response status payload =>
      if (200 <=? status) && (status <? 300) then Success
      else if is_rate_limit status payload then RateLimited
      else if (status =? 401) || (status =? 403) then AuthFailure
      else if (500 <=? status) && (status <? 600) then ServerError
      else OtherFailure
  end.

(** The classifier as section 4.3 of the specification words it: the
    statuses 401, 403 and 5xx are decided before the body is looked at,
    and the body is searched for three keywords. *)
Definition spec_classify (o : RawOutcome) : Verdict :=
  match o with
  | RequestError _ => TransportError
  | Response status payload =>
      if (200 <=? status) && (status <? 300) then Success
      else if status =? 429 then RateLimited
      else if (status =? 401) || (status =? 403) then AuthFailure
      else if (500 <=? status) && (status <? 600) then ServerError
      else
        let lower :=
          Text.lower (match payload with
                      | PyDict s => s
                      | PyNone => "None"
                      | PyOther s => s
                      end) in
        if Text.str_in "ratelimit" lower || Text.str_in "rate limit" lower
           || Text.str_in "quota" lower
        then RateLimited else OtherFailure
  end.

(** The serialised body that line 199 builds. *)
Definition body_str (payload : Payload) : string :=
  match payload with
  | PyDict json_dumps => json_dumps
  | PyNone => "None"
  | PyOther str => str
  end.

(** One of the rate-limit keywords occurs in the lower-cased body. *)
Definition HasKeyword (payload : Payload) : Prop :=
  let lower := Text.lower (body_str payload) in
  Text.Substring "ratelimit" lower ∨ Text.Substring "rate limit" lower
  ∨ Text.Substring "quota" lower.

(** The value of [last_error] after an attempt against key [idx]. *)
Definition error_after (idx : Z) (o : RawOutcome) : LastError :=
  match o with
  | RequestError e => ErrNetwork e
  | Response status payload =>
      if is_rate_limit status payload then ErrRateLimit idx
      else ErrStatus status payload
  end.

(** The pause taken after attempt number [n] ended with verdict [v]. *)
Definition delay_after (cfg : Config) (n : Z) (v : Verdict) : Q :=
  match v with
  | AuthFailure => 2 # 10
  | _ => backoff cfg n
  end.

(** The condition of line 100, for the recipient the handler computes. *)
Definition smtp_ready (cfg : Config) (req : GenerateRequest) : bool :=
  truthy (SMTP_HOST cfg) && truthy (SMTP_USER cfg) && truthy (SMTP_PASS cfg)
  && truthy (py_or (email_to req) (DEFAULT_WARNING_TO cfg)).

(** The notification block of lines 208-219. *)
Definition notify_block (cfg : Config) (w : World) (req : GenerateRequest)
    (notified_keys : gset Z) (idx : Z) : M unit :=
  if bool_decide (idx ∈ WATCH_KEYS_INDICES cfg)
     && negb (bool_decide (idx ∈ notified_keys))
  then
    emit (EvAlert idx) >>
    let* sent := send_warning_email cfg w (alert_subject idx) (alert_body w idx)
                   (py_or (email_to req) (DEFAULT_WARNING_TO cfg)) in
    emit (EvSent idx sent) >>
    if sent then mark_key_notified w idx else ret tt
  else ret tt.

(** The mail library rejects one of the three headers of the alert for
    [idx]: the assignments of lines 105-107 raise. *)
Definition alert_rejected (cfg : Config) (w : World) (req : GenerateRequest)
    (idx : Z) : bool :=
  rejects_header w "From" (default EmptyString (SMTP_USER cfg))
  || rejects_header w "To"
       (default EmptyString (py_or (email_to req) (DEFAULT_WARNING_TO cfg)))
  || rejects_header w "Subject" (alert_subject idx).

(** Several requests served one after the other on the same table, none
    overlapping another: the server hands each request to the handler and
    goes on to the next one however the handler ended.  Requests that
    overlap are outside this definition. *)
Fixpoint serve (cfg : Config) (rs : list (World * GenerateRequest))
    (db : gmap Z string) : list Result * gmap Z string * list Event :=
  match rs with
  | [] => ([], db, [])
  | (w, req) :: rs' =>
      let '(r, db1, t1) := generate cfg w req db in
      let '(l, db2, t2) := serve cfg rs' db1 in
      (r :: l, db2, t1 ++ t2)
  end.

(* ===================================================================== *)
(** ** Observations on traces *)
(* ===================================================================== *)

Definition is_call (e : Event) : bool :=
  match e with EvCall _ _ _ => true | _ => false end.

Definition is_sleep (e : Event) : bool :=
  match e with EvSleep _ => true | _ => false end.

Definition is_smtp (e : Event) : bool :=
  match e with EvSmtp _ _ => true | _ => false end.

Definition is_alert_for (idx : Z) (e : Event) : bool :=
  match e with EvAlert i => i =? idx | _ => false end.

Definition is_delivery_for (idx : Z) (e : Event) : bool :=
  match e with EvSent i true => i =? idx | _ => false end.

Definition is_sent_for (idx : Z) (e : Event) : bool :=
  match e with EvSent i _ => i =? idx | _ => false end.

(** The number of upstream calls of a trace. *)
Definition n_attempts (t : list Event) : Z :=
  Z.of_nat (length (List.filter is_call t)).

(** How often the alert emitter was invoked for [idx]. *)
Definition alert_count (idx : Z) (t : list Event) : nat :=
  length (List.filter (is_alert_for idx) t).

(** How often the alert emitter returned for [idx]. *)
Definition sent_count (idx : Z) (t : list Event) : nat :=
  length (List.filter (is_sent_for idx) t).

(** How often an alert for [idx] was delivered. *)
Definition delivered_count (idx : Z) (t : list Event) : nat :=
  length (List.filter (is_delivery_for idx) t).

(** What the caller of the upstream and the sleeper see of a trace: the
    calls and the pauses, without the alerting events. *)
Definition walk_view (t : list Event) : list Event :=
  List.filter (λ e, is_call e || is_sleep e) t.

(** The pause slept between attempt [n - 1] and attempt [n]: the last
    [EvSleep] since the previous call, looked up when the call numbered
    [n] is reached. *)
Fixpoint sleep_before_from (last : option Q) (n : Z) (t : list Event)
    : option Q :=
  match t with
  | [] => None
  | EvCall _ m _ :: t' =>
      if m =? n then last else sleep_before_from None n t'
  | EvSleep d :: t' => sleep_before_from (Some d) n t'
  | _ :: t' => sleep_before_from last n t'
  end.

Definition sleep_before (n : Z) (t : list Event) : option Q :=
  sleep_before_from None n t.

(** The outcome of the attempt numbered [n], when there is one. *)
Fixpoint outcome_of_attempt (n : Z) (t : list Event) : option RawOutcome :=
  match t with
  | [] => None
  | EvCall _ m o :: t' => if m =? n then Some o else outcome_of_attempt n t'
  | _ :: t' => outcome_of_attempt n t'
  end.

(** The keys attempted, by index, in order. *)
Definition attempted (t : list Event) : list Z :=
  omap (λ e, match e with EvCall i _ _ => Some i | _ => None end) t.

(** The alerting done after an attempt with verdict [v]: only a
    rate-limited attempt reaches the notification block. *)
Definition notify_if (v : Verdict) (cfg : Config) (w : World)
    (req : GenerateRequest) (notified_keys : gset Z) (idx : Z) : M unit :=
  match v with
  | RateLimited => notify_block cfg w req notified_keys idx
  | _ => ret tt
  end.

(** The verdicts after which the loop takes its next turn. *)
Definition continuing (v : Verdict) : bool :=
  match v with
  | Success | OtherFailure => false
  | _ => true
  end.

(** The verdicts whose pause is the exponential backoff. *)
Definition backs_off (v : Verdict) : bool :=
  match v with
  | RateLimited | ServerError | TransportError => true
  | _ => false
  end.

(** The response returned when the call against key [idx] succeeded. *)
Definition success_response (idx : Z) (o : RawOutcome) : GeminiResponse :=
  {| success := true; key_used_index := Some idx;
     raw_response := match o with
                     | Response _ payload => Some payload
                     | RequestError _ => None
                     end;
     error := None |}.

(** The response model takes the payload of the outcome (line 190). *)
Definition accepted (o : RawOutcome) : bool :=
  match o with
  | Response _ payload => is_optional_dict payload
  | RequestError _ => true
  end.

(** How the handler ends on a call with a status in [200,300). *)
Definition respond (idx : Z) (o : RawOutcome) : Result :=
  if accepted o then Ok (success_response idx o) else Exc ValidationError.

(** The pause after attempt number [n] with verdict [v] raises: the pause
    is the exponential backoff and its power overflows. *)
Definition pause_raises (n : Z) (v : Verdict) : bool :=
  backs_off v && pow_overflows n.

(* ===================================================================== *)
(** ** Concrete pools, worlds and requests *)
(* ===================================================================== *)

Module Scenario.

(** A configuration with a working SMTP set-up and a base backoff of
    one second. *)
Definition config (keys : list string) (watch : gset Z) (budget : Z)
    : Config :=
  {| GEMINI_KEYS := keys;
     SMTP_HOST := Some "smtp.example.org";
     SMTP_USER := Some "alerts";
     SMTP_PASS := Some "secret";
     DEFAULT_WARNING_TO := Some "ops@example.org";
     WATCH_KEYS_INDICES := watch;
     MAX_TOTAL_RETRIES_PER_PROMPT := budget;
     BASE_BACKOFF_SECONDS := 1 |}.

(** The same without an SMTP host. *)
Definition config_without_smtp (keys : list string) (watch : gset Z)
    (budget : Z) : Config :=
  {| GEMINI_KEYS := keys;
     SMTP_HOST := None;
     SMTP_USER := Some "alerts";
     SMTP_PASS := Some "secret";
     DEFAULT_WARNING_TO := Some "ops@example.org";
     WATCH_KEYS_INDICES := watch;
     MAX_TOTAL_RETRIES_PER_PROMPT := budget;
     BASE_BACKOFF_SECONDS := 1 |}.

Definition request : GenerateRequest :=
  {| prompt := "Write a haiku."; email_to := None; metadata := None |}.

(** A line feed or a carriage return occurs in the text. *)
Definition has_line_break (s : string) : bool :=
  Text.str_in Text.nl s || Text.str_in (String (ascii_of_nat 13) EmptyString) s.

(** A world whose upstream answers by attempt number, and whose mail
    library rejects every header value with a line feed or a carriage
    return in it. *)
Definition world (answers : Z → RawOutcome) (delivers : bool) : World :=
  {| upstream := λ n _ _ _, answers n;
     rejects_header := λ _ value, has_line_break value;
     smtp_deliver := λ _ _ _, delivers;
     utcnow := "2024-05-01T12:00:00" |}.

(** A request whose recipient runs over two lines. *)
Definition request_two_lines : GenerateRequest :=
  {| prompt := "Write a haiku.";
     email_to := Some ("ops@example.org" +:+ Text.nl +:+ "Bcc: all@example.org");
     metadata := None |}.

Definition too_many : RawOutcome := Response 429 (PyOther "Too Many Requests").
Definition fine : RawOutcome := Response 200 (PyDict "{}").
Definition not_found : RawOutcome := Response 404 (PyOther "Not Found").
Definition forbidden_quota : RawOutcome :=
  Response 403 (PyOther "Quota exceeded for this key.").
Definition unavailable_rate : RawOutcome :=
  Response 503 (PyOther "Rate limit reached, try later.").

(** A status 200 with a body that is JSON and no object: the number 42. *)
Definition number_body : RawOutcome := Response 200 (PyOther "42").

(** Every call is answered 200 with that body. *)
Definition always_number : World := world (λ _, number_body) true.

(** Every call is answered 429. *)
Definition always_429 (delivers : bool) : World :=
  world (λ _, too_many) delivers.

(** The first call is answered 429, every later one 200. *)
Definition first_429 (delivers : bool) : World :=
  world (λ n, if n =? 1 then too_many else fine) delivers.

(** The first call is answered 404. *)
Definition first_404 : World :=
  world (λ n, if n =? 1 then not_found else fine) true.

(** Every call is answered 200. *)
Definition always_200 : World := world (λ _, fine) true.

(** The pool [k1] with index 1 watched and a budget of three. *)
Definition single : Config := config ["k1"] {[ 1 ]} 3.

(** The pool [k1, k2] with index 1 watched and the default budget. *)
Definition pair : Config := config ["k1"; "k2"] {[ 1 ]} 30.

Definition pair_without_smtp : Config :=
  config_without_smtp ["k1"; "k2"] {[ 1 ]} 30.

(** No key at all. *)
Definition unconfigured : Config := config [] source_watch_keys 30.

(** Three keys, none of them watched by the source's watch set; the
    first call is answered 429, the second 503, the third 200. *)
Definition triple : Config := config ["k1"; "k2"; "k3"] source_watch_keys 30.

Definition busy_then_fine : World :=
  world (λ n, if n =? 1 then too_many
              else if n =? 2 then Response 503 (PyOther "Service Unavailable")
              else fine) true.

(** Ten keys, every call answered 429. *)
Definition ten : Config :=
  config ["k1"; "k2"; "k3"; "k4"; "k5"; "k6"; "k7"; "k8"; "k9"; "k10"]
    source_watch_keys 30.

(** A table that already holds index 5. *)
Definition notified_5 : gmap Z string := {[ 5 := "2024-04-30T08:00:00Z" ]}.

(** The first call is answered 403 with a body that mentions a quota. *)
Definition first_403_quota : World :=
  world (λ n, if n =? 1 then forbidden_quota else fine) true.

End Scenario.

(* ===================================================================== *)
(** ** Start-up: the key pool read from the environment (lines 19-20) *)
(* ===================================================================== *)

Module Startup.

(** The start-up code is modelled for values of the variable made of
    ASCII characters, as API keys are.  On other values [str.strip] also
    removes the white space that Unicode has beyond ASCII (U+0085, U+00A0,
    U+2003 and others), which the definitions below leave in place: the
    statements about them are restricted to ASCII values. *)

(** The text is made of ASCII characters only. *)
Fixpoint is_ascii (s : string) : bool :=
  match s with
  | EmptyString => true
  | String c s' => Nat.ltb (nat_of_ascii c) 128 && is_ascii s'
  end.

(** [str.isspace] on the ASCII range: the characters 9 to 13 and 28 to
    32. *)
Definition is_space (c : ascii) : bool :=
  let n := nat_of_ascii c in
  (Nat.leb 9 n && Nat.leb n 13) || (Nat.leb 28 n && Nat.leb n 32).

(** [s.split(sep)] for a separator of one character: the pieces between
    the separators, the empty ones included; never the empty list. *)
Fixpoint split (sep : ascii) (s : string) : list string :=
  match s with
  | EmptyString => [EmptyString]
  | String c s' =>
      if bool_decide (c = sep) then EmptyString :: split sep s'
      else match split sep s' with
           | [] => [String c EmptyString]
           | piece :: pieces => String c piece :: pieces
           end
  end.

(** [s.lstrip()], [s.rstrip()] and [s.strip()], for an ASCII text. *)
Fixpoint lstrip (s : string) : string :=
  match s with
  | EmptyString => EmptyString
  | String c s' => if is_space c then lstrip s' else s
  end.

Fixpoint rstrip (s : string) : string :=
  match s with
  | EmptyString => EmptyString
  | String c s' =>
      match rstrip s' with
      | EmptyString => if is_space c then EmptyString else String c EmptyString
      | String c' r => String c (String c' r)
      end
  end.

Definition strip (s : string) : string := rstrip (lstrip s).

(** Truthiness of a [str]. *)
Definition nonempty (s : string) : bool :=
  match s with EmptyString => false | String _ _ => true end.

(** [[k.strip() for k in value.split(",") if k.strip()]], for an ASCII
    value. *)
Definition parse_keys (value : string) : list string :=
  map strip (List.filter (λ k, nonempty (strip k)) (split "," value)).

(** [GEMINI_KEYS] as lines 19-20 compute it from the environment
    variable, unset or set. *)
Definition GEMINI_KEYS_of (env : option string) : list string :=
  parse_keys (default EmptyString env).

(** [sep.join(l)], to write a pool down as the variable expects it. *)
Fixpoint join (sep : ascii) (l : list string) : string :=
  match l with
  | [] => EmptyString
  | [k] => k
  | k :: l' => k +:+ String sep (join sep l')
  end.

(** The character occurs in the text. *)
Fixpoint occurs (c : ascii) (s : string) : bool :=
  match s with
  | EmptyString => false
  | String c' s' => bool_decide (c' = c) || occurs c s'
  end.

(** The text does not begin with white space. *)
Definition no_lead (s : string) : Prop :=
  match s with
  | EmptyString => True
  | String c _ => is_space c = false
  end.

(** A key as the parser leaves it, reading an ASCII value: made of ASCII
    characters, not empty, free of commas, and with no white space at
    either end. *)
Definition clean (k : string) : Prop :=
  is_ascii k = true ∧ k ≠ EmptyString ∧ occurs "," k = false
  ∧ lstrip k = k ∧ rstrip k = k.

(** The configuration with the pool the environment gives. *)
Definition with_keys (cfg : Config) (env : option string) : Config :=
  {| GEMINI_KEYS := GEMINI_KEYS_of env;
     SMTP_HOST := SMTP_HOST cfg;
     SMTP_USER := SMTP_USER cfg;
     SMTP_PASS := SMTP_PASS cfg;
     DEFAULT_WARNING_TO := DEFAULT_WARNING_TO cfg;
     WATCH_KEYS_INDICES := WATCH_KEYS_INDICES cfg;
     MAX_TOTAL_RETRIES_PER_PROMPT := MAX_TOTAL_RETRIES_PER_PROMPT cfg;
     BASE_BACKOFF_SECONDS := BASE_BACKOFF_SECONDS cfg |}.

End Startup.

(* ===================================================================== *)
(** ** The form of [src/front.py] *)
(* ===================================================================== *)

Module Front.

(** The widgets of lines 17-29. *)
Record Form : Type := {
  form_prompt : string;
  first_name : string;
  last_name : string;
  company_name : string;
  linkedin_url : string;
  website : string;
  phone_number : string;
  form_email_to : string
}.

(** The two addresses of lines 6-7. *)
Record Settings : Type := {
  FASTAPI_URL : string;
  N8N_WEBHOOK_URL : string
}.

(** The dictionary [metadata] of lines 31-38. *)
Definition metadata (f : Form) : gmap string string :=
  <[ "firstName" := first_name f ]>
  (<[ "lastName" := last_name f ]>
  (<[ "companyName" := company_name f ]>
  (<[ "LinkedInURL" := linkedin_url f ]>
  (<[ "website" := website f ]>
  (<[ "phoneNumber" := phone_number f ]> ∅))))).

(** The dictionary [payload] of lines 44-48. *)
Record Request : Type := {
  req_prompt : string;
  req_email_to : string;
  req_metadata : gmap string string
}.

(** What [response.json()] gives: a dictionary, whose values are kept as
    text, or a value of another kind. *)
Inductive Json : Type :=
| JsonDict (fields : gmap string string)
| JsonOther.

(** What a [requests.post] gives back: it raises a
    [requests.exceptions.RequestException], or it returns a response with
    a status code and a body that [response.json()] decodes ([None] when
    the decoding raises). *)
Inductive Posted : Type :=
| PostRaised
| PostResponse (status_code : Z) (json : option Json).

(** The network as the form sees it.  [json_error_is_request_exception]
    tells whether the decoding error of [response.json()] is a
    [RequestException], as it is in the later versions of the library. *)
Record Net : Type := {
  post_fastapi : Request → Posted;
  post_n8n : gmap string string → Posted;
  json_error_is_request_exception : bool
}.

(** The messages of [st.error]. *)
Inductive Message : Type :=
| PleaseEnterPrompt
| ErrorCallingServer
| FailedToSendToN8n.

(** What the form does, in order. *)
Inductive Ui : Type :=
| StError (m : Message)
| StSuccess
| StJson (data : Json)
| StInfo
| StWarning (status_code : Z)
| PostFastapi (payload : Request)
| PostN8n (payload : gmap string string).

(** How a run of the script ends. *)
Inductive Ending : Type :=
| Completed
| Uncaught.

(** [{**metadata, "aiResponse": data.get("raw_response", "")}]
    (line 63). *)
Definition n8n_payload (f : Form) (fields : gmap string string)
    : gmap string string :=
  <[ "aiResponse" := default EmptyString (fields !! "raw_response") ]>
    (metadata f).

(** The inner [try] of lines 61-70. *)
Definition relay (net : Net) (f : Form) (data : Json) : list Ui :=
  match data with
  | JsonOther => [StError FailedToSendToN8n]
  | JsonDict fields =>
      let payload := n8n_payload f fields in
      match post_n8n net payload with
      | PostRaised => [PostN8n payload; StError FailedToSendToN8n]
      | PostResponse status _ =>
          if status =? 200 then [PostN8n payload; StInfo]
          else [PostN8n payload; StWarning status]
      end
  end.

(** The body of [if st.button("Generate AI Response")] (lines 40-73). *)
Definition on_click (cfg : Settings) (net : Net) (f : Form)
    : list Ui * Ending :=
  if negb (Startup.nonempty (form_prompt f)) then
    ([StError PleaseEnterPrompt], Completed)
  else
    let payload :=
      {| req_prompt := form_prompt f;
         req_email_to := form_email_to f;
         req_metadata := metadata f |} in
    match post_fastapi net payload with
    | PostRaised =>
        ([PostFastapi payload; StError ErrorCallingServer], Completed)
    | PostResponse status json =>
        if (400 <=? status) && (status <? 600) then
          ([PostFastapi payload; StError ErrorCallingServer], Completed)
        else
          match json with
          | None =>
              if json_error_is_request_exception net then
                ([PostFastapi payload; StError ErrorCallingServer], Completed)
              else ([PostFastapi payload], Uncaught)
          | Some data =>
              (PostFastapi payload :: StSuccess :: StJson data
                 :: (if Startup.nonempty (N8N_WEBHOOK_URL cfg)
                     then relay net f data else []),
               Completed)
          end
    end.

Definition is_post_fastapi (e : Ui) : bool :=
  match e with PostFastapi _ => true | _ => false end.

Definition is_post_n8n (e : Ui) : bool :=
  match e with PostN8n _ => true | _ => false end.

End Front.

(* ===================================================================== *)
(** ** Further observations and scenarios *)
(* ===================================================================== *)

(** The last upstream call of a trace, when there is one. *)
Fixpoint last_call (t : list Event) : option (Z * Z * RawOutcome) :=
  match t with
  | [] => None
  | e :: t' =>
      match last_call t' with
      | Some c => Some c
      | None => match e with
                | EvCall i n o => Some (i, n, o)
                | _ => None
                end
      end
  end.

(** The number of pauses of a trace. *)
Definition n_sleeps (t : list Event) : Z :=
  Z.of_nat (length (List.filter is_sleep t)).

(** The number of SMTP sessions of a trace that carry a given subject. *)
Definition is_smtp_about (subject : string) (e : Event) : bool :=
  match e with
  | EvSmtp _ s => bool_decide (s = subject)
  | _ => false
  end.

Definition smtp_count (subject : string) (t : list Event) : nat :=
  length (List.filter (is_smtp_about subject) t).

Module Cases.

(** The source's watch set on a pool of four keys. *)
Definition four : Config :=
  Scenario.config ["k1"; "k2"; "k3"; "k4"] source_watch_keys 30.

(** Five keys under a budget of three. *)
Definition five_budget_three : Config :=
  Scenario.config ["k1"; "k2"; "k3"; "k4"; "k5"] source_watch_keys 3.

(** A pool of 1752 keys under a budget of 2000: long enough to reach
    the attempt at which the power of the backoff overflows. *)
Definition long_pool : Config :=
  Scenario.config (replicate 1752 "k") source_watch_keys 2000.

(** The record another request left for index 1. *)
Definition marked_1 : gmap Z string := {[ 1 := "2024-04-30T08:00:00Z" ]}.

(** Every call raises a transport error. *)
Definition unreachable : World :=
  Scenario.world (λ _, RequestError "connection refused") true.

(** A form filled in, and the same with an empty prompt. *)
Definition form : Front.Form :=
  {| Front.form_prompt := "Write a haiku.";
     Front.first_name := "Ada";
     Front.last_name := "Lovelace";
     Front.company_name := "Analytical Engines";
     Front.linkedin_url := "https://example.org/in/ada";
     Front.website := "https://example.org";
     Front.phone_number := "000";
     Front.form_email_to := EmptyString |}.

Definition settings : Front.Settings :=
  {| Front.FASTAPI_URL := "http://127.0.0.1:8000/generate";
     Front.N8N_WEBHOOK_URL :=
       "https://your-n8n-instance.com/webhook/generate-prospect" |}.

(** The server answers 200 with a dictionary; the webhook answers with
    the given status. *)
Definition answered (webhook_status : Z) : Front.Net :=
  {| Front.post_fastapi := λ _,
       Front.PostResponse 200
         (Some (Front.JsonDict {[ "raw_response" := "haiku" ]}));
     Front.post_n8n := λ _, Front.PostResponse webhook_status None;
     Front.json_error_is_request_exception := true |}.

End Cases.

(* ===================================================================== *)
(** ** Facts about text *)
(* ===================================================================== *)

Module TextFacts.
Import Text.

Lemma starts_with_spec (p s : string) :
  starts_with p s = true ↔ ∃ post, s = p +:+ post.
Proof.
  revert s; induction p as [|a p IH]; intros s; simpl.
  - split; [intros _; by exists s | done].
  - destruct s as [|b s]; simpl.
    + split; [done | intros [post H]; discriminate].
    + rewrite andb_true_iff, bool_decide_eq_true, IH. split.
      * intros [-> [post ->]]. by exists post.
      * intros [post H]. injection H as -> ->. eauto.
Qed.

Lemma str_in_spec (sub s : string) :
  str_in sub s = true ↔ Substring sub s.
Proof.
  unfold Substring. induction s as [|c s IH]; simpl.
  - rewrite starts_with_spec. split.
    + intros [post H]. by exists EmptyString, post.
    + intros [pre [post H]]. destruct pre; simpl in H; [eauto | discriminate].
  - rewrite orb_true_iff, IH, (starts_with_spec sub (String c s)). split.
    + intros [[post H] | [pre [post H]]].
      * by exists EmptyString, post.
      * exists (String c pre), post. simpl. by rewrite H.
    + intros [pre [post H]]. destruct pre as [|c' pre]; simpl in H.
      * left. eauto.
      * right. injection H as -> ->. eauto.
Qed.

(** The fourth keyword of line 201 is redundant: whatever contains it
    contains the first. *)
Lemma ratelimitexceeded_redundant (s : string) :
  str_in "ratelimitexceeded" s = true → str_in "ratelimit" s = true.
Proof.
  rewrite !str_in_spec. intros [pre [post ->]].
  exists pre, ("exceeded" +:+ post).
  f_equal. 
Qed.

End TextFacts.

(* ===================================================================== *)
(** ** The power of the backoff and the range of a double *)
(* ===================================================================== *)

Lemma pow_facts :
  2 ^ 1024 * 2 ^ 1751 ≤ 3 ^ 1751 ∧ 3 ^ 1750 < 2 ^ 1024 * 2 ^ 1750.
Proof.
  split; [apply Z.leb_le | apply Z.ltb_lt]; vm_compute; reflexivity.
Qed.

(** The exponent 1751 is where [1.5 ** k] leaves the doubles: the power
    is below [2 ^ 1024] up to the exponent 1750 and at least [2 ^ 1024],
    beyond every double, from 1751 on. *)
Lemma pow_overflows_spec (total_attempts : Z) :
  1 ≤ total_attempts →
  pow_overflows total_attempts = true
  ↔ 2 ^ 1024 * 2 ^ (total_attempts - 1) ≤ 3 ^ (total_attempts - 1).
Proof.
  intros Ht. unfold pow_overflows. rewrite Z.leb_le.
  set (k := total_attempts - 1). assert (0 ≤ k) as Hk by lia. clearbody k.
  clear Ht total_attempts.
  destruct pow_facts as [Hup Hdown].
  assert (Hmono : ∀ d, 0 ≤ d → 0 < 2 ^ d ≤ 3 ^ d).
  { intros d Hd. split; [apply Z.pow_pos_nonneg; lia |].
    apply Z.pow_le_mono_l. lia. }
  assert (Ha : 0 < 2 ^ 1024) by (apply Z.pow_pos_nonneg; lia).
  revert Hup Hdown Ha. generalize (2 ^ 1024). intros a Hup Hdown Ha.
  split.
  - intros Hge.
    destruct (Hmono (k - 1751)) as [H1 H2]; [lia |].
    replace k with (1751 + (k - 1751)) by lia.
    rewrite !Z.pow_add_r by lia.
    assert (Hc : 0 ≤ 3 ^ 1751) by (apply Z.pow_nonneg; lia).
    revert Hup H1 H2 Hc.
    generalize (2 ^ 1751) (3 ^ 1751) (2 ^ (k - 1751)) (3 ^ (k - 1751)).
    intros b c d e Hup H1 H2 Hc.
    transitivity (c * d).
    + rewrite Z.mul_assoc. apply Z.mul_le_mono_nonneg_r; lia.
    + apply Z.mul_le_mono_nonneg_l; lia.
  - intros Hle. destruct (Z.le_gt_cases 1751 k) as [| Hlt]; [assumption |].
    exfalso. destruct (Hmono (1750 - k)) as [H1 H2]; [lia |].
    assert (H3 : 0 < 3 ^ k) by (apply Z.pow_pos_nonneg; lia).
    assert (H4 : 0 < 2 ^ k) by (apply Z.pow_pos_nonneg; lia).
    assert (E2 : 2 ^ 1750 = 2 ^ k * 2 ^ (1750 - k)).
    { rewrite <- Z.pow_add_r by lia. f_equal. lia. }
    assert (E3 : 3 ^ 1750 = 3 ^ k * 3 ^ (1750 - k)).
    { rewrite <- Z.pow_add_r by lia. f_equal. lia. }
    rewrite E2, E3 in Hdown. clear E2 E3 Hup.
    revert Hle Hdown H1 H2 H3 H4.
    generalize (2 ^ k) (3 ^ k) (2 ^ (1750 - k)) (3 ^ (1750 - k)).
    intros b c d e Hle Hdown H1 H2 H3 H4. nia.
Qed.

(* ===================================================================== *)
(** ** Facts about the classification *)
(* ===================================================================== *)

Lemma is_rate_limit_spec (status : Z) (payload : Payload) :
  is_rate_limit status payload = true ↔ status = 429 ∨ HasKeyword payload.
Proof.
  unfold is_rate_limit, HasKeyword, body_str.
  destruct (Z.eqb_spec status 429) as [->|Hne].
  - split; [by left | done].
  - set (lower := Text.lower _).
    rewrite !orb_true_iff, <- !TextFacts.str_in_spec. split.
    + intros [[[H | H] | H] | H]; right; auto.
      left. by apply TextFacts.ratelimitexceeded_redundant.
    + intros [H | [H | [H | H]]]; [done | auto ..].
Qed.

Lemma is_rate_limit_false (status : Z) (payload : Payload) :
  is_rate_limit status payload = false ↔ status ≠ 429 ∧ ¬ HasKeyword payload.
Proof.
  rewrite <- not_true_iff_false, is_rate_limit_spec. tauto.
Qed.

Lemma classify_transport (o : RawOutcome) :
  classify o = TransportError ↔ ∃ e, o = RequestError e.
Proof.
  destruct o as [s p | e]; simpl.
  - split; [| intros [e H]; discriminate].
    repeat case_match; discriminate.
  - split; eauto.
Qed.

Lemma classify_success (o : RawOutcome) :
  classify o = Success ↔ ∃ s p, o = Response s p ∧ 200 ≤ s < 300.
Proof.
  destruct o as [s p | e]; simpl.
  - split.
    + intros H. exists s, p. split; [done |].
      destruct (Z.leb_spec 200 s), (Z.ltb_spec s 300); simpl in H; try lia;
        repeat case_match; discriminate.
    + intros (s' & p' & [= <- <-] & H1 & H2).
      apply Z.leb_le in H1. apply Z.ltb_lt in H2. by rewrite H1, H2.
  - split; [done | intros (s & p & H & _); discriminate].
Qed.

Lemma classify_rate_limited (o : RawOutcome) :
  classify o = RateLimited ↔
  ∃ s p, o = Response s p ∧ ¬ 200 ≤ s < 300 ∧ is_rate_limit s p = true.
Proof.
  destruct o as [s p | e]; simpl.
  - split.
    + intros H. exists s, p. split; [done |].
      destruct (Z.leb_spec 200 s), (Z.ltb_spec s 300); simpl in H;
        try discriminate; (split; [lia |]);
        destruct (is_rate_limit s p); try done;
        repeat case_match; discriminate.
    + intros (s' & p' & [= <- <-] & H1 & H2). rewrite H2.
      destruct (Z.leb_spec 200 s), (Z.ltb_spec s 300); simpl; try done; lia.
  - split; [done | intros (s & p & H & _); discriminate].
Qed.

Lemma error_after_rate_limited (idx : Z) (o : RawOutcome) :
  classify o = RateLimited → error_after idx o = ErrRateLimit idx.
Proof.
  rewrite classify_rate_limited. intros (s & p & -> & _ & H). simpl. by rewrite H.
Qed.

(* ===================================================================== *)
(** ** One turn of the loop, and induction along the walk *)
(* ===================================================================== *)

Section WalkFacts.

Variable cfg : Config.
Variable w : World.
Variable req : GenerateRequest.
Variable nk : gset Z.

Local Abbreviation MAX := (MAX_TOTAL_RETRIES_PER_PROMPT cfg).
Local Abbreviation answer n key :=
  (upstream w n key (prompt req) (metadata req)).
Local Abbreviation recipient :=
  (default EmptyString (py_or (email_to req) (DEFAULT_WARNING_TO cfg))).

(** The emitter, case by case: it declines, it raises at a header, or it
    opens the SMTP session and reports how that went. *)
Lemma send_warning_email_run (idx : Z) (db : gmap Z string) :
  send_warning_email cfg w (alert_subject idx) (alert_body w idx)
    (py_or (email_to req) (DEFAULT_WARNING_TO cfg)) db =
  if smtp_ready cfg req then
    if alert_rejected cfg w req idx then (Exc header_error, db, [])
    else
      (Val (smtp_deliver w (recipient) (alert_subject idx) (alert_body w idx)),
       db, [EvSmtp (recipient) (alert_subject idx)])
  else (Val false, db, []).
Proof.
  unfold send_warning_email, smtp_ready, alert_rejected, set_header.
  destruct (_ && truthy (py_or _ _)); simpl; [| done].
  unfold bind, raise, ret, emit.
  destruct (rejects_header w "From" _); [done |].
  destruct (rejects_header w "To" _); [done |].
  destruct (rejects_header w "Subject" _); [done |]. simpl.
  by destruct (smtp_deliver _ _ _ _).
Qed.

(** The notification block, case by case. *)
Lemma notify_block_run (idx : Z) (db : gmap Z string) :
  notify_block cfg w req nk idx db =
  if bool_decide (idx ∈ WATCH_KEYS_INDICES cfg) && negb (bool_decide (idx ∈ nk))
  then
    if smtp_ready cfg req then
      if alert_rejected cfg w req idx then (Exc header_error, db, [EvAlert idx])
      else if smtp_deliver w (recipient) (alert_subject idx) (alert_body w idx)
      then (Val tt, <[ idx := utcnow w +:+ "Z" ]> db,
            [EvAlert idx; EvSmtp (recipient) (alert_subject idx);
             EvSent idx true; EvMark idx])
      else (Val tt, db,
            [EvAlert idx; EvSmtp (recipient) (alert_subject idx);
             EvSent idx false])
    else (Val tt, db, [EvAlert idx; EvSent idx false])
  else (Val tt, db, []).
Proof.
  unfold notify_block. destruct (_ && negb _); [| done].
  unfold bind at 1. cbn [emit]. unfold bind at 1.
  rewrite send_warning_email_run.
  destruct (smtp_ready cfg req); [| done].
  destruct (alert_rejected cfg w req idx); [done |].
  by destruct (smtp_deliver _ _ _ _).
Qed.

(** One turn of the loop, by verdict. *)
Lemma loop_body_eq (idx : Z) (key : string) (ta : Z) (le : LastError)
    (db : gmap Z string) :
  loop_body cfg w req nk idx key ta le db =
  if MAX <=? ta then (Val (Break le), db, [])
  else
    let n := ta + 1 in
    let o := answer n key in
    let v := classify o in
    match v with
    | Success =>
        if accepted o
        then (Val (Return (success_response idx o)), db, [EvCall idx n o])
        else (Exc ValidationError, db, [EvCall idx n o])
    | OtherFailure => (Val (Break (error_after idx o)), db, [EvCall idx n o])
    | _ =>
        let r := notify_if v cfg w req nk idx db in
        match result_of r with
        | Val _ =>
            if pause_raises n v
            then (Exc OverflowError, ledger_of r, EvCall idx n o :: trace_of r)
            else
              (Val (Continue n (error_after idx o)), ledger_of r,
               EvCall idx n o :: trace_of r ++ [EvSleep (delay_after cfg n v)])
        | Exc e => (Exc e, ledger_of r, EvCall idx n o :: trace_of r)
        end
    end.
Proof.
  unfold loop_body. destruct (MAX <=? ta); [done |].
  unfold call_gemini_with_key, bind at 1; simpl.
  destruct (answer (ta + 1) key) as [s p | e]; simpl.
  - destruct ((200 <=? s) && (s <? 300)); [by destruct (is_optional_dict p) |].
    destruct (is_rate_limit s p).
    + cbn [notify_if delay_after]. unfold pause_raises. cbn [backs_off andb].
      fold (notify_block cfg w req nk idx).
      unfold backoff_sleep, bind, sleep, emit, ret, raise.
      destruct (notify_block cfg w req nk idx db) as [[[[] | e] db1] t1];
        [| done].
      cbn [result_of ledger_of trace_of fst snd].
      destruct (pow_overflows (ta + 1)); [| done].
      by rewrite app_nil_r.
    + destruct ((s =? 401) || (s =? 403)); [done |].
      destruct ((500 <=? s) && (s <? 600)); [| done].
      unfold pause_raises, backoff_sleep. cbn [backs_off andb].
      by destruct (pow_overflows (ta + 1)).
  - unfold pause_raises, backoff_sleep. cbn [backs_off andb].
    by destruct (pow_overflows (ta + 1)).
Qed.

(** The walk, one key at a time. *)
Lemma walk_cons (idx : Z) (key : string) (rest : list (Z * string))
    (ta : Z) (le : LastError) (db : gmap Z string) :
  walk cfg w req nk ((idx, key) :: rest) ta le db =
  if MAX <=? ta then (Exhausted le, db, [])
  else
    let n := ta + 1 in
    let o := answer n key in
    let v := classify o in
    match v with
    | Success => (respond idx o, db, [EvCall idx n o])
    | OtherFailure => (Exhausted (error_after idx o), db, [EvCall idx n o])
    | _ =>
        let r := notify_if v cfg w req nk idx db in
        match result_of r with
        | Val _ =>
            if pause_raises n v
            then (Exc OverflowError, ledger_of r, EvCall idx n o :: trace_of r)
            else
              let r' :=
                walk cfg w req nk rest n (error_after idx o) (ledger_of r) in
              (result_of r', ledger_of r',
               EvCall idx n o :: trace_of r
                 ++ EvSleep (delay_after cfg n v) :: trace_of r')
        | Exc e => (Exc e, ledger_of r, EvCall idx n o :: trace_of r)
        end
    end.
Proof.
  cbn [walk]. unfold bind at 1. rewrite loop_body_eq.
  destruct (MAX <=? ta); [done |]. cbv zeta. unfold respond.
  destruct (classify _); try done;
    try (by destruct (accepted _));
    destruct (result_of (notify_if _ _ _ _ _ _ _)); try done;
    destruct (pause_raises _ _); try done;
    unfold result_of, ledger_of, trace_of; simpl;
    destruct (walk _ _ _ _ _ _ _ _) as [[r' db'] t']; simpl.
  all: by rewrite <- ?app_assoc.
Qed.

(** Induction along the walk: a property of runs holds of every walk
    when it holds of the empty pool, of a spent budget, of a successful
    call whose payload the response model takes, of a fatal status, of a
    turn whose alerting raises, and is preserved by a turn that continues;
    and when it holds of a successful call whose payload the response
    model refuses and of a turn whose pause raises. *)
Lemma walk_elim
    (P : list (Z * string) → Z → LastError → gmap Z string →
         Result * gmap Z string * list Event → Prop) :
  (∀ ta le db, P [] ta le db (Exhausted le, db, [])) →
  (∀ idx key rest ta le db,
      MAX ≤ ta → P ((idx, key) :: rest) ta le db (Exhausted le, db, [])) →
  (∀ idx key rest ta le db,
      ta < MAX →
      classify (answer (ta + 1) key) = Success →
      accepted (answer (ta + 1) key) = true →
      P ((idx, key) :: rest) ta le db
        (Ok (success_response idx (answer (ta + 1) key)), db,
         [EvCall idx (ta + 1) (answer (ta + 1) key)])) →
  (∀ idx key rest ta le db,
      ta < MAX →
      classify (answer (ta + 1) key) = OtherFailure →
      P ((idx, key) :: rest) ta le db
        (Exhausted (error_after idx (answer (ta + 1) key)), db,
         [EvCall idx (ta + 1) (answer (ta + 1) key)])) →
  (∀ idx key rest ta le db o v r e,
      ta < MAX →
      o = answer (ta + 1) key →
      v = classify o →
      continuing v = true →
      r = notify_if v cfg w req nk idx db →
      result_of r = Exc e →
      P ((idx, key) :: rest) ta le db
        (Exc e, ledger_of r, EvCall idx (ta + 1) o :: trace_of r)) →
  (∀ idx key rest ta le db o v r r',
      ta < MAX →
      o = answer (ta + 1) key →
      v = classify o →
      continuing v = true →
      r = notify_if v cfg w req nk idx db →
      result_of r = Val tt →
      r' = walk cfg w req nk rest (ta + 1) (error_after idx o) (ledger_of r) →
      P rest (ta + 1) (error_after idx o) (ledger_of r) r' →
      pause_raises (ta + 1) v = false →
      P ((idx, key) :: rest) ta le db
        (result_of r', ledger_of r',
         EvCall idx (ta + 1) o :: trace_of r
           ++ EvSleep (delay_after cfg (ta + 1) v) :: trace_of r')) →
  (∀ idx key rest ta le db,
      ta < MAX →
      classify (answer (ta + 1) key) = Success →
      accepted (answer (ta + 1) key) = false →
      P ((idx, key) :: rest) ta le db
        (Exc ValidationError, db,
         [EvCall idx (ta + 1) (answer (ta + 1) key)])) →
  (∀ idx key rest ta le db o v r,
      ta < MAX →
      o = answer (ta + 1) key →
      v = classify o →
      continuing v = true →
      r = notify_if v cfg w req nk idx db →
      result_of r = Val tt →
      pause_raises (ta + 1) v = true →
      P ((idx, key) :: rest) ta le db
        (Exc OverflowError, ledger_of r,
         EvCall idx (ta + 1) o :: trace_of r)) →
  ∀ items ta le db, P items ta le db (walk cfg w req nk items ta le db).
Proof.
  intros Hnil Hbudget Hok Hfatal Hraise Hcont Hbad Hover.
  induction items as [| [idx key] rest IH]; intros ta le db.
  - apply Hnil.
  - rewrite walk_cons. destruct (Z.leb_spec MAX ta) as [Hle | Hlt].
    + by apply Hbudget.
    + cbv zeta.
      destruct (classify (answer (ta + 1) key)) eqn:Hv;
        [ unfold respond;
          destruct (accepted (answer (ta + 1) key)) eqn:Ha;
          [ by apply Hok | by apply Hbad ]
        | | | | | by apply Hfatal ];
        (destruct (result_of (notify_if _ cfg w req nk idx db)) as [[] | e] eqn:Hr;
         [ destruct (pause_raises (ta + 1) _) eqn:Hp;
           [ by apply (Hover idx key rest ta le db _ _ _ Hlt eq_refl
                         (eq_sym Hv) eq_refl eq_refl Hr Hp)
           | by apply (Hcont idx key rest ta le db _ _ _ _ Hlt eq_refl
                         (eq_sym Hv) eq_refl eq_refl Hr eq_refl) ]
         | by apply (Hraise idx key rest ta le db _ _ _ e Hlt eq_refl
                       (eq_sym Hv) eq_refl eq_refl Hr) ]).
Qed.

End WalkFacts.

(* ===================================================================== *)
(** ** Facts about traces *)
(* ===================================================================== *)

Lemma n_attempts_app (t1 t2 : list Event) :
  n_attempts (t1 ++ t2) = n_attempts t1 + n_attempts t2.
Proof. unfold n_attempts. rewrite List.filter_app, length_app. lia. Qed.

Lemma n_attempts_cons_call (i n : Z) (o : RawOutcome) (t : list Event) :
  n_attempts (EvCall i n o :: t) = 1 + n_attempts t.
Proof. unfold n_attempts. simpl. lia. Qed.

Lemma n_attempts_cons_sleep (d : Q) (t : list Event) :
  n_attempts (EvSleep d :: t) = n_attempts t.
Proof. done. Qed.

Lemma trace_of_triple {A} (a : A) (db : gmap Z string) (t : list Event) :
  trace_of (a, db, t) = t.
Proof. done. Qed.

Lemma ledger_of_triple {A} (a : A) (db : gmap Z string) (t : list Event) :
  ledger_of (a, db, t) = db.
Proof. done. Qed.

Lemma result_of_triple {A} (a : A) (db : gmap Z string) (t : list Event) :
  result_of (a, db, t) = a.
Proof. done. Qed.

Lemma n_attempts_nonneg (t : list Event) : 0 ≤ n_attempts t.
Proof. unfold n_attempts. lia. Qed.

Lemma alert_count_app (idx : Z) (t1 t2 : list Event) :
  alert_count idx (t1 ++ t2) = (alert_count idx t1 + alert_count idx t2)%nat.
Proof. unfold alert_count. by rewrite List.filter_app, length_app. Qed.

Lemma sent_count_app (idx : Z) (t1 t2 : list Event) :
  sent_count idx (t1 ++ t2) = (sent_count idx t1 + sent_count idx t2)%nat.
Proof. unfold sent_count. by rewrite List.filter_app, length_app. Qed.

Lemma delivered_count_app (idx : Z) (t1 t2 : list Event) :
  delivered_count idx (t1 ++ t2)
  = (delivered_count idx t1 + delivered_count idx t2)%nat.
Proof. unfold delivered_count. by rewrite List.filter_app, length_app. Qed.

Lemma walk_view_app (t1 t2 : list Event) :
  walk_view (t1 ++ t2) = walk_view t1 ++ walk_view t2.
Proof. apply List.filter_app. Qed.

Lemma alert_count_pos (idx : Z) (t : list Event) :
  alert_count idx t ≠ 0%nat → In (EvAlert idx) t.
Proof.
  unfold alert_count. induction t as [| e t IH]; simpl; [done |].
  destruct (is_alert_for idx e) eqn:He; simpl.
  - intros _. left. destruct e; try discriminate.
    simpl in He. by apply Z.eqb_eq in He as ->.
  - intros H. right. by apply IH.
Qed.

Lemma alert_count_In (idx : Z) (t : list Event) :
  In (EvAlert idx) t → (1 ≤ alert_count idx t)%nat.
Proof.
  unfold alert_count. induction t as [| e t IH]; [intros [] |].
  intros [-> | Hin]; simpl.
  - rewrite Z.eqb_refl. simpl. lia.
  - specialize (IH Hin). destruct (is_alert_for idx e); simpl; lia.
Qed.

Lemma alert_count_zero (idx : Z) (t : list Event) :
  alert_count idx t = 0%nat ↔ ¬ In (EvAlert idx) t.
Proof.
  split.
  - intros H Hin%alert_count_In. lia.
  - intros H. destruct (alert_count idx t) eqn:Hc; [done |].
    exfalso. apply H, alert_count_pos. lia.
Qed.

Lemma sent_count_In (idx : Z) (b : bool) (t : list Event) :
  In (EvSent idx b) t → (1 ≤ sent_count idx t)%nat.
Proof.
  unfold sent_count. induction t as [| e t IH]; [intros [] |].
  intros [-> | Hin]; simpl.
  - rewrite Z.eqb_refl. simpl. lia.
  - specialize (IH Hin). destruct (is_sent_for idx e); simpl; lia.
Qed.

(** A failed and a delivered alert for the same index are two returns of
    the emitter. *)
Lemma sent_count_both (idx : Z) (t : list Event) :
  In (EvSent idx false) t → In (EvSent idx true) t →
  (2 ≤ sent_count idx t)%nat.
Proof.
  induction t as [| e t IH]; [intros [] |].
  intros Hf Ht. change (e :: t) with ([e] ++ t). rewrite sent_count_app.
  destruct Hf as [-> | Hf], Ht as [Ht | Ht]; try discriminate.
  - apply sent_count_In in Ht.
    replace (sent_count idx [EvSent idx false]) with 1%nat; [lia |].
    unfold sent_count. cbn [List.filter is_sent_for].
    by rewrite Z.eqb_refl.
  - subst e. apply sent_count_In in Hf.
    replace (sent_count idx [EvSent idx true]) with 1%nat; [lia |].
    unfold sent_count. cbn [List.filter is_sent_for].
    by rewrite Z.eqb_refl.
  - specialize (IH Hf Ht). lia.
Qed.

Lemma delivered_le_sent (idx : Z) (t : list Event) :
  (delivered_count idx t ≤ sent_count idx t)%nat.
Proof.
  unfold delivered_count, sent_count. induction t as [| e t IH]; simpl; [lia |].
  destruct e; simpl; try done. destruct sent; simpl.
  - destruct (idx0 =? idx); simpl; lia.
  - destruct (idx0 =? idx); simpl; lia.
Qed.

Lemma delivered_count_pos (idx : Z) (t : list Event) :
  delivered_count idx t ≠ 0%nat → In (EvSent idx true) t.
Proof.
  unfold delivered_count. induction t as [| e t IH]; simpl; [done |].
  destruct (is_delivery_for idx e) eqn:He; simpl.
  - intros _. left. destruct e as [| | | i [] | |]; try discriminate.
    simpl in He. by apply Z.eqb_eq in He as ->.
  - intros H. right. by apply IH.
Qed.

Lemma attempted_app (t1 t2 : list Event) :
  attempted (t1 ++ t2) = attempted t1 ++ attempted t2.
Proof. apply omap_app. Qed.

Lemma attempted_In (j : Z) (t : list Event) :
  In j (attempted t) ↔ ∃ m o, In (EvCall j m o) t.
Proof.
  unfold attempted. rewrite <- list_elem_of_In, list_elem_of_omap. split.
  - intros (e & He & Hj). destruct e; try discriminate.
    injection Hj as ->. apply list_elem_of_In in He. eauto.
  - intros (m & o & H). exists (EvCall j m o).
    split; [by apply list_elem_of_In | done].
Qed.

(* ===================================================================== *)
(** ** Structure of a walk *)
(* ===================================================================== *)

Section WalkProps.

Variable cfg : Config.
Variable w : World.
Variable req : GenerateRequest.
Variable nk : gset Z.

Local Abbreviation MAX := (MAX_TOTAL_RETRIES_PER_PROMPT cfg).
Local Abbreviation answer n key :=
  (upstream w n key (prompt req) (metadata req)).
Local Abbreviation recipient :=
  (default EmptyString (py_or (email_to req) (DEFAULT_WARNING_TO cfg))).
Local Abbreviation run items ta le db := (walk cfg w req nk items ta le db).

(** What the alerting of one turn can do: deliver and mark, fail at the
    SMTP session, skip the session for want of configuration, raise at a
    header, or nothing at all. *)
Lemma notify_if_cases (v : Verdict) (idx : Z) (db : gmap Z string) :
  let r := notify_if v cfg w req nk idx db in
  (v = RateLimited ∧ idx ∈ WATCH_KEYS_INDICES cfg ∧ (idx ∉ nk)
   ∧ smtp_ready cfg req = true ∧ alert_rejected cfg w req idx = false
   ∧ r = (Val tt, <[ idx := utcnow w +:+ "Z" ]> db,
          [EvAlert idx; EvSmtp (recipient) (alert_subject idx);
           EvSent idx true; EvMark idx]))
  ∨ (v = RateLimited ∧ idx ∈ WATCH_KEYS_INDICES cfg ∧ (idx ∉ nk)
     ∧ smtp_ready cfg req = true ∧ alert_rejected cfg w req idx = false
     ∧ r = (Val tt, db,
            [EvAlert idx; EvSmtp (recipient) (alert_subject idx);
             EvSent idx false]))
  ∨ (v = RateLimited ∧ idx ∈ WATCH_KEYS_INDICES cfg ∧ (idx ∉ nk)
     ∧ smtp_ready cfg req = false
     ∧ r = (Val tt, db, [EvAlert idx; EvSent idx false]))
  ∨ (v = RateLimited ∧ idx ∈ WATCH_KEYS_INDICES cfg ∧ (idx ∉ nk)
     ∧ smtp_ready cfg req = true ∧ alert_rejected cfg w req idx = true
     ∧ r = (Exc header_error, db, [EvAlert idx]))
  ∨ ((v ≠ RateLimited ∨ idx ∉ WATCH_KEYS_INDICES cfg ∨ idx ∈ nk)
     ∧ r = (Val tt, db, [])).
Proof.
  destruct v; simpl;
    try (right; right; right; right; split; [by left | done]).
  rewrite notify_block_run.
  destruct (decide (idx ∈ WATCH_KEYS_INDICES cfg)) as [Hw | Hw];
    [rewrite (bool_decide_eq_true_2 _ Hw)
    | rewrite (bool_decide_eq_false_2 _ Hw);
      right; right; right; right; split; [right; by left | done]].
  destruct (decide (idx ∈ nk)) as [Hn | Hn];
    [rewrite (bool_decide_eq_true_2 _ Hn);
     right; right; right; right; split; [right; by right | done]
    | rewrite (bool_decide_eq_false_2 _ Hn)].
  simpl. destruct (smtp_ready cfg req); [| right; right; left; done].
  destruct (alert_rejected cfg w req idx); [right; right; right; left; done |].
  destruct (smtp_deliver _ _ _ _); [left; done | right; left; done].
Qed.

(** The alerting that does not raise. *)
Lemma notify_if_val (v : Verdict) (idx : Z) (db : gmap Z string) :
  result_of (notify_if v cfg w req nk idx db) = Val tt →
  let r := notify_if v cfg w req nk idx db in
  (v = RateLimited ∧ idx ∈ WATCH_KEYS_INDICES cfg ∧ (idx ∉ nk)
   ∧ smtp_ready cfg req = true
   ∧ r = (Val tt, <[ idx := utcnow w +:+ "Z" ]> db,
          [EvAlert idx; EvSmtp (recipient) (alert_subject idx);
           EvSent idx true; EvMark idx]))
  ∨ (v = RateLimited ∧ idx ∈ WATCH_KEYS_INDICES cfg ∧ (idx ∉ nk)
     ∧ smtp_ready cfg req = true
     ∧ r = (Val tt, db,
            [EvAlert idx; EvSmtp (recipient) (alert_subject idx);
             EvSent idx false]))
  ∨ (v = RateLimited ∧ idx ∈ WATCH_KEYS_INDICES cfg ∧ (idx ∉ nk)
     ∧ smtp_ready cfg req = false
     ∧ r = (Val tt, db, [EvAlert idx; EvSent idx false]))
  ∨ ((v ≠ RateLimited ∨ idx ∉ WATCH_KEYS_INDICES cfg ∨ idx ∈ nk)
     ∧ r = (Val tt, db, [])).
Proof.
  intros Hr. cbv zeta.
  destruct (notify_if_cases v idx db) as
    [(?&?&?&?&_&H) | [(?&?&?&?&_&H) | [(?&?&?&?&H) | [(?&?&?&?&_&H) | (?&H)]]]];
    rewrite H in Hr |- *; try discriminate; tauto.
Qed.

(** The alerting that raises: the emitter was invoked for a watched, not
    yet notified index after a rate-limited call, the mail library
    rejected a header, and nothing else happened. *)
Lemma notify_if_exc (v : Verdict) (idx : Z) (db : gmap Z string) (e : PyExc) :
  result_of (notify_if v cfg w req nk idx db) = Exc e →
  v = RateLimited ∧ idx ∈ WATCH_KEYS_INDICES cfg ∧ (idx ∉ nk)
  ∧ smtp_ready cfg req = true ∧ alert_rejected cfg w req idx = true
  ∧ e = header_error
  ∧ notify_if v cfg w req nk idx db = (Exc header_error, db, [EvAlert idx]).
Proof.
  intros Hr.
  destruct (notify_if_cases v idx db) as
    [(?&?&?&?&_&H) | [(?&?&?&?&_&H) | [(?&?&?&?&H) | [(?&?&?&?&?&H) | (?&H)]]]];
    rewrite H in Hr |- *; try discriminate.
  injection Hr as <-. tauto.
Qed.

(** The alerting never calls the upstream and never sleeps. *)
Lemma notify_if_view (v : Verdict) (idx : Z) (db : gmap Z string) :
  walk_view (trace_of (notify_if v cfg w req nk idx db)) = [].
Proof.
  destruct (notify_if_cases v idx db) as
    [(_&_&_&_&_&->) | [(_&_&_&_&_&->) | [(_&_&_&_&->) | [(_&_&_&_&_&->) | (_&->)]]]];
    done.
Qed.

Lemma notify_if_no_call (v : Verdict) (idx : Z) (db : gmap Z string)
    (i n : Z) (o : RawOutcome) :
  ¬ In (EvCall i n o) (trace_of (notify_if v cfg w req nk idx db)).
Proof.
  destruct (notify_if_cases v idx db) as
    [(_&_&_&_&_&->) | [(_&_&_&_&_&->) | [(_&_&_&_&->) | [(_&_&_&_&_&->) | (_&->)]]]];
    simpl; intuition discriminate.
Qed.

Lemma notify_if_attempts (v : Verdict) (idx : Z) (db : gmap Z string) :
  n_attempts (trace_of (notify_if v cfg w req nk idx db)) = 0.
Proof.
  destruct (notify_if_cases v idx db) as
    [(_&_&_&_&_&->) | [(_&_&_&_&_&->) | [(_&_&_&_&->) | [(_&_&_&_&_&->) | (_&->)]]]];
    done.
Qed.

(** Every call of a walk is the call of one turn: attempt [n] goes to
    the key at offset [n - ta - 1] of the remaining pool, and no
    attempt is numbered above the budget. *)
Lemma walk_calls (items : list (Z * string)) (ta : Z) (le : LastError)
    (db : gmap Z string) (i n : Z) (o : RawOutcome) :
  In (EvCall i n o) (trace_of (run items ta le db)) →
  ta < n ≤ MAX ∧
  ∃ key, items !! Z.to_nat (n - ta - 1) = Some (i, key) ∧ o = answer n key.
Proof.
  revert i n o. pattern items, ta, le, db, (run items ta le db).
  apply walk_elim; clear items ta le db.
  - intros ta le db i n o [].
  - intros idx key rest ta le db _ i n o [].
  - intros idx key rest ta le db Hlt _ _ i n o [[= <- <- <-] | []].
    split; [lia |]. exists key. by replace (ta + 1 - ta - 1) with 0 by lia.
  - intros idx key rest ta le db Hlt _ i n o [[= <- <- <-] | []].
    split; [lia |]. exists key. by replace (ta + 1 - ta - 1) with 0 by lia.
  - intros idx key rest ta le db o0 v r e Hlt -> -> Hc -> Hr i n o.
    rewrite trace_of_triple.
    intros [[= <- <- <-] | Hin]; [| by apply notify_if_no_call in Hin].
    split; [lia |]. exists key. by replace (ta + 1 - ta - 1) with 0 by lia.
  - intros idx key rest ta le db o0 v r r' Hlt -> -> Hc -> Hr -> IH _ i n o.
    rewrite trace_of_triple.
    intros [[= <- <- <-] | Hin].
    + split; [lia |]. exists key. by replace (ta + 1 - ta - 1) with 0 by lia.
    + apply in_app_or in Hin as [Hin | [Hin | Hin]];
        [by apply notify_if_no_call in Hin | discriminate |].
      apply IH in Hin as (Hn & key' & Hk & ->). split; [lia |].
      exists key'. split; [| done].
      replace (Z.to_nat (n - ta - 1)) with (S (Z.to_nat (n - (ta + 1) - 1))) by lia.
      done.
  - intros idx key rest ta le db Hlt _ _ i n o [[= <- <- <-] | []].
    split; [lia |]. exists key. by replace (ta + 1 - ta - 1) with 0 by lia.
  - intros idx key rest ta le db o0 v r Hlt -> -> Hc -> Hr _ i n o.
    rewrite trace_of_triple.
    intros [[= <- <- <-] | Hin]; [| by apply notify_if_no_call in Hin].
    split; [lia |]. exists key. by replace (ta + 1 - ta - 1) with 0 by lia.
Qed.

(** A walk makes no call only when the pool is empty or the budget is
    spent; otherwise it starts with the call numbered [ta + 1]. *)
Lemma walk_first_call (items : list (Z * string)) (ta : Z) (le : LastError)
    (db : gmap Z string) :
  (trace_of (run items ta le db) = [] ∧ (items = [] ∨ MAX ≤ ta))
  ∨ ∃ i o tl, trace_of (run items ta le db) = EvCall i (ta + 1) o :: tl.
Proof.
  destruct items as [| [idx key] rest]; [left; split; [done | by left] |].
  rewrite walk_cons. destruct (Z.leb_spec MAX ta) as [Hle | Hlt];
    [left; split; [done | by right] |].
  right. cbv zeta.
  destruct (classify _); try destruct (result_of (notify_if _ _ _ _ _ _ _));
    try destruct (pause_raises _ _); unfold trace_of; simpl; eauto.
Qed.

(** The number of calls is bounded by what is left of the budget, and
    by the size of the pool. *)
Lemma walk_attempts_bound (items : list (Z * string)) (ta : Z)
    (le : LastError) (db : gmap Z string) :
  n_attempts (trace_of (run items ta le db)) ≤ Z.max 0 (MAX - ta)
  ∧ n_attempts (trace_of (run items ta le db)) ≤ Z.of_nat (length items).
Proof.
  pattern items, ta, le, db, (run items ta le db).
  apply walk_elim; clear items ta le db.
  - intros ta le db. unfold trace_of, n_attempts; simpl. lia.
  - intros idx key rest ta le db _. unfold trace_of, n_attempts; simpl. lia.
  - intros idx key rest ta le db Hlt _ _.
    unfold trace_of, n_attempts; simpl. lia.
  - intros idx key rest ta le db Hlt _. unfold trace_of, n_attempts; simpl. lia.
  - intros idx key rest ta le db o0 v r e Hlt -> -> Hc -> Hr.
    rewrite trace_of_triple, n_attempts_cons_call, notify_if_attempts.
    cbn [length]. lia.
  - intros idx key rest ta le db o0 v r r' Hlt -> -> Hc -> Hr -> [IH1 IH2] _.
    rewrite trace_of_triple, n_attempts_cons_call, n_attempts_app,
      notify_if_attempts, n_attempts_cons_sleep.
    cbn [length]. lia.
  - intros idx key rest ta le db Hlt _ _.
    unfold trace_of, n_attempts; simpl. lia.
  - intros idx key rest ta le db o0 v r Hlt -> -> Hc -> Hr _.
    rewrite trace_of_triple, n_attempts_cons_call, notify_if_attempts.
    cbn [length]. lia.
Qed.

Lemma walk_call_idx (items : list (Z * string)) (ta : Z) (le : LastError)
    (db : gmap Z string) (i n : Z) (o : RawOutcome) :
  In (EvCall i n o) (trace_of (run items ta le db)) → In i items.*1.
Proof.
  intros (_ & key & Hk & _)%walk_calls.
  apply list_elem_of_In, list_elem_of_fmap. exists (i, key).
  split; [done |]. by eapply list_elem_of_lookup_2.
Qed.

(** A successful or fatal call is the last event of the walk, every
    other call was made before it with a smaller number, and it decides
    the result. *)
Lemma walk_terminal (items : list (Z * string)) (ta : Z) (le : LastError)
    (db : gmap Z string) (i n : Z) (o : RawOutcome) :
  In (EvCall i n o) (trace_of (run items ta le db)) →
  continuing (classify o) = false →
  (∃ pre, trace_of (run items ta le db) = pre ++ [EvCall i n o]
          ∧ ∀ j m o', In (EvCall j m o') pre → m < n)
  ∧ result_of (run items ta le db)
    = match classify o with
      | Success => respond i o
      | _ => Exhausted (error_after i o)
      end.
Proof.
  revert i n o. pattern items, ta, le, db, (run items ta le db).
  apply walk_elim; clear items ta le db.
  - intros ta le db i n o [].
  - intros idx key rest ta le db _ i n o [].
  - intros idx key rest ta le db Hlt Hv Ha i n o [[= <- <- <-] | []] _.
    rewrite Hv. unfold respond. rewrite Ha.
    split; [| done]. exists []. split; [done | intros j m o' []].
  - intros idx key rest ta le db Hlt Hv i n o [[= <- <- <-] | []] _.
    rewrite Hv. split; [| done]. exists []. split; [done | intros j m o' []].
  - intros idx key rest ta le db o0 v r e Hlt -> -> Hc -> Hr i n o.
    rewrite trace_of_triple.
    intros [[= <- <- <-] | Hin] Hnc;
      [congruence | by apply notify_if_no_call in Hin].
  - intros idx key rest ta le db o0 v r r' Hlt -> -> Hc -> Hr -> IH _ i n o.
    rewrite trace_of_triple, result_of_triple.
    intros [[= <- <- <-] | Hin] Hnc; [congruence |].
    apply in_app_or in Hin as [Hin | [Hin | Hin]];
      [by apply notify_if_no_call in Hin | discriminate |].
    destruct (walk_calls _ _ _ _ _ _ _ Hin) as [Hn _].
    destruct (IH i n o Hin Hnc) as [(pre & -> & Hpre) ->]. split; [| done].
    eexists (EvCall idx (ta + 1) _ :: _ ++ EvSleep _ :: pre).
    split; [cbn [app]; rewrite <- app_assoc; reflexivity |].
    intros j m o' [[= <- <- <-] | Hj]; [lia |].
    apply in_app_or in Hj as [Hj | [Hj | Hj]];
      [by apply notify_if_no_call in Hj | discriminate | eauto].
  - intros idx key rest ta le db Hlt Hv Ha i n o [[= <- <- <-] | []] _.
    rewrite Hv. unfold respond. rewrite Ha.
    split; [| done]. exists []. split; [done | intros j m o' []].
  - intros idx key rest ta le db o0 v r Hlt -> -> Hc -> Hr _ i n o.
    rewrite trace_of_triple.
    intros [[= <- <- <-] | Hin] Hnc;
      [congruence | by apply notify_if_no_call in Hin].
Qed.

End WalkProps.

(* ===================================================================== *)
(** ** Alerts along a walk *)
(* ===================================================================== *)

Section WalkAlerts.

Variable cfg : Config.
Variable w : World.
Variable req : GenerateRequest.
Variable nk : gset Z.

Local Abbreviation MAX := (MAX_TOTAL_RETRIES_PER_PROMPT cfg).
Local Abbreviation answer n key :=
  (upstream w n key (prompt req) (metadata req)).
Local Abbreviation run items ta le db := (walk cfg w req nk items ta le db).

(** The four-way case split of [notify_if_val], with the run of the
    alerting rewritten everywhere. *)
Ltac notify_cases Hr :=
  destruct (notify_if_val _ _ _ _ _ _ _ Hr) as
    [(_&_&_&_&->) | [(_&_&_&_&->) | [(_&_&_&_&->) | (_&->)]]].

(** The raising alert, with its run rewritten everywhere. *)
Ltac notify_raised Hr :=
  destruct (notify_if_exc _ _ _ _ _ _ _ _ Hr) as (_&_&_&_&_&->&->).

(** The table grows exactly by the indices whose alert was delivered. *)
Lemma walk_ledger (items : list (Z * string)) (ta : Z) (le : LastError)
    (db : gmap Z string) (i : Z) :
  i ∈ dom (ledger_of (run items ta le db))
  ↔ i ∈ dom db ∨ In (EvSent i true) (trace_of (run items ta le db)).
Proof.
  revert i. pattern items, ta, le, db, (run items ta le db).
  apply walk_elim; clear items ta le db;
    try (intros; rewrite ledger_of_triple, trace_of_triple; cbn [In];
         intuition discriminate).
  - intros idx key rest ta le db o0 v r e Hlt -> -> Hc -> Hr i.
    notify_raised Hr. rewrite ledger_of_triple, !trace_of_triple. cbn [In].
    intuition discriminate.
  - intros idx key rest ta le db o0 v r r' Hlt -> -> Hc -> Hr -> IH _ i.
    rewrite ledger_of_triple, trace_of_triple, IH. clear IH.
    set (T' := trace_of (run rest _ _ _)).
    notify_cases Hr;
      rewrite ?ledger_of_triple, ?trace_of_triple, ?dom_insert_L;
      cbn [In app]; rewrite ?elem_of_union, ?elem_of_singleton.
    all: intuition (try discriminate; auto).
    + subst. auto 10.
    + match goal with H : EvSent _ _ = EvSent _ _ |- _ => injection H as -> end.
      auto.
  - intros idx key rest ta le db o0 v r Hlt -> -> Hc -> Hr _ i.
    rewrite ledger_of_triple, trace_of_triple.
    notify_cases Hr;
      rewrite ?ledger_of_triple, ?trace_of_triple, ?dom_insert_L;
      cbn [In app]; rewrite ?elem_of_union, ?elem_of_singleton.
    all: intuition (try discriminate; auto).
    + subst. auto 10.
    + match goal with H : EvSent _ _ = EvSent _ _ |- _ => injection H as -> end.
      auto.
Qed.

(** An alert raised by the alerting of one turn that does not raise. *)
Lemma notify_if_alert_origin (v : Verdict) (idx i : Z) (db : gmap Z string) :
  result_of (notify_if v cfg w req nk idx db) = Val tt →
  In (EvAlert i) (trace_of (notify_if v cfg w req nk idx db)) →
  i = idx ∧ idx ∈ WATCH_KEYS_INDICES cfg ∧ (idx ∉ nk) ∧ v = RateLimited.
Proof.
  intros Hr Hin.
  destruct (notify_if_val _ _ _ _ _ _ _ Hr) as
    [(?&?&?&_&H) | [(?&?&?&_&H) | [(?&?&?&_&H) | (_&H)]]];
    rewrite H, trace_of_triple in Hin; cbn [In] in Hin.
  - destruct Hin as [[= <-] | [[=] | [[=] | [[=] | []]]]]; done.
  - destruct Hin as [[= <-] | [[=] | [[=] | []]]]; done.
  - destruct Hin as [[= <-] | [[=] | []]]; done.
  - destruct Hin.
Qed.

(** The emitter is only ever invoked for a watched index that the
    snapshot of the table does not hold, after a rate-limited call against
    it. *)
Lemma walk_alert_origin (items : list (Z * string)) (ta : Z) (le : LastError)
    (db : gmap Z string) (i : Z) :
  In (EvAlert i) (trace_of (run items ta le db)) →
  i ∈ WATCH_KEYS_INDICES cfg ∧ (i ∉ nk)
  ∧ ∃ n o, In (EvCall i n o) (trace_of (run items ta le db))
           ∧ classify o = RateLimited.
Proof.
  revert i. pattern items, ta, le, db, (run items ta le db).
  apply walk_elim; clear items ta le db.
  { intros ta le db i []. }
  { intros idx key rest ta le db _ i []. }
  { intros idx key rest ta le db _ _ _ i [[=] | []]. }
  { intros idx key rest ta le db _ _ i [[=] | []]. }
  { intros idx key rest ta le db o0 v r e Hlt -> -> Hc -> Hr i.
    destruct (notify_if_exc _ _ _ _ _ _ _ _ Hr) as (Hv & Hw & Hn & _ & _ & _ & ->).
    rewrite !trace_of_triple. intros [[=] | [[= <-] | []]].
    split; [done |]. split; [done |].
    exists (ta + 1), (answer (ta + 1) key). split; [by left | done]. }
  { intros idx key rest ta le db o0 v r r' Hlt -> -> Hc -> Hr -> IH _ i.
    rewrite trace_of_triple.
    intros [[=] | Hin]. apply in_app_or in Hin as [Hin | [[=] | Hin]].
    - destruct (notify_if_alert_origin _ _ _ _ Hr Hin) as (-> & ? & ? & ?).
      split; [done |]. split; [done |].
      exists (ta + 1), (answer (ta + 1) key). split; [by left | done].
    - destruct (IH i Hin) as (? & ? & n & o & Ho & Hv).
      split; [done |]. split; [done |]. exists n, o. split; [| done].
      right. apply in_or_app. right. by right. }
  { intros idx key rest ta le db _ _ _ i [[=] | []]. }
  intros idx key rest ta le db o0 v r Hlt -> -> Hc -> Hr _ i.
  rewrite trace_of_triple. intros [[=] | Hin].
  destruct (notify_if_alert_origin _ _ _ _ Hr Hin) as (-> & ? & ? & ?).
  split; [done |]. split; [done |].
  exists (ta + 1), (answer (ta + 1) key). split; [by left | done].
Qed.

Lemma walk_alert_idx (items : list (Z * string)) (ta : Z) (le : LastError)
    (db : gmap Z string) (i : Z) :
  In (EvAlert i) (trace_of (run items ta le db)) → In i items.*1.
Proof.
  intros (_ & _ & n & o & Hin & _)%walk_alert_origin.
  by eapply walk_call_idx.
Qed.

(** What the alerting of one turn adds to the count of alerts. *)
Lemma notify_if_alert_count (v : Verdict) (idx i : Z) (db : gmap Z string) :
  alert_count i (trace_of (notify_if v cfg w req nk idx db))
  = if decide (i = idx ∧ v = RateLimited
               ∧ idx ∈ WATCH_KEYS_INDICES cfg ∧ idx ∉ nk)
    then 1%nat else 0%nat.
Proof.
  destruct (notify_if_cases cfg w req nk v idx db) as
    [(?&?&?&_&_&->) | [(?&?&?&_&_&->) | [(?&?&?&_&->)
     | [(?&?&?&_&_&->) | (?&->)]]]];
    rewrite trace_of_triple; unfold alert_count; cbn [List.filter is_alert_for];
    try (destruct (Z.eqb_spec idx i) as [-> | Hne]);
    case_decide; simpl; try reflexivity; exfalso; intuition congruence.
Qed.

(** The emitter returns at most as often as it is invoked. *)
Lemma notify_if_sent_count (v : Verdict) (idx i : Z) (db : gmap Z string) :
  (sent_count i (trace_of (notify_if v cfg w req nk idx db))
   ≤ alert_count i (trace_of (notify_if v cfg w req nk idx db)))%nat.
Proof.
  destruct (notify_if_cases cfg w req nk v idx db) as
    [(?&?&?&_&_&->) | [(?&?&?&_&_&->) | [(?&?&?&_&->)
     | [(?&?&?&_&_&->) | (?&->)]]]];
    rewrite trace_of_triple; unfold alert_count, sent_count;
    cbn [List.filter is_alert_for is_sent_for];
    destruct (idx =? i); simpl; lia.
Qed.

Lemma walk_sent_le_alert (items : list (Z * string)) (ta : Z) (le : LastError)
    (db : gmap Z string) (i : Z) :
  (sent_count i (trace_of (run items ta le db))
   ≤ alert_count i (trace_of (run items ta le db)))%nat.
Proof.
  pattern items, ta, le, db, (run items ta le db).
  apply walk_elim; clear items ta le db;
    try (intros; rewrite trace_of_triple; unfold sent_count, alert_count;
         simpl; lia).
  - intros idx key rest ta le db o0 v r e Hlt -> -> Hc -> Hr.
    rewrite trace_of_triple.
    change (EvCall idx (ta + 1) (answer (ta + 1) key) :: ?t)
      with ([EvCall idx (ta + 1) (answer (ta + 1) key)] ++ t).
    rewrite sent_count_app, alert_count_app.
    pose proof (notify_if_sent_count (classify (answer (ta + 1) key)) idx i db).
    change (sent_count i [EvCall _ _ _]) with 0%nat.
    change (alert_count i [EvCall _ _ _]) with 0%nat. lia.
  - intros idx key rest ta le db o0 v r r' Hlt -> -> Hc -> Hr -> IH _.
    rewrite trace_of_triple.
    change (EvCall idx (ta + 1) (answer (ta + 1) key) :: ?t)
      with ([EvCall idx (ta + 1) (answer (ta + 1) key)] ++ t).
    change (EvSleep ?d :: ?t) with ([EvSleep d] ++ t).
    rewrite !sent_count_app, !alert_count_app.
    pose proof (notify_if_sent_count (classify (answer (ta + 1) key)) idx i db).
    change (sent_count i [EvCall _ _ _]) with 0%nat.
    change (alert_count i [EvCall _ _ _]) with 0%nat.
    change (sent_count i [EvSleep _]) with 0%nat.
    change (alert_count i [EvSleep _]) with 0%nat. lia.
  - intros idx key rest ta le db o0 v r Hlt -> -> Hc -> Hr _.
    rewrite trace_of_triple.
    change (EvCall idx (ta + 1) (answer (ta + 1) key) :: ?t)
      with ([EvCall idx (ta + 1) (answer (ta + 1) key)] ++ t).
    rewrite sent_count_app, alert_count_app.
    pose proof (notify_if_sent_count (classify (answer (ta + 1) key)) idx i db).
    change (sent_count i [EvCall _ _ _]) with 0%nat.
    change (alert_count i [EvCall _ _ _]) with 0%nat. lia.
Qed.

(** Within one walk over distinct indices the emitter is invoked at most
    once per index, and exactly once for a watched, not yet notified
    index whose call came back rate-limited. *)
Lemma walk_alert_count (items : list (Z * string)) (ta : Z) (le : LastError)
    (db : gmap Z string) (i : Z) :
  NoDup items.*1 →
  (alert_count i (trace_of (run items ta le db)) ≤ 1)%nat
  ∧ (i ∈ WATCH_KEYS_INDICES cfg → i ∉ nk →
     ∀ n o, In (EvCall i n o) (trace_of (run items ta le db)) →
            classify o = RateLimited →
            alert_count i (trace_of (run items ta le db)) = 1%nat).
Proof.
  revert i. pattern items, ta, le, db, (run items ta le db).
  apply walk_elim; clear items ta le db.
  - intros ta le db i _.
    split; [unfold trace_of, alert_count; simpl; lia | intros _ _ n o []].
  - intros idx key rest ta le db _ i _.
    split; [unfold trace_of, alert_count; simpl; lia | intros _ _ n o []].
  - intros idx key rest ta le db _ Hv _ i _.
    split; [unfold trace_of, alert_count; simpl; lia |].
    intros _ _ n o [[= <- <- <-] | []]. congruence.
  - intros idx key rest ta le db _ Hv i _.
    split; [unfold trace_of, alert_count; simpl; lia |].
    intros _ _ n o [[= <- <- <-] | []]. congruence.
  - intros idx key rest ta le db o0 v r e Hlt -> -> Hc -> Hr i Hnd.
    rewrite trace_of_triple.
    change (EvCall idx (ta + 1) (answer (ta + 1) key) :: ?t)
      with ([EvCall idx (ta + 1) (answer (ta + 1) key)] ++ t).
    rewrite alert_count_app, notify_if_alert_count.
    change (alert_count i [EvCall _ _ _]) with 0%nat.
    split; [case_decide; lia |].
    intros Hw Hn n o Hin Hrl.
    rewrite in_app_iff in Hin. destruct Hin as [[[= <- <- <-] | []] | Hin];
      [| by apply notify_if_no_call in Hin].
    rewrite decide_True; [done | tauto].
  - intros idx key rest ta le db o0 v r r' Hlt -> -> Hc -> Hr -> IH _ i Hnd.
    rewrite fmap_cons, NoDup_cons in Hnd. destruct Hnd as [Hidx Hnd].
    destruct (IH i Hnd) as [IH1 IH2]. clear IH.
    rewrite trace_of_triple.
    change (EvCall idx (ta + 1) (answer (ta + 1) key) :: ?t)
      with ([EvCall idx (ta + 1) (answer (ta + 1) key)] ++ t).
    change (EvSleep ?d :: ?t) with ([EvSleep d] ++ t).
    rewrite !alert_count_app, notify_if_alert_count.
    change (alert_count i [EvCall _ _ _]) with 0%nat.
    change (alert_count i [EvSleep _]) with 0%nat.
    set (T' := trace_of (run rest _ _ _)) in *.
    assert (i = idx → alert_count i T' = 0%nat) as Hzero.
    { intros ->. apply alert_count_zero. intros Hb.
      apply Hidx, list_elem_of_In. by eapply walk_alert_idx. }
    split.
    + case_decide as Hd; [| lia]. destruct Hd as [-> _]. rewrite Hzero; [lia | done].
    + intros Hw Hn n o Hin Hrl.
      rewrite !in_app_iff in Hin. destruct Hin as [[[= <- <- <-] | []] | [Hin | Hin]].
      * rewrite Hzero by done. rewrite decide_True; [done | tauto].
      * by apply notify_if_no_call in Hin.
      * destruct Hin as [[[=] | []] | Hin].
        rewrite (IH2 Hw Hn n o Hin Hrl).
        rewrite decide_False; [done |]. intros [-> _].
        apply Hidx, list_elem_of_In. by eapply walk_call_idx.
  - intros idx key rest ta le db _ Hv _ i _.
    split; [unfold trace_of, alert_count; simpl; lia |].
    intros _ _ n o [[= <- <- <-] | []]. congruence.
  - intros idx key rest ta le db o0 v r Hlt -> -> Hc -> Hr _ i Hnd.
    rewrite trace_of_triple.
    change (EvCall idx (ta + 1) (answer (ta + 1) key) :: ?t)
      with ([EvCall idx (ta + 1) (answer (ta + 1) key)] ++ t).
    rewrite alert_count_app, notify_if_alert_count.
    change (alert_count i [EvCall _ _ _]) with 0%nat.
    split; [case_decide; lia |].
    intros Hw Hn n o Hin Hrl.
    rewrite in_app_iff in Hin. destruct Hin as [[[= <- <- <-] | []] | Hin];
      [| by apply notify_if_no_call in Hin].
    rewrite decide_True; [done | tauto].
Qed.

End WalkAlerts.

(* ===================================================================== *)
(** ** How the emitter's outcome bears on the walk *)
(* ===================================================================== *)

Section WalkEmitter.

Variable cfg : Config.
Variable w : World.
Variable req : GenerateRequest.
Variable nk : gset Z.

Local Abbreviation MAX := (MAX_TOTAL_RETRIES_PER_PROMPT cfg).
Local Abbreviation answer n key :=
  (upstream w n key (prompt req) (metadata req)).
Local Abbreviation run items ta le db := (walk cfg w req nk items ta le db).

(** When the emitter returns false, the pause of the attempt follows at
    once, after which the walk goes on as a walk of its own over the rest
    of the pool; this for a walk whose attempts stay below the one at
    which the power of the backoff overflows. *)
Lemma walk_failed_alert (items : list (Z * string)) (ta : Z) (le : LastError)
    (db : gmap Z string) (i : Z) :
  Z.min MAX (ta + Z.of_nat (length items)) ≤ 1751 →
  In (EvSent i false) (trace_of (run items ta le db)) →
  ∃ pre post n,
    trace_of (run items ta le db)
    = pre ++ EvSent i false :: EvSleep (backoff cfg n) :: post
    ∧ (∃ o, In (EvCall i n o) pre ∧ classify o = RateLimited)
    ∧ ((post = [] ∧ (MAX ≤ n ∨ Z.of_nat (length items) ≤ n - ta))
       ∨ ∃ i' o' tl, post = EvCall i' (n + 1) o' :: tl).
Proof.
  revert i. pattern items, ta, le, db, (run items ta le db).
  apply walk_elim; clear items ta le db.
  { intros ta le db i _ []. }
  { intros idx key rest ta le db _ i _ []. }
  { intros idx key rest ta le db _ _ _ i _ [[=] | []]. }
  { intros idx key rest ta le db _ _ i _ [[=] | []]. }
  { intros idx key rest ta le db o0 v r e Hlt -> -> Hc -> Hr i _.
    destruct (notify_if_exc _ _ _ _ _ _ _ _ Hr) as (_&_&_&_&_&_&->).
    rewrite !trace_of_triple. intros [[=] | [[=] | []]]. }
  2: { intros idx key rest ta le db _ _ _ i _ [[=] | []]. }
  2: { intros idx key rest ta le db o0 v r Hlt -> -> Hc -> Hr Hp i Hb.
       unfold pause_raises, pow_overflows in Hp.
       apply andb_true_iff in Hp as [_ Hp%Z.leb_le].
       cbn [length] in Hb. lia. }
  intros idx key rest ta le db o0 v r r' Hlt -> -> Hc -> Hr -> IH _ i Hlow.
  assert (Z.min MAX (ta + 1 + Z.of_nat (length rest)) ≤ 1751) as Hb'
    by (cbn [length] in Hlow; lia).
  rewrite trace_of_triple.
  intros [[=] | Hin]. apply in_app_or in Hin as [Hin | [[=] | Hin]].
  - set (T' := trace_of (run rest _ _ _)) in *.
    assert (post_ok : (T' = [] ∧ (MAX ≤ ta + 1
                                  ∨ Z.of_nat (length ((idx, key) :: rest))
                                    ≤ ta + 1 - ta))
                      ∨ ∃ i' o' tl, T' = EvCall i' (ta + 1 + 1) o' :: tl).
    { destruct (walk_first_call cfg w req nk rest (ta + 1)
                  (error_after idx (answer (ta + 1) key))
                  (ledger_of (notify_if (classify (answer (ta + 1) key))
                                cfg w req nk idx db)))
        as [[Hnil [-> | Hb]] | Hcons]; [left | left | by right];
        (split; [done |]); [right; simpl; lia | by left]. }
    destruct (notify_if_val _ _ _ _ _ _ _ Hr) as
      [(?&?&?&_&H) | [(Hv&?&?&_&H) | [(Hv&?&?&_&H) | (_&H)]]];
      rewrite H, trace_of_triple in Hin |- *; cbn [In] in Hin.
    + destruct Hin as [[=] | [[=] | [[=] | [[=] | []]]]].
    + destruct Hin as [[=] | [[=] | [[= <-] | []]]].
      eexists [EvCall idx (ta + 1) _; EvAlert idx; EvSmtp _ _], T', (ta + 1).
      rewrite Hv. split; [done |]. split; [| done].
      eexists. split; [by left | done].
    + destruct Hin as [[=] | [[= <-] | []]].
      eexists [EvCall idx (ta + 1) _; EvAlert idx], T', (ta + 1).
      rewrite Hv. split; [done |]. split; [| done].
      eexists. split; [by left | done].
    + destruct Hin.
  - destruct (IH i Hb' Hin) as (pre & post & n & Heq & (o & Ho & Hv) & Hpost).
    exists (EvCall idx (ta + 1) (answer (ta + 1) key)
              :: trace_of (notify_if (classify (answer (ta + 1) key))
                             cfg w req nk idx db)
              ++ EvSleep (delay_after cfg (ta + 1)
                            (classify (answer (ta + 1) key))) :: pre),
      post, n.
    split; [rewrite Heq; cbn [app]; rewrite <- app_assoc; reflexivity |].
    split.
    + exists o. split; [| done]. right. apply in_or_app. right. by right.
    + destruct Hpost as [[-> Hstop] | Hnext]; [left | by right].
      split; [done |]. cbn [length]. lia.
Qed.

(** When the emitter raises, the walk ends there with the emitter's
    exception: the invocation is the last event, no pause is taken and no
    further key is called. *)
Lemma walk_raised (items : list (Z * string)) (ta : Z) (le : LastError)
    (db : gmap Z string) (m : string) :
  result_of (run items ta le db) = Exc (ValueError m) →
  ∃ pre i n o,
    trace_of (run items ta le db) = pre ++ [EvCall i n o; EvAlert i]
    ∧ classify o = RateLimited
    ∧ alert_rejected cfg w req i = true.
Proof.
  pattern items, ta, le, db, (run items ta le db).
  apply walk_elim; clear items ta le db;
    try (intros; rewrite result_of_triple in *; discriminate).
  - intros idx key rest ta le db o0 v r e Hlt -> -> Hc -> Hr _.
    destruct (notify_if_exc _ _ _ _ _ _ _ _ Hr) as (Hv&_&_&_&Hrej&_&->).
    rewrite !trace_of_triple. by exists [], idx, (ta + 1), (answer (ta + 1) key).
  - intros idx key rest ta le db o0 v r r' Hlt -> -> Hc -> Hr -> IH _.
    rewrite result_of_triple, trace_of_triple. intros Hres.
    destruct (IH Hres) as (pre & i & n & o & -> & Hv & Hrej).
    exists (EvCall idx (ta + 1) (answer (ta + 1) key)
              :: trace_of (notify_if (classify (answer (ta + 1) key))
                             cfg w req nk idx db)
              ++ EvSleep (delay_after cfg (ta + 1)
                            (classify (answer (ta + 1) key))) :: pre),
      i, n, o.
    split; [cbn [app]; rewrite <- app_assoc; reflexivity | done].
Qed.

(** Without a usable SMTP configuration no session is opened, the
    emitter always returns false and never raises, and the table is left
    as it was. *)
Lemma walk_unready (items : list (Z * string)) (ta : Z) (le : LastError)
    (db : gmap Z string) :
  smtp_ready cfg req = false →
  ledger_of (run items ta le db) = db
  ∧ (∀ e, In e (trace_of (run items ta le db)) → is_smtp e = false)
  ∧ (∀ i b, In (EvSent i b) (trace_of (run items ta le db)) → b = false)
  ∧ (∀ m, result_of (run items ta le db) ≠ Exc (ValueError m)).
Proof.
  intros Hnr. pattern items, ta, le, db, (run items ta le db).
  apply walk_elim; clear items ta le db.
  - intros ta le db. split; [done |].
    split; [intros e [] |]. split; [intros i b [] | done].
  - intros idx key rest ta le db _. split; [done |].
    split; [intros e [] |]. split; [intros i b [] | done].
  - intros idx key rest ta le db _ _ _. split; [done |].
    split; [intros e [<- | []]; done |]. split; [intros i b [[=] | []] | done].
  - intros idx key rest ta le db _ _. split; [done |].
    split; [intros e [<- | []]; done |]. split; [intros i b [[=] | []] | done].
  - intros idx key rest ta le db o0 v r e Hlt -> -> Hc -> Hr.
    destruct (notify_if_exc _ _ _ _ _ _ _ _ Hr) as (_&_&_&?&_). congruence.
  - intros idx key rest ta le db o0 v r r' Hlt -> -> Hc -> Hr -> IH _.
    rewrite ledger_of_triple, trace_of_triple, result_of_triple.
    destruct (notify_if_val _ _ _ _ _ _ _ Hr) as
      [(_&_&_&?&_) | [(_&_&_&?&_) | [(_&_&_&_&H) | (_&H)]]];
      try congruence;
      rewrite H, ?ledger_of_triple, ?trace_of_triple in IH |- *;
      destruct IH as (IH1 & IH2 & IH3 & IH4); (split; [done |]);
      cbn [app In]; (split; [| split; [| done]]).
    + intros e [<- | [<- | [<- | [<- | Hin]]]]; auto.
    + intros i b [[=] | [[=] | [[= _ <-] | [[=] | Hin]]]]; eauto.
    + intros e [<- | [<- | Hin]]; auto.
    + intros i b [[=] | [[=] | Hin]]; eauto.
  - intros idx key rest ta le db _ _ _. split; [done |].
    split; [intros e [<- | []]; done |]. split; [intros i b [[=] | []] | done].
  - intros idx key rest ta le db o0 v r Hlt -> -> Hc -> Hr _.
    rewrite ledger_of_triple, trace_of_triple, result_of_triple.
    destruct (notify_if_val _ _ _ _ _ _ _ Hr) as
      [(_&_&_&?&_) | [(_&_&_&?&_) | [(_&_&_&_&H) | (_&H)]]];
      try congruence;
      rewrite H, ?ledger_of_triple, ?trace_of_triple;
      (split; [done |]); cbn [app In]; (split; [| split; [| done]]).
    + intros e [<- | [<- | [<- | []]]]; auto.
    + intros i b [[=] | [[=] | [[= _ <-] | []]]]; eauto.
    + intros e [<- | []]; auto.
    + intros i b [[=] | []]; eauto.
Qed.

(** Without a usable SMTP configuration every invocation of the emitter
    returns, and returns false. *)
Lemma walk_unready_sent (items : list (Z * string)) (ta : Z) (le : LastError)
    (db : gmap Z string) (i : Z) :
  smtp_ready cfg req = false →
  In (EvAlert i) (trace_of (run items ta le db)) →
  In (EvSent i false) (trace_of (run items ta le db)).
Proof.
  intros Hnr. pattern items, ta, le, db, (run items ta le db).
  apply walk_elim; clear items ta le db.
  - intros ta le db [].
  - intros idx key rest ta le db _ [].
  - intros idx key rest ta le db _ _ _ [[=] | []].
  - intros idx key rest ta le db _ _ [[=] | []].
  - intros idx key rest ta le db o0 v r e Hlt -> -> Hc -> Hr.
    destruct (notify_if_exc _ _ _ _ _ _ _ _ Hr) as (_&_&_&?&_). congruence.
  - intros idx key rest ta le db o0 v r r' Hlt -> -> Hc -> Hr -> IH _.
    rewrite trace_of_triple.
    intros [[=] | Hin]. right. apply in_or_app.
    apply in_app_or in Hin as [Hin | [[=] | Hin]]; [left | right; right; auto].
    destruct (notify_if_val _ _ _ _ _ _ _ Hr) as
      [(_&_&_&?&_) | [(_&_&_&?&_) | [(_&_&_&_&H) | (_&H)]]];
      try congruence; rewrite H, trace_of_triple in Hin |- *.
    + destruct Hin as [[= <-] | [[=] | []]]. right. by left.
    + destruct Hin.
  - intros idx key rest ta le db _ _ _ [[=] | []].
  - intros idx key rest ta le db o0 v r Hlt -> -> Hc -> Hr _.
    rewrite trace_of_triple.
    intros [[=] | Hin]. right.
    destruct (notify_if_val _ _ _ _ _ _ _ Hr) as
      [(_&_&_&?&_) | [(_&_&_&?&_) | [(_&_&_&_&H) | (_&H)]]];
      try congruence; rewrite H, trace_of_triple in Hin |- *.
    + destruct Hin as [[= <-] | [[=] | []]]. right. by left.
    + destruct Hin.
Qed.

(** Events that are neither calls nor pauses are invisible to
    [sleep_before_from] and to [outcome_of_attempt]. *)
Lemma sleep_before_from_skip (tr t : list Event) (last : option Q) (n : Z) :
  walk_view tr = [] →
  sleep_before_from last n (tr ++ t) = sleep_before_from last n t.
Proof.
  induction tr as [| e tr IH]; [done |].
  unfold walk_view. cbn [List.filter app].
  destruct e; cbn [is_call is_sleep orb]; try discriminate; intros H;
    cbn [sleep_before_from]; by apply IH.
Qed.

Lemma outcome_of_attempt_skip (tr t : list Event) (n : Z) :
  walk_view tr = [] →
  outcome_of_attempt n (tr ++ t) = outcome_of_attempt n t.
Proof.
  induction tr as [| e tr IH]; [done |].
  unfold walk_view. cbn [List.filter app].
  destruct e; cbn [is_call is_sleep orb]; try discriminate; intros H;
    cbn [outcome_of_attempt]; by apply IH.
Qed.

(** Every attempt after the first of a walk is preceded by the pause
    that the verdict of the attempt before it calls for. *)
Lemma walk_sleep_before (items : list (Z * string)) (ta : Z) (le : LastError)
    (db : gmap Z string) (last : option Q) (n j : Z) (o' : RawOutcome) :
  ta + 2 ≤ n →
  In (EvCall j n o') (trace_of (run items ta le db)) →
  ∃ o, outcome_of_attempt (n - 1) (trace_of (run items ta le db)) = Some o
       ∧ continuing (classify o) = true
       ∧ sleep_before_from last n (trace_of (run items ta le db))
         = Some (delay_after cfg (n - 1) (classify o)).
Proof.
  revert last n j o'. pattern items, ta, le, db, (run items ta le db).
  apply walk_elim; clear items ta le db.
  { intros ta le db last n j o' _ []. }
  { intros idx key rest ta le db _ last n j o' _ []. }
  { intros idx key rest ta le db _ _ _ last n j o' Hn [[= _ <- _] | []]. lia. }
  { intros idx key rest ta le db _ _ last n j o' Hn [[= _ <- _] | []]. lia. }
  { intros idx key rest ta le db o0 v r e Hlt -> -> Hc -> Hr last n j o' Hn.
    rewrite trace_of_triple.
    intros [[= _ <- _] | Hin]; [lia | by apply notify_if_no_call in Hin]. }
  2: { intros idx key rest ta le db _ _ _ last n j o' Hn [[= _ <- _] | []].
       lia. }
  2: { intros idx key rest ta le db o0 v r Hlt -> -> Hc -> Hr _ last n j o' Hn.
       rewrite trace_of_triple.
       intros [[= _ <- _] | Hin]; [lia | by apply notify_if_no_call in Hin]. }
  intros idx key rest ta le db o0 v r r' Hlt -> -> Hc -> Hr -> IH _
    last n j o' Hn.
  rewrite trace_of_triple. set (T' := trace_of (run rest _ _ _)) in *.
  intros [[= _ <- _] | Hin]; [lia |].
  apply in_app_or in Hin as [Hin | [[=] | Hin]];
    [by apply notify_if_no_call in Hin |].
  cbn [sleep_before_from outcome_of_attempt].
  rewrite (proj2 (Z.eqb_neq (ta + 1) n)) by lia.
  rewrite sleep_before_from_skip, outcome_of_attempt_skip
    by apply notify_if_view.
  cbn [sleep_before_from outcome_of_attempt].
  destruct (Z.eqb_spec (ta + 1) (n - 1)) as [Heq | Hne].
  - eexists. split; [done |]. split; [done |]. rewrite <- Heq.
    assert (first : (T' = [] ∧ (rest = [] ∨ MAX ≤ ta + 1))
                    ∨ ∃ i o tl, T' = EvCall i (ta + 1 + 1) o :: tl)
      by apply walk_first_call.
    destruct first as [[Hnil _] | (i & o & tl & Hcons)].
    + rewrite Hnil in Hin. destruct Hin.
    + rewrite Hcons. cbn [sleep_before_from].
      by rewrite (proj2 (Z.eqb_eq (ta + 1 + 1) n)) by lia.
  - by apply (IH _ n j o'); [lia |].
Qed.

End WalkEmitter.

(** Whether the alerting of a turn raises depends on the verdict, the
    watch set, the snapshot, the configuration and the header check, and
    on nothing else. *)
Lemma notify_if_result (cfg : Config) (w : World) (req : GenerateRequest)
    (nk : gset Z) (v : Verdict) (idx : Z) (db : gmap Z string) :
  result_of (notify_if v cfg w req nk idx db)
  = if bool_decide (v = RateLimited ∧ idx ∈ WATCH_KEYS_INDICES cfg ∧ idx ∉ nk)
       && smtp_ready cfg req && alert_rejected cfg w req idx
    then Exc header_error else Val tt.
Proof.
  destruct (notify_if_cases cfg w req nk v idx db) as
    [(?&?&?&Hs&Ha&->) | [(?&?&?&Hs&Ha&->) | [(?&?&?&Hs&->)
     | [(?&?&?&Hs&Ha&->) | (Hno&->)]]]];
    rewrite result_of_triple, ?Hs, ?Ha, ?andb_false_r; try done.
  - by rewrite bool_decide_eq_true_2.
  - rewrite bool_decide_eq_false_2; [done | tauto].
Qed.

(** The result of a walk, its calls and its pauses do not depend on what
    the SMTP session does, on the clock, or on what the table holds: two
    worlds with the same upstream answers and the same header check walk
    alike. *)
Lemma walk_view_independent (cfg : Config) (req : GenerateRequest)
    (w1 w2 : World) (nk : gset Z) (items : list (Z * string)) :
  (∀ n key p m, upstream w1 n key p m = upstream w2 n key p m) →
  (∀ name value, rejects_header w1 name value = rejects_header w2 name value) →
  ∀ ta le db1 db2,
    result_of (walk cfg w1 req nk items ta le db1)
    = result_of (walk cfg w2 req nk items ta le db2)
    ∧ walk_view (trace_of (walk cfg w1 req nk items ta le db1))
      = walk_view (trace_of (walk cfg w2 req nk items ta le db2)).
Proof.
  intros Hup Hrej.
  assert (Hres : ∀ v idx db1 db2,
             result_of (notify_if v cfg w1 req nk idx db1)
             = result_of (notify_if v cfg w2 req nk idx db2)).
  { intros v idx db1 db2. rewrite !notify_if_result.
    unfold alert_rejected. by rewrite !Hrej. }
  induction items as [| [idx key] rest IH]; intros ta le db1 db2.
  - done.
  - rewrite !walk_cons. cbv zeta. rewrite Hup. destruct (_ <=? ta); [done |].
    destruct (classify _) eqn:Hv; try done;
      rewrite (Hres _ idx db1 db2);
      destruct (result_of (notify_if _ cfg w2 req nk idx db2));
      try destruct (pause_raises _ _);
      rewrite !trace_of_triple, ?result_of_triple;
      change (EvCall ?i ?n ?o :: ?t) with ([EvCall i n o] ++ t);
      change (EvSleep ?d :: ?t) with ([EvSleep d] ++ t);
      rewrite !walk_view_app, !notify_if_view;
      try done;
      match goal with
      | |- context [walk cfg w1 req nk rest ?a ?b ?c] =>
          match goal with
          | |- context [walk cfg w2 req nk rest a b ?d] =>
              destruct (IH a b c d) as [-> ->]
          end
      end; done.
Qed.

(* ===================================================================== *)
(** ** The pool as [enumerate] lists it *)
(* ===================================================================== *)

Lemma enumerate_lookup {A} (l : list A) (s : Z) (k : nat) (i : Z) (x : A) :
  enumerate s l !! k = Some (i, x) ↔ i = s + Z.of_nat k ∧ l !! k = Some x.
Proof.
  revert s k. induction l as [| y l IH]; intros s k; simpl.
  - rewrite !lookup_nil. split; [intros [=] | intros [_ [=]]].
  - destruct k as [| k]; simpl.
    + split; [intros [= <- <-]; split; [lia | done] | intros [-> [= ->]]].
      f_equal. f_equal. lia.
    + rewrite IH. split; intros [-> H]; (split; [lia | done]).
Qed.

Lemma enumerate_fst_In {A} (l : list A) (s i : Z) :
  In i (enumerate s l).*1 → s ≤ i < s + Z.of_nat (length l).
Proof.
  revert s. induction l as [| y l IH]; intros s; simpl; [done |].
  intros [<- | H]; [lia |]. apply IH in H. lia.
Qed.

Lemma enumerate_NoDup {A} (l : list A) (s : Z) : NoDup (enumerate s l).*1.
Proof.
  revert s. induction l as [| y l IH]; intros s; simpl.
  - constructor.
  - constructor; [| apply IH].
    intros H%list_elem_of_In%enumerate_fst_In. lia.
Qed.

Lemma enumerate_length {A} (l : list A) (s : Z) :
  length (enumerate s l) = length l.
Proof. revert s. induction l; intros s; simpl; [done | by f_equal]. Qed.

(* ===================================================================== *)
(** ** The handler as a walk over the enumerated pool *)
(* ===================================================================== *)

Lemma generate_run (cfg : Config) (w : World) (req : GenerateRequest)
    (db : gmap Z string) :
  generate cfg w req db =
  match GEMINI_KEYS cfg with
  | [] => (NotConfigured, db, [])
  | _ => walk cfg w req (dom db) (enumerate 1 (GEMINI_KEYS cfg)) 0 ErrNone db
  end.
Proof.
  unfold generate. destruct (GEMINI_KEYS cfg) as [| k ks]; [done |].
  unfold bind, get_notified_keys.
  by destruct (walk _ _ _ _ _ _ _ _) as [[r db'] t].
Qed.

Lemma generate_trace (cfg : Config) (w : World) (req : GenerateRequest)
    (db : gmap Z string) :
  trace_of (generate cfg w req db)
  = trace_of (walk cfg w req (dom db) (enumerate 1 (GEMINI_KEYS cfg)) 0 ErrNone db).
Proof. rewrite generate_run. by destruct (GEMINI_KEYS cfg). Qed.

Lemma generate_ledger (cfg : Config) (w : World) (req : GenerateRequest)
    (db : gmap Z string) :
  ledger_of (generate cfg w req db)
  = ledger_of (walk cfg w req (dom db) (enumerate 1 (GEMINI_KEYS cfg)) 0 ErrNone db).
Proof. rewrite generate_run. by destruct (GEMINI_KEYS cfg). Qed.

Lemma generate_result (cfg : Config) (w : World) (req : GenerateRequest)
    (db : gmap Z string) :
  GEMINI_KEYS cfg ≠ [] →
  result_of (generate cfg w req db)
  = result_of (walk cfg w req (dom db) (enumerate 1 (GEMINI_KEYS cfg)) 0 ErrNone db).
Proof. intros H. rewrite generate_run. by destruct (GEMINI_KEYS cfg). Qed.

(** In a request, attempt number and key index coincide: attempt [n] is
    the call against the [n]-th key of the pool. *)
Lemma generate_calls (cfg : Config) (w : World) (req : GenerateRequest)
    (db : gmap Z string) (i n : Z) (o : RawOutcome) :
  In (EvCall i n o) (trace_of (generate cfg w req db)) →
  i = n ∧ 1 ≤ n ≤ MAX_TOTAL_RETRIES_PER_PROMPT cfg
  ∧ n ≤ Z.of_nat (length (GEMINI_KEYS cfg))
  ∧ ∃ key, GEMINI_KEYS cfg !! Z.to_nat (n - 1) = Some key
           ∧ o = upstream w n key (prompt req) (metadata req).
Proof.
  rewrite generate_trace. intros (Hn & key & Hk & ->)%walk_calls.
  apply enumerate_lookup in Hk as [-> Hk].
  replace (Z.to_nat (n - 0 - 1)) with (Z.to_nat (n - 1)) in * by lia.
  apply lookup_lt_Some in Hk as Hlen.
  split; [lia |]. split; [lia |]. split; [lia |]. by exists key.
Qed.

Lemma generate_keys_nonempty (cfg : Config) (w : World) (req : GenerateRequest)
    (db : gmap Z string) (e : Event) :
  In e (trace_of (generate cfg w req db)) → GEMINI_KEYS cfg ≠ [].
Proof.
  rewrite generate_run. destruct (GEMINI_KEYS cfg); [intros [] | done].
Qed.

(* ===================================================================== *)
(** ** Classification of an upstream response *)
(* ===================================================================== *)

Lemma classify_other_failure (s : Z) (p : Payload) :
  classify (Response s p) = OtherFailure ↔
  ¬ 200 ≤ s < 300 ∧ s ≠ 429 ∧ s ≠ 401 ∧ s ≠ 403 ∧ ¬ 500 ≤ s < 600
  ∧ ¬ HasKeyword p.
Proof.
  unfold classify.
  destruct (Z.leb_spec 200 s), (Z.ltb_spec s 300); cbn [andb];
    try (split; [discriminate | lia]);
    (destruct (is_rate_limit s p) eqn:Hrl;
     [ apply is_rate_limit_spec in Hrl; split; [discriminate | tauto]
     | apply is_rate_limit_false in Hrl ]);
    destruct (Z.eqb_spec s 401), (Z.eqb_spec s 403); cbn [orb];
    try (split; [discriminate | lia]);
    destruct (Z.leb_spec 500 s), (Z.ltb_spec s 600); cbn [andb];
    try (split; [discriminate | lia]);
    (split; [intros _ | done]); repeat split; tauto || lia.
Qed.

(** C1, as the code has it.  A status in [200,300) is [Success]; status 429
    is [RateLimited]; for every other status the serialised body is
    searched first, case-insensitively, for "ratelimit", "rate limit" and
    "quota", and a hit makes the response [RateLimited] whatever the status,
    401, 403 and 5xx included; without a hit, 401 and 403 are [AuthFailure],
    [500,600) is [ServerError], and anything else is [OtherFailure].  The code
    agrees with the classifier of the specification except on responses
    with status 401, 403 or 5xx whose body holds a keyword. *)
Theorem classification_precedence (status : Z) (payload : Payload) :
  let v := classify (Response status payload) in
  (200 ≤ status < 300 → v = Success)
  ∧ (status = 429 → v = RateLimited)
  ∧ (¬ 200 ≤ status < 300 → HasKeyword payload → v = RateLimited)
  ∧ (status = 401 ∨ status = 403 → ¬ HasKeyword payload → v = AuthFailure)
  ∧ (500 ≤ status < 600 → ¬ HasKeyword payload → v = ServerError)
  ∧ (¬ 200 ≤ status < 300 → status ≠ 429 → status ≠ 401 → status ≠ 403 →
     ¬ 500 ≤ status < 600 → ¬ HasKeyword payload → v = OtherFailure)
  ∧ (v = spec_classify (Response status payload)
     ∨ ((status = 401 ∨ status = 403 ∨ 500 ≤ status < 600)
        ∧ HasKeyword payload)).
Proof.
  cbv zeta.
  assert (Hok : 200 ≤ status < 300 → classify (Response status payload) = Success).
  { intros H. apply classify_success. eauto. }
  assert (Hrl : ¬ 200 ≤ status < 300 → is_rate_limit status payload = true →
                classify (Response status payload) = RateLimited).
  { intros H1 H2. apply classify_rate_limited. eauto. }
  assert (Hno : ¬ 200 ≤ status < 300 → ¬ HasKeyword payload → status ≠ 429 →
                classify (Response status payload)
                = if (status =? 401) || (status =? 403) then AuthFailure
                  else if (500 <=? status) && (status <? 600) then ServerError
                  else OtherFailure).
  { intros H1 H2 H3. unfold classify.
    rewrite (proj2 (is_rate_limit_false status payload)) by done.
    destruct (Z.leb_spec 200 status), (Z.ltb_spec status 300); cbn [andb];
      done || lia. }
  split; [done |].
  split; [intros ->; apply Hrl; [lia | done] |].
  split; [intros H1 H2; apply Hrl; [done | apply is_rate_limit_spec; by right] |].
  split.
  { intros H1 H2. rewrite Hno by (done || lia).
    destruct H1 as [-> | ->]; done. }
  split.
  { intros H1 H2. rewrite Hno by (done || lia).
    destruct (Z.eqb_spec status 401), (Z.eqb_spec status 403); try lia.
    destruct (Z.leb_spec 500 status), (Z.ltb_spec status 600); done || lia. }
  split.
  { intros H1 H2 H3 H4 H5 H6. by apply classify_other_failure. }
  unfold classify, spec_classify.
  destruct ((200 <=? status) && (status <? 300)); [by left |].
  destruct (is_rate_limit status payload) eqn:Hk.
  - apply is_rate_limit_spec in Hk as [-> | Hk]; [by left |].
    destruct (Z.eqb_spec status 429); [by left |].
    destruct (Z.eqb_spec status 401); [right; split; [by left | done] |].
    destruct (Z.eqb_spec status 403);
      [right; split; [by right; left | done] |]. cbn [orb].
    destruct (Z.leb_spec 500 status), (Z.ltb_spec status 600); cbn [andb];
      try (right; split; [right; right; lia | done]);
      left; destruct Hk as [Hk | [Hk | Hk]];
      apply TextFacts.str_in_spec in Hk; unfold body_str in Hk;
      rewrite Hk; by rewrite ?orb_true_r.
  - apply is_rate_limit_false in Hk as [Hne Hk]. left.
    rewrite (proj2 (Z.eqb_neq status 429)) by done.
    destruct ((status =? 401) || (status =? 403)); [done |].
    destruct ((500 <=? status) && (status <? 600)); [done |].
    unfold HasKeyword, body_str in Hk. rewrite <- !TextFacts.str_in_spec in Hk.
    destruct (Text.str_in "ratelimit" _); [tauto |].
    destruct (Text.str_in "rate limit" _); [tauto |].
    destruct (Text.str_in "quota" _); [tauto | done].
Qed.

(** At status 403 with a body without keyword the verdict is
    [AuthFailure]; at status 404 with the same body it is [OtherFailure]. *)
Lemma classification_precedence_witness :
  classify (Response 403 (PyOther "Forbidden")) = AuthFailure
  ∧ classify (Response 404 (PyOther "Forbidden")) = OtherFailure.
Proof.
  assert (Hk : ¬ HasKeyword (PyOther "Forbidden")).
  { unfold HasKeyword. rewrite <- !TextFacts.str_in_spec. vm_compute.
    intros [H | [H | H]]; discriminate. }
  split.
  - apply (classification_precedence 403 (PyOther "Forbidden")); [by right | done].
  - apply (classification_precedence 404 (PyOther "Forbidden")); lia || done.
Defined.

(** C1, as stated, fails: a response with status 403 whose body mentions a
    quota is not an [AuthFailure] but [RateLimited], and a 503 whose body
    mentions a rate limit is not a [ServerError] but [RateLimited]; the
    specification's classifier says otherwise on both. *)
Lemma auth_and_server_statuses_are_scanned :
  classify Scenario.forbidden_quota ≠ AuthFailure
  ∧ classify Scenario.forbidden_quota = RateLimited
  ∧ spec_classify Scenario.forbidden_quota = AuthFailure
  ∧ classify Scenario.unavailable_rate ≠ ServerError
  ∧ classify Scenario.unavailable_rate = RateLimited
  ∧ spec_classify Scenario.unavailable_rate = ServerError.
Proof. vm_compute. repeat split; discriminate. Qed.

(* ===================================================================== *)
(** ** Alerts and the notification table *)
(* ===================================================================== *)

Lemma generate_alert_origin (cfg : Config) (w : World) (req : GenerateRequest)
    (db : gmap Z string) (i : Z) :
  In (EvAlert i) (trace_of (generate cfg w req db)) →
  i ∈ WATCH_KEYS_INDICES cfg ∧ (i ∉ dom db)
  ∧ ∃ n o, In (EvCall i n o) (trace_of (generate cfg w req db))
           ∧ classify o = RateLimited.
Proof. rewrite generate_trace. apply walk_alert_origin. Qed.

(** A request never alerts for an index the table already holds. *)
Lemma generate_notified_no_alert (cfg : Config) (w : World)
    (req : GenerateRequest) (db : gmap Z string) (idx : Z) :
  idx ∈ dom db → alert_count idx (trace_of (generate cfg w req db)) = 0%nat.
Proof.
  intros Hin. apply alert_count_zero. intros Hb.
  by apply generate_alert_origin in Hb as (_ & Hn & _).
Qed.

(** The table grows exactly by the delivered alerts of the request. *)
Lemma generate_ledger_dom (cfg : Config) (w : World) (req : GenerateRequest)
    (db : gmap Z string) (i : Z) :
  i ∈ dom (ledger_of (generate cfg w req db))
  ↔ i ∈ dom db ∨ In (EvSent i true) (trace_of (generate cfg w req db)).
Proof. rewrite generate_ledger, generate_trace. apply walk_ledger. Qed.

(** Within one request the emitter is invoked at most once per index,
    and exactly once at the first sighting of a watched index. *)
Lemma generate_alert_count (cfg : Config) (w : World) (req : GenerateRequest)
    (db : gmap Z string) (i : Z) :
  (alert_count i (trace_of (generate cfg w req db)) ≤ 1)%nat
  ∧ (i ∈ WATCH_KEYS_INDICES cfg → i ∉ dom db →
     ∀ n o, In (EvCall i n o) (trace_of (generate cfg w req db)) →
            classify o = RateLimited →
            alert_count i (trace_of (generate cfg w req db)) = 1%nat).
Proof. rewrite generate_trace. apply walk_alert_count, enumerate_NoDup. Qed.

(** Within one request the emitter returns at most once per index. *)
Lemma generate_sent_count (cfg : Config) (w : World) (req : GenerateRequest)
    (db : gmap Z string) (i : Z) :
  (sent_count i (trace_of (generate cfg w req db)) ≤ 1)%nat.
Proof.
  pose proof (proj1 (generate_alert_count cfg w req db i)) as H.
  rewrite generate_trace in *.
  pose proof (walk_sent_le_alert cfg w req (dom db)
                (enumerate 1 (GEMINI_KEYS cfg)) 0 ErrNone db i). lia.
Qed.

Lemma serve_cons_trace (cfg : Config) (w : World) (req : GenerateRequest)
    (rs : list (World * GenerateRequest)) (db : gmap Z string) :
  trace_of (serve cfg ((w, req) :: rs) db)
  = trace_of (generate cfg w req db)
    ++ trace_of (serve cfg rs (ledger_of (generate cfg w req db))).
Proof.
  cbn [serve]. unfold trace_of, ledger_of.
  destruct (generate cfg w req db) as [[r db1] t1]; simpl.
  by destruct (serve cfg rs db1) as [[l db2] t2].
Qed.

Lemma serve_cons_ledger (cfg : Config) (w : World) (req : GenerateRequest)
    (rs : list (World * GenerateRequest)) (db : gmap Z string) :
  ledger_of (serve cfg ((w, req) :: rs) db)
  = ledger_of (serve cfg rs (ledger_of (generate cfg w req db))).
Proof.
  cbn [serve]. unfold trace_of, ledger_of.
  destruct (generate cfg w req db) as [[r db1] t1]; simpl.
  by destruct (serve cfg rs db1) as [[l db2] t2].
Qed.

(** Once the table holds an index, no later request alerts for it,
    however many requests are served. *)
Lemma serve_notified_no_alert (cfg : Config)
    (rs : list (World * GenerateRequest)) (db : gmap Z string) (idx : Z) :
  idx ∈ dom db → alert_count idx (trace_of (serve cfg rs db)) = 0%nat.
Proof.
  revert db. induction rs as [| [w req] rs IH]; intros db Hin; [done |].
  rewrite serve_cons_trace, alert_count_app, generate_notified_no_alert by done.
  rewrite IH; [done |]. apply generate_ledger_dom. by left.
Qed.

(** The emitter returns at most as often as it is invoked, over any
    history. *)
Lemma serve_sent_le_alert (cfg : Config)
    (rs : list (World * GenerateRequest)) (db : gmap Z string) (idx : Z) :
  (sent_count idx (trace_of (serve cfg rs db))
   ≤ alert_count idx (trace_of (serve cfg rs db)))%nat.
Proof.
  revert db. induction rs as [| [w req] rs IH]; intros db.
  - unfold trace_of, sent_count, alert_count. simpl. lia.
  - rewrite serve_cons_trace, sent_count_app, alert_count_app.
    specialize (IH (ledger_of (generate cfg w req db))).
    rewrite generate_trace.
    pose proof (walk_sent_le_alert cfg w req (dom db)
                  (enumerate 1 (GEMINI_KEYS cfg)) 0 ErrNone db idx). lia.
Qed.

(** Over any history of requests an alert for one index is delivered at
    most once. *)
Lemma serve_delivered_once (cfg : Config)
    (rs : list (World * GenerateRequest)) (db : gmap Z string) (idx : Z) :
  (delivered_count idx (trace_of (serve cfg rs db)) ≤ 1)%nat.
Proof.
  revert db. induction rs as [| [w req] rs IH]; intros db.
  - unfold trace_of, delivered_count. simpl. lia.
  - rewrite serve_cons_trace, delivered_count_app.
    destruct (decide (delivered_count idx (trace_of (generate cfg w req db)) = 0%nat))
      as [Hd | Hd%delivered_count_pos]; [rewrite Hd; apply IH |].
    pose proof (delivered_le_sent idx
                  (trace_of (serve cfg rs (ledger_of (generate cfg w req db))))) as H1.
    pose proof (serve_sent_le_alert cfg rs
                  (ledger_of (generate cfg w req db)) idx) as H2.
    rewrite serve_notified_no_alert in H2
      by (apply generate_ledger_dom; by right).
    pose proof (delivered_le_sent idx (trace_of (generate cfg w req db))) as H3.
    pose proof (generate_sent_count cfg w req db idx) as H4.
    lia.
Qed.

(** C2.  When a request observes, for the first time, a rate-limited answer
    from a watched index (the table does not hold the index), the alert
    emitter is invoked exactly once in that request.  If the alert is
    delivered, the table holds the index afterwards, and no request served
    later, directly after or after any number of others, invokes the
    emitter for that index again.  Over any history of sequential requests,
    from any table, an alert for one index is delivered at most once. *)
Theorem alert_once_per_watched_index (cfg : Config) (w : World)
    (req : GenerateRequest) (db : gmap Z string) (idx n : Z) (o : RawOutcome) :
  idx ∈ WATCH_KEYS_INDICES cfg →
  idx ∉ dom db →
  In (EvCall idx n o) (trace_of (generate cfg w req db)) →
  classify o = RateLimited →
  alert_count idx (trace_of (generate cfg w req db)) = 1%nat
  ∧ (In (EvSent idx true) (trace_of (generate cfg w req db)) →
     idx ∈ dom (ledger_of (generate cfg w req db))
     ∧ ∀ rs, alert_count idx
               (trace_of (serve cfg rs (ledger_of (generate cfg w req db))))
             = 0%nat)
  ∧ (∀ rs db0, (delivered_count idx (trace_of (serve cfg rs db0)) ≤ 1)%nat).
Proof.
  intros Hw Hn Hcall Hrl. split.
  - by apply (proj2 (generate_alert_count cfg w req db idx) Hw Hn n o).
  - split.
    + intros Hd.
      assert (Hin : idx ∈ dom (ledger_of (generate cfg w req db)))
        by (apply generate_ledger_dom; by right).
      split; [done |]. intros rs. by apply serve_notified_no_alert.
    + intros rs db0. apply serve_delivered_once.
Qed.

(** The pool [k1, k2] with index 1 watched, an empty table, [k1] answering
    429 and the alert being delivered. *)
Lemma alert_once_per_watched_index_witness :
  alert_count 1
    (trace_of (generate Scenario.pair (Scenario.first_429 true)
                 Scenario.request ∅)) = 1%nat
  ∧ (In (EvSent 1 true)
       (trace_of (generate Scenario.pair (Scenario.first_429 true)
                    Scenario.request ∅)) →
     1 ∈ dom (ledger_of (generate Scenario.pair (Scenario.first_429 true)
                           Scenario.request ∅))
     ∧ ∀ rs, alert_count 1
               (trace_of (serve Scenario.pair rs
                            (ledger_of (generate Scenario.pair
                                          (Scenario.first_429 true)
                                          Scenario.request ∅))))
             = 0%nat)
  ∧ (∀ rs db0,
       (delivered_count 1 (trace_of (serve Scenario.pair rs db0)) ≤ 1)%nat).
Proof.
  apply (alert_once_per_watched_index Scenario.pair (Scenario.first_429 true)
           Scenario.request ∅ 1 1 Scenario.too_many).
  - change (1 ∈ ({[ 1 ]} : gset Z)). apply elem_of_singleton_2. reflexivity.
  - rewrite dom_empty_L. apply not_elem_of_empty.
  - vm_compute. left. reflexivity.
  - reflexivity.
Defined.

(* ===================================================================== *)
(** ** A single key that is always rate-limited *)
(* ===================================================================== *)

Lemma classify_429 (payload : Payload) :
  classify (Response 429 payload) = RateLimited.
Proof. reflexivity. Qed.

(** C3, as the code has it.  With the pool [k1], index 1 watched and not yet
    notified, a budget of 3 and every call answered 429, the request makes
    one call, invokes the alert emitter once, and (the mail library
    accepting the headers of the alert) ends exhausted with the rate limit
    of key 1 as last error: the loop passes over the pool once and never
    returns to a key. *)
Theorem single_key_walk (cfg : Config) (w : World) (req : GenerateRequest)
    (db : gmap Z string) (k1 : string) :
  GEMINI_KEYS cfg = [k1] →
  WATCH_KEYS_INDICES cfg = {[ 1 ]} →
  MAX_TOTAL_RETRIES_PER_PROMPT cfg = 3 →
  (∀ n key p m, ∃ payload, upstream w n key p m = Response 429 payload) →
  1 ∉ dom db →
  alert_rejected cfg w req 1 = false →
  alert_count 1 (trace_of (generate cfg w req db)) = 1%nat
  ∧ n_attempts (trace_of (generate cfg w req db)) = 1
  ∧ attempted (trace_of (generate cfg w req db)) = [1]
  ∧ result_of (generate cfg w req db) = Exhausted (ErrRateLimit 1).
Proof.
  intros Hkeys Hwatch Hmax Hup Hfresh Hrej.
  rewrite generate_run, Hkeys. cbn [enumerate].
  rewrite walk_cons, Hmax. cbn [Z.leb Z.compare]. cbv zeta.
  destruct (Hup (0 + 1) k1 (prompt req) (metadata req)) as [payload ->].
  rewrite classify_429, notify_if_result, Hrej, andb_false_r.
  change (pause_raises (0 + 1) RateLimited) with false. cbv iota.
  cbn [walk]. unfold raise.
  rewrite !trace_of_triple, !result_of_triple.
  cbn [error_after is_rate_limit Z.eqb Pos.eqb].
  change (EvCall 1 (0 + 1) ?o :: ?t) with ([EvCall 1 (0 + 1) o] ++ t).
  rewrite !alert_count_app, !n_attempts_app, !attempted_app,
    notify_if_alert_count, notify_if_attempts.
  assert (Hno : attempted (trace_of (notify_if RateLimited cfg w req (dom db) 1 db)) = []).
  { destruct (notify_if_cases cfg w req (dom db) RateLimited 1 db) as
      [(_&_&_&_&_&->) | [(_&_&_&_&_&->) | [(_&_&_&_&->)
       | [(_&_&_&_&_&->) | (_&->)]]]]; done. }
  rewrite Hno, decide_True; [done |].
  rewrite Hwatch. split; [done |]. split; [done |].
  split; [by apply elem_of_singleton | done].
Qed.

Lemma single_key_walk_witness :
  alert_count 1
    (trace_of (generate Scenario.single (Scenario.always_429 true)
                 Scenario.request ∅)) = 1%nat
  ∧ n_attempts
      (trace_of (generate Scenario.single (Scenario.always_429 true)
                   Scenario.request ∅)) = 1
  ∧ attempted
      (trace_of (generate Scenario.single (Scenario.always_429 true)
                   Scenario.request ∅)) = [1]
  ∧ result_of (generate Scenario.single (Scenario.always_429 true)
                 Scenario.request ∅) = Exhausted (ErrRateLimit 1).
Proof.
  apply (single_key_walk Scenario.single (Scenario.always_429 true)
           Scenario.request ∅ "k1").
  - reflexivity.
  - reflexivity.
  - reflexivity.
  - intros n key p m. exists (PyOther "Too Many Requests"). reflexivity.
  - rewrite dom_empty_L. apply not_elem_of_empty.
  - vm_compute. reflexivity.
Defined.

(** C3, as stated, fails: in that scenario the walk is exhausted after one
    attempt, not after three. *)
Lemma single_key_is_attempted_once_not_thrice :
  ¬ (alert_count 1
       (trace_of (generate Scenario.single (Scenario.always_429 true)
                    Scenario.request ∅)) = 1%nat
     ∧ n_attempts
         (trace_of (generate Scenario.single (Scenario.always_429 true)
                      Scenario.request ∅)) = 3
     ∧ ∃ e, result_of (generate Scenario.single (Scenario.always_429 true)
                         Scenario.request ∅) = Exhausted e).
Proof. intros (_ & H & _). vm_compute in H. discriminate. Qed.

(* ===================================================================== *)
(** ** Backoff and the retry budget *)
(* ===================================================================== *)

Lemma delay_after_backs_off (cfg : Config) (n : Z) (v : Verdict) :
  backs_off v = true →
  delay_after cfg (n - 1) v
  = (BASE_BACKOFF_SECONDS cfg * (3 # 2) ^ (n - 2))%Q.
Proof.
  intros Hv. destruct v; try discriminate; unfold delay_after, backoff;
    by replace (n - 1 - 1) with (n - 2) by lia.
Qed.

Lemma continuing_cases (v : Verdict) :
  continuing v = true → backs_off v = true ∨ v = AuthFailure.
Proof. destruct v; simpl; auto; discriminate. Qed.

(** C4, as the code has it.  Every attempt numbered [n ≥ 2] of a request is
    preceded by exactly one pause.  When the attempt before it, whichever
    key it went to, ended rate-limited, in a server error or in a transport
    error, that pause is [base * 1.5^(n-2)] seconds: the exponent is the
    number of attempts made so far minus one, and [n - 1] attempts have been
    made when the pause before attempt [n] is taken.  After an
    authentication failure the pause is the fixed 0.2 seconds. *)
Theorem backoff_before_attempt (cfg : Config) (w : World)
    (req : GenerateRequest) (db : gmap Z string) (n j : Z) (o' : RawOutcome) :
  2 ≤ n →
  In (EvCall j n o') (trace_of (generate cfg w req db)) →
  ∃ o, outcome_of_attempt (n - 1) (trace_of (generate cfg w req db)) = Some o
       ∧ (backs_off (classify o) = true ∨ classify o = AuthFailure)
       ∧ (backs_off (classify o) = true →
          sleep_before n (trace_of (generate cfg w req db))
          = Some (BASE_BACKOFF_SECONDS cfg * (3 # 2) ^ (n - 2))%Q)
       ∧ (classify o = AuthFailure →
          sleep_before n (trace_of (generate cfg w req db)) = Some (2 # 10)).
Proof.
  intros Hn. rewrite generate_trace. intros Hin.
  destruct (walk_sleep_before cfg w req (dom db)
              (enumerate 1 (GEMINI_KEYS cfg)) 0 ErrNone db None n j o')
    as (o & Ho & Hc & Hs); [lia | done |].
  exists o. split; [done |]. split; [by apply continuing_cases |].
  unfold sleep_before. rewrite Hs. split.
  - intros Hb. by rewrite delay_after_backs_off.
  - by intros ->.
Qed.

(** The pool [k1, k2] with [k1] answering 429: the pause before attempt 2
    is the base backoff, one second. *)
Lemma backoff_before_attempt_witness :
  ∃ o, outcome_of_attempt (2 - 1)
         (trace_of (generate Scenario.pair (Scenario.first_429 true)
                      Scenario.request ∅)) = Some o
       ∧ (backs_off (classify o) = true ∨ classify o = AuthFailure)
       ∧ (backs_off (classify o) = true →
          sleep_before 2
            (trace_of (generate Scenario.pair (Scenario.first_429 true)
                         Scenario.request ∅))
          = Some (BASE_BACKOFF_SECONDS Scenario.pair * (3 # 2) ^ (2 - 2))%Q)
       ∧ (classify o = AuthFailure →
          sleep_before 2
            (trace_of (generate Scenario.pair (Scenario.first_429 true)
                         Scenario.request ∅)) = Some (2 # 10)).
Proof.
  apply (backoff_before_attempt Scenario.pair (Scenario.first_429 true)
           Scenario.request ∅ 2 2 Scenario.fine).
  - lia.
  - vm_compute. do 6 right. left. reflexivity.
Defined.

(** C4, as stated, fails: with a base of one second and the first key
    answering 429, the pause slept before attempt 2 is one second, which
    is not [base * 1.5^(2-1)], a second and a half. *)
Lemma backoff_before_second_attempt_is_base :
  ∃ d, sleep_before 2
         (trace_of (generate Scenario.pair (Scenario.first_429 true)
                      Scenario.request ∅)) = Some d
       ∧ (d == 1)%Q
       ∧ ¬ (d == BASE_BACKOFF_SECONDS Scenario.pair * (3 # 2) ^ (2 - 1))%Q.
Proof.
  eexists. split; [vm_compute; reflexivity |]. split; [reflexivity |].
  vm_compute. discriminate.
Qed.

(** The number of calls of a request is bounded by the budget when
    that is not negative, and by the size of the pool. *)
Lemma generate_attempts_bound (cfg : Config) (w : World)
    (req : GenerateRequest) (db : gmap Z string) :
  n_attempts (trace_of (generate cfg w req db))
  ≤ Z.max 0 (MAX_TOTAL_RETRIES_PER_PROMPT cfg)
  ∧ n_attempts (trace_of (generate cfg w req db))
    ≤ Z.of_nat (length (GEMINI_KEYS cfg)).
Proof.
  rewrite generate_trace.
  destruct (walk_attempts_bound cfg w req (dom db)
              (enumerate 1 (GEMINI_KEYS cfg)) 0 ErrNone db) as [H1 H2].
  rewrite enumerate_length in H2. split; [| done].
  by replace (MAX_TOTAL_RETRIES_PER_PROMPT cfg)
    with (MAX_TOTAL_RETRIES_PER_PROMPT cfg - 0) by lia.
Qed.

(** C5.  Whatever the pool, the world and the table, a request makes no
    more upstream calls than the configured retry budget, and no call
    carries an attempt number above it.  The budget is a count: for a
    negative setting the loop makes no call at all. *)
Theorem attempts_within_budget (cfg : Config) (w : World)
    (req : GenerateRequest) (db : gmap Z string) :
  0 ≤ MAX_TOTAL_RETRIES_PER_PROMPT cfg →
  n_attempts (trace_of (generate cfg w req db))
  ≤ MAX_TOTAL_RETRIES_PER_PROMPT cfg
  ∧ ∀ i n o, In (EvCall i n o) (trace_of (generate cfg w req db)) →
             n ≤ MAX_TOTAL_RETRIES_PER_PROMPT cfg.
Proof.
  intros Hb. split.
  - pose proof (proj1 (generate_attempts_bound cfg w req db)). lia.
  - intros i n o Hin. apply generate_calls in Hin. lia.
Qed.

(** The pool [k1, k2] under a budget of one with every call answered 429:
    one call is made. *)
Lemma attempts_within_budget_witness :
  n_attempts
    (trace_of (generate (Scenario.config ["k1"; "k2"] ∅ 1)
                 (Scenario.always_429 true) Scenario.request ∅))
  ≤ 1
  ∧ ∀ i n o,
      In (EvCall i n o)
        (trace_of (generate (Scenario.config ["k1"; "k2"] ∅ 1)
                     (Scenario.always_429 true) Scenario.request ∅)) →
      n ≤ 1.
Proof.
  apply (attempts_within_budget (Scenario.config ["k1"; "k2"] ∅ 1)
           (Scenario.always_429 true) Scenario.request ∅).
  vm_compute. discriminate.
Defined.

(* ===================================================================== *)
(** ** How a walk ends *)
(* ===================================================================== *)

(** In a request, a successful or fatal call is the last event, and no
    key after it is attempted. *)
Lemma generate_terminal (cfg : Config) (w : World) (req : GenerateRequest)
    (db : gmap Z string) (i n : Z) (o : RawOutcome) :
  In (EvCall i n o) (trace_of (generate cfg w req db)) →
  continuing (classify o) = false →
  (∃ pre, trace_of (generate cfg w req db) = pre ++ [EvCall i n o])
  ∧ (∀ j, In j (attempted (trace_of (generate cfg w req db))) → j ≤ i)
  ∧ result_of (generate cfg w req db)
    = match classify o with
      | Success => respond i o
      | _ => Exhausted (error_after i o)
      end.
Proof.
  intros Hin Hc.
  pose proof (generate_keys_nonempty _ _ _ _ _ Hin) as Hkeys.
  pose proof (generate_calls _ _ _ _ _ _ _ Hin) as [-> _].
  rewrite generate_result by done.
  pose proof Hin as Hin'. rewrite generate_trace in Hin'.
  destruct (walk_terminal _ _ _ _ _ _ _ _ _ _ _ Hin' Hc)
    as [(pre & Hpre & Hlt) Hres].
  split; [exists pre; by rewrite generate_trace |]. split; [| done].
  intros j (m & o' & Hj)%attempted_In.
  pose proof (generate_calls _ _ _ _ _ _ _ Hj) as [-> _].
  rewrite generate_trace, Hpre in Hj.
  apply in_app_or in Hj as [Hj | [[= -> _] | []]]; [| lia].
  apply Hlt in Hj. lia.
Qed.

(** C6.  When the call against key [i] comes back with a status that is
    neither a success, nor 429, 401 or 403, nor a server error, and with no
    rate-limit keyword in its body, the request ends at once: that call is
    the last event of the trace, no key after [i] is attempted, and the
    result is the exhaustion failure carrying that status and body. *)
Theorem other_failure_stops_walk (cfg : Config) (w : World)
    (req : GenerateRequest) (db : gmap Z string) (i n s : Z) (p : Payload) :
  In (EvCall i n (Response s p)) (trace_of (generate cfg w req db)) →
  ¬ 200 ≤ s < 300 → s ≠ 429 → s ≠ 401 → s ≠ 403 → ¬ 500 ≤ s < 600 →
  ¬ HasKeyword p →
  classify (Response s p) = OtherFailure
  ∧ result_of (generate cfg w req db) = Exhausted (ErrStatus s p)
  ∧ (∃ pre, trace_of (generate cfg w req db)
            = pre ++ [EvCall i n (Response s p)])
  ∧ (∀ j, In j (attempted (trace_of (generate cfg w req db))) → j ≤ i).
Proof.
  intros Hin H2 H429 H401 H403 H5 Hk.
  assert (Hv : classify (Response s p) = OtherFailure)
    by (by apply classify_other_failure).
  destruct (generate_terminal cfg w req db i n (Response s p) Hin)
    as (Hlast & Hafter & Hres); [by rewrite Hv |].
  split; [done |]. split; [| done].
  rewrite Hres, Hv. cbn [error_after].
  by rewrite (proj2 (is_rate_limit_false s p)).
Qed.

(** The pool [k1, k2] with [k1] answering 404 "Not Found": [k2] is never
    tried. *)
Lemma other_failure_stops_walk_witness :
  classify (Response 404 (PyOther "Not Found")) = OtherFailure
  ∧ result_of (generate Scenario.pair Scenario.first_404 Scenario.request ∅)
    = Exhausted (ErrStatus 404 (PyOther "Not Found"))
  ∧ (∃ pre, trace_of (generate Scenario.pair Scenario.first_404
                        Scenario.request ∅)
            = pre ++ [EvCall 1 1 (Response 404 (PyOther "Not Found"))])
  ∧ (∀ j, In j (attempted (trace_of (generate Scenario.pair Scenario.first_404
                                       Scenario.request ∅))) → j ≤ 1).
Proof.
  apply (other_failure_stops_walk Scenario.pair Scenario.first_404
           Scenario.request ∅ 1 1 404 (PyOther "Not Found")).
  - vm_compute. left. reflexivity.
  - lia.
  - lia.
  - lia.
  - lia.
  - lia.
  - unfold HasKeyword. rewrite <- !TextFacts.str_in_spec. vm_compute.
    intros [H | [H | H]]; discriminate.
Defined.

(** C7.  With an empty key pool the request fails at once with the
    "not configured" failure, which differs from every exhaustion failure;
    nothing is called, and the table is not touched. *)
Theorem empty_pool_not_configured (cfg : Config) (w : World)
    (req : GenerateRequest) (db : gmap Z string) :
  GEMINI_KEYS cfg = [] →
  generate cfg w req db = (NotConfigured, db, [])
  ∧ n_attempts (trace_of (generate cfg w req db)) = 0
  ∧ ∀ e, NotConfigured ≠ Exhausted e.
Proof.
  intros Hkeys. rewrite generate_run, Hkeys.
  split; [done |]. split; [done |]. intros e. discriminate.
Qed.

Lemma empty_pool_not_configured_witness :
  generate Scenario.unconfigured Scenario.always_200 Scenario.request ∅
  = (NotConfigured, ∅, [])
  ∧ n_attempts (trace_of (generate Scenario.unconfigured Scenario.always_200
                            Scenario.request ∅)) = 0
  ∧ ∀ e, NotConfigured ≠ Exhausted e.
Proof.
  apply (empty_pool_not_configured Scenario.unconfigured Scenario.always_200
           Scenario.request ∅).
  reflexivity.
Defined.




(* ===================================================================== *)
(** ** Alerts that are not delivered *)
(* ===================================================================== *)

Lemma smtp_ready_false (cfg : Config) (req : GenerateRequest) :
  smtp_ready cfg req = false ↔
  truthy (SMTP_HOST cfg) = false ∨ truthy (SMTP_USER cfg) = false
  ∨ truthy (SMTP_PASS cfg) = false
  ∨ truthy (py_or (email_to req) (DEFAULT_WARNING_TO cfg)) = false.
Proof.
  unfold smtp_ready.
  destruct (truthy (SMTP_HOST cfg)), (truthy (SMTP_USER cfg)),
    (truthy (SMTP_PASS cfg)), (truthy (py_or _ _)); simpl; intuition discriminate.
Qed.

(** When the emitter returns false for index [i] (the SMTP session raised
    and the exception was caught, or the emitter declined to send), the
    request goes on as usual.  The table does not hold [i] afterwards.  The
    return is followed at once by the backoff pause of the attempt,
    [base * 1.5^(n-1)], and then by the call against key [i + 1] as attempt
    [n + 1], unless [i] was the last key or the budget is spent.  The
    result, the calls and the pauses of the request are those of any world
    with the same upstream answers and the same header check, whatever its
    SMTP server does.  And a later request on the resulting table that sees
    [i] rate-limited invokes the emitter for [i] again.  This for a pool or
    a budget of at most 1751, so that no attempt is one at which the power
    of the backoff overflows. *)
Lemma returned_false_is_not_fatal (cfg : Config) (w : World)
    (req : GenerateRequest) (db : gmap Z string) (i : Z) :
  Z.min (MAX_TOTAL_RETRIES_PER_PROMPT cfg)
        (Z.of_nat (length (GEMINI_KEYS cfg))) ≤ 1751 →
  In (EvSent i false) (trace_of (generate cfg w req db)) →
  (i ∉ dom (ledger_of (generate cfg w req db)))
  ∧ (∃ pre post n,
       trace_of (generate cfg w req db)
       = pre ++ EvSent i false
           :: EvSleep (BASE_BACKOFF_SECONDS cfg * (3 # 2) ^ (n - 1))%Q :: post
       ∧ (∃ o, In (EvCall i n o) pre ∧ classify o = RateLimited)
       ∧ ((post = []
           ∧ (MAX_TOTAL_RETRIES_PER_PROMPT cfg ≤ i
              ∨ Z.of_nat (length (GEMINI_KEYS cfg)) ≤ i))
          ∨ ∃ o' tl, post = EvCall (i + 1) (n + 1) o' :: tl))
  ∧ (∀ w',
       (∀ n key p m, upstream w' n key p m = upstream w n key p m) →
       (∀ name value, rejects_header w' name value = rejects_header w name value) →
       result_of (generate cfg w' req db) = result_of (generate cfg w req db)
       ∧ walk_view (trace_of (generate cfg w' req db))
         = walk_view (trace_of (generate cfg w req db)))
  ∧ (∀ w2 req2 n2 o2,
       In (EvCall i n2 o2)
         (trace_of (generate cfg w2 req2 (ledger_of (generate cfg w req db)))) →
       classify o2 = RateLimited →
       alert_count i
         (trace_of (generate cfg w2 req2 (ledger_of (generate cfg w req db))))
       = 1%nat).
Proof.
  intros Hlow Hin.
  assert (Halert : In (EvAlert i) (trace_of (generate cfg w req db))).
  { apply alert_count_pos. apply sent_count_In in Hin.
    rewrite generate_trace in *.
    pose proof (walk_sent_le_alert cfg w req (dom db)
                  (enumerate 1 (GEMINI_KEYS cfg)) 0 ErrNone db i). lia. }
  destruct (generate_alert_origin _ _ _ _ _ Halert) as (Hw & Hfresh & _).
  assert (Hunmarked : i ∉ dom (ledger_of (generate cfg w req db))).
  { rewrite generate_ledger_dom. intros [Hdb | Hdel]; [done |].
    pose proof (sent_count_both _ _ Hin Hdel).
    pose proof (generate_sent_count cfg w req db i). lia. }
  split; [done |]. split; [| split].
  - pose proof Hin as Hin'. rewrite generate_trace in Hin'.
    apply walk_failed_alert in Hin'
      as (pre & post & n & Heq & (o & Ho & Hv) & Hpost);
      [| by rewrite enumerate_length, Z.add_0_l].
    rewrite <- generate_trace in Heq.
    assert (Hi : i = n).
    { eapply (generate_calls cfg w req db i n o).
      rewrite Heq. apply in_or_app. by left. }
    exists pre, post, n. split; [by rewrite Heq |].
    split; [by exists o |].
    destruct Hpost as [[-> Hstop] | (i' & o' & tl & ->)].
    + left. split; [done |]. rewrite enumerate_length in Hstop. lia.
    + right. exists o', tl.
      assert (Hi' : i' = n + 1).
      { eapply (generate_calls cfg w req db i' (n + 1) o').
        rewrite Heq. apply in_or_app. right. right. right. by left. }
      by rewrite Hi', Hi.
  - intros w' Hup Hrej.
    pose proof (generate_keys_nonempty _ _ _ _ _ Hin) as Hkeys.
    rewrite !generate_trace, !generate_result by done.
    by apply walk_view_independent.
  - intros w2 req2 n2 o2 Hcall Hrl.
    by apply (proj2 (generate_alert_count cfg w2 req2 _ i) Hw Hunmarked n2 o2).
Qed.

(** When the emitter raises, the request ends with the emitter's
    exception: the rate-limited call and the invocation of the emitter are
    the last two events, no pause is taken and no further key is called. *)
Lemma generate_raised (cfg : Config) (w : World) (req : GenerateRequest)
    (db : gmap Z string) (m : string) :
  result_of (generate cfg w req db) = Exc (ValueError m) →
  ∃ pre i o,
    trace_of (generate cfg w req db) = pre ++ [EvCall i i o; EvAlert i]
    ∧ classify o = RateLimited
    ∧ alert_rejected cfg w req i = true.
Proof.
  intros Hres.
  assert (Hkeys : GEMINI_KEYS cfg ≠ []).
  { intros Hk. rewrite generate_run, Hk in Hres. discriminate. }
  rewrite generate_result in Hres by done.
  apply walk_raised in Hres as (pre & i & n & o & Heq & Hv & Hrej).
  rewrite <- generate_trace in Heq.
  assert (Hi : i = n).
  { eapply (generate_calls cfg w req db i n o).
    rewrite Heq. apply in_or_app. right. by left. }
  subst n. by exists pre, i, o.
Qed.

(** C9 does not hold of the code.  The emitter assigns the headers of the
    message before its [try] statement (lines 104-108), and the handler
    calls the emitter outside any [try] (line 215): when the mail library
    rejects a header, as it does for a recipient of two lines, the
    [ValueError] leaves the emitter and ends the request.  With the pool
    [k1, k2], index 1 watched, [k1] answering 429 and [k2] answering 200,
    such a request ends in that exception after the call against [k1]: no
    pause is taken and [k2] is never called, while the same request with the
    default recipient succeeds with key 2. *)
Theorem rejected_header_aborts_walk :
  result_of (generate Scenario.pair (Scenario.first_429 true)
               Scenario.request_two_lines ∅)
  = Exc header_error
  ∧ trace_of (generate Scenario.pair (Scenario.first_429 true)
                Scenario.request_two_lines ∅)
    = [EvCall 1 1 Scenario.too_many; EvAlert 1]
  ∧ attempted (trace_of (generate Scenario.pair (Scenario.first_429 true)
                           Scenario.request_two_lines ∅)) = [1]
  ∧ ledger_of (generate Scenario.pair (Scenario.first_429 true)
                 Scenario.request_two_lines ∅) = ∅
  ∧ result_of (generate Scenario.pair (Scenario.first_429 true)
                 Scenario.request ∅)
    = Ok {| success := true; key_used_index := Some 2;
            raw_response := Some (PyDict "{}"); error := None |}.
Proof. vm_compute. repeat split. Qed.

(* ===================================================================== *)
(** ** Alerting without a usable SMTP configuration *)
(* ===================================================================== *)

Lemma generate_unready (cfg : Config) (w : World) (req : GenerateRequest)
    (db : gmap Z string) :
  smtp_ready cfg req = false →
  ledger_of (generate cfg w req db) = db
  ∧ (∀ e, In e (trace_of (generate cfg w req db)) → is_smtp e = false)
  ∧ (∀ i b, In (EvSent i b) (trace_of (generate cfg w req db)) → b = false)
  ∧ (∀ m, result_of (generate cfg w req db) ≠ Exc (ValueError m)).
Proof.
  intros Hnr. rewrite generate_ledger, generate_trace.
  destruct (walk_unready cfg w req (dom db) (enumerate 1 (GEMINI_KEYS cfg))
              0 ErrNone db Hnr) as (H1 & H2 & H3 & H4).
  split; [done |]. split; [done |]. split; [done |].
  intros m. destruct (decide (GEMINI_KEYS cfg = [])) as [Hk | Hk].
  - rewrite generate_run, Hk. discriminate.
  - rewrite generate_result by done. apply H4.
Qed.

Lemma serve_unready (cfg : Config) (rs : list (World * GenerateRequest))
    (db : gmap Z string) :
  Forall (λ x, smtp_ready cfg x.2 = false) rs →
  ledger_of (serve cfg rs db) = db
  ∧ ∀ e, In e (trace_of (serve cfg rs db)) → is_smtp e = false.
Proof.
  induction 1 as [| [w req] rs Hx Hrs IH]; [split; [done | intros e []] |].
  destruct (generate_unready cfg w req db Hx) as (Hl & Hs & _).
  rewrite serve_cons_ledger, serve_cons_trace, Hl.
  destruct IH as [IH1 IH2]. split; [done |].
  intros e [He | He]%in_app_or; auto.
Qed.

(** C10.  When the SMTP host, user or password is missing or empty, or the
    request has no recipient and no default one is configured, the emitter
    returns false without opening an SMTP session: no request opens a
    session, every return of the emitter is false, and the table is left
    as it was, over any number of such requests.  So every request that
    observes a rate-limited answer from a watched index the table does not
    hold, whatever was served before it, invokes the emitter for that index
    again, exactly once, and again without success. *)
Theorem unconfigured_smtp_never_marks (cfg : Config) (w : World)
    (req : GenerateRequest) (db : gmap Z string)
    (rs : list (World * GenerateRequest)) :
  truthy (SMTP_HOST cfg) = false ∨ truthy (SMTP_USER cfg) = false
  ∨ truthy (SMTP_PASS cfg) = false
  ∨ truthy (py_or (email_to req) (DEFAULT_WARNING_TO cfg)) = false →
  Forall (λ x, smtp_ready cfg x.2 = false) rs →
  let before := serve cfg rs db in
  let r := generate cfg w req (ledger_of before) in
  ledger_of before = db
  ∧ ledger_of r = db
  ∧ (∀ to subject, ¬ In (EvSmtp to subject) (trace_of before ++ trace_of r))
  ∧ (∀ i b, In (EvSent i b) (trace_of r) → b = false)
  ∧ (∀ i n o,
       i ∈ WATCH_KEYS_INDICES cfg → i ∉ dom db →
       In (EvCall i n o) (trace_of r) → classify o = RateLimited →
       In (EvAlert i) (trace_of r) ∧ alert_count i (trace_of r) = 1%nat
       ∧ In (EvSent i false) (trace_of r)).
Proof.
  intros Hcfg%smtp_ready_false Hrs before r.
  destruct (serve_unready cfg rs db Hrs) as [Hb1 Hb2].
  destruct (generate_unready cfg w req (ledger_of before) Hcfg)
    as (Hl & Hs & Ha & _).
  fold before in Hb1, Hb2. fold r in Hl, Hs, Ha.
  split; [done |]. split; [by rewrite Hl |]. split; [| split; [done |]].
  - intros to subject [Hin | Hin]%in_app_or;
      [apply Hb2 in Hin | apply Hs in Hin]; discriminate.
  - intros i n o Hw Hfresh Hcall Hrl.
    assert (Hone : alert_count i (trace_of r) = 1%nat).
    { apply (proj2 (generate_alert_count cfg w req (ledger_of before) i)
               Hw) with n o; [by rewrite Hb1 | done | done]. }
    split; [apply alert_count_pos; lia |]. split; [done |].
    assert (Hal : In (EvAlert i) (trace_of r)) by (apply alert_count_pos; lia).
    unfold r in Hal |- *. rewrite generate_trace in Hal |- *.
    by apply walk_unready_sent.
Qed.

(** The pool [k1, k2] with index 1 watched and no SMTP host, [k1]
    answering 429, after one earlier request of the same kind. *)
Lemma unconfigured_smtp_never_marks_witness :
  let before :=
    serve Scenario.pair_without_smtp
      [(Scenario.first_429 true, Scenario.request)] ∅ in
  let r :=
    generate Scenario.pair_without_smtp (Scenario.first_429 true)
      Scenario.request (ledger_of before) in
  ledger_of before = ∅
  ∧ ledger_of r = ∅
  ∧ (∀ to subject, ¬ In (EvSmtp to subject) (trace_of before ++ trace_of r))
  ∧ (∀ i b, In (EvSent i b) (trace_of r) → b = false)
  ∧ (∀ i n o,
       i ∈ WATCH_KEYS_INDICES Scenario.pair_without_smtp →
       i ∉ dom (∅ : gmap Z string) →
       In (EvCall i n o) (trace_of r) → classify o = RateLimited →
       In (EvAlert i) (trace_of r) ∧ alert_count i (trace_of r) = 1%nat
       ∧ In (EvSent i false) (trace_of r)).
Proof.
  apply (unconfigured_smtp_never_marks Scenario.pair_without_smtp
           (Scenario.first_429 true) Scenario.request ∅
           [(Scenario.first_429 true, Scenario.request)]).
  - left. reflexivity.
  - constructor; [reflexivity | constructor].
Defined.

(* ===================================================================== *)
(** ** The scenarios of the specification, run *)
(* ===================================================================== *)

(** Pool [k1, k2, k3] answering 429, 503, 200: success with key 3, two
    backoff pauses, of one second and of a second and a half, no alert. *)
Example scenario_rotation :
  let r := generate Scenario.triple Scenario.busy_then_fine Scenario.request ∅ in
  result_of r
  = Ok {| success := true; key_used_index := Some 3;
          raw_response := Some (PyDict "{}"); error := None |}
  ∧ trace_of r
    = [EvCall 1 1 Scenario.too_many; EvSleep 1;
       EvCall 2 2 (Response 503 (PyOther "Service Unavailable"));
       EvSleep (3 # 2);
       EvCall 3 3 Scenario.fine]
  ∧ ledger_of r = ∅.
Proof. vm_compute. done. Qed.

(** The table already holds index 5 and key 5 answers 429: no alert for
    5, the walk goes on to key 6, and the indices alerted for are 8 and
    10. *)
Example scenario_already_notified :
  let r := generate Scenario.ten (Scenario.always_429 true) Scenario.request
             Scenario.notified_5 in
  alert_count 5 (trace_of r) = 0%nat
  ∧ attempted (trace_of r) = [1; 2; 3; 4; 5; 6; 7; 8; 9; 10]
  ∧ alert_count 8 (trace_of r) = 1%nat
  ∧ alert_count 10 (trace_of r) = 1%nat
  ∧ result_of r = Exhausted (ErrRateLimit 10).
Proof. vm_compute. done. Qed.

(** A 403 whose body mentions a quota goes down the rate-limit path of
    the loop: the watched key is alerted for and the pause is the backoff
    of one second, not the fixed 0.2 seconds of an authentication
    failure. *)
Example scenario_forbidden_quota :
  let r := generate Scenario.pair Scenario.first_403_quota Scenario.request ∅ in
  walk_view (trace_of r)
  = [EvCall 1 1 Scenario.forbidden_quota; EvSleep 1; EvCall 2 2 Scenario.fine]
  ∧ alert_count 1 (trace_of r) = 1%nat
  ∧ In (EvMark 1) (trace_of r).
Proof.
  split; [by vm_compute |]. split; [by vm_compute |].
  vm_compute. tauto.
Qed.

(** An SMTP session that fails leaves the walk as it is: the same calls,
    the same pauses and the same result as when the alert is delivered. *)
Example scenario_smtp_failure :
  let delivered :=
    generate Scenario.pair (Scenario.first_429 true) Scenario.request ∅ in
  let failed :=
    generate Scenario.pair (Scenario.first_429 false) Scenario.request ∅ in
  result_of failed = result_of delivered
  ∧ walk_view (trace_of failed) = walk_view (trace_of delivered)
  ∧ ledger_of failed = ∅.
Proof. vm_compute. done. Qed.

(* ===================================================================== *)
(** ** The key pool read from the environment *)
(* ===================================================================== *)

Module StartupFacts.
Import Startup.

Lemma split_not_nil (sep : ascii) (s : string) : split sep s ≠ [].
Proof.
  destruct s as [| c s]; simpl; [done |].
  case_bool_decide; [done |]. by destruct (split sep s).
Qed.

(** No piece holds the separator, and every character of a piece is a
    character of the text that was split. *)
Lemma split_pieces (sep : ascii) (s piece : string) :
  In piece (split sep s) →
  occurs sep piece = false
  ∧ ∀ c, occurs c piece = true → occurs c s = true.
Proof.
  revert piece. induction s as [| a s IH]; intros piece; simpl.
  - intros [<- | []]. done.
  - case_bool_decide as Ha.
    + intros [<- | Hin]; [done |]. destruct (IH piece Hin) as [H1 H2].
      split; [done |]. intros c Hc. rewrite (H2 c Hc). apply orb_true_r.
    + pose proof (split_not_nil sep s) as Hnil.
      destruct (split sep s) as [| p ps]; [done |].
      intros [<- | Hin].
      * destruct (IH p (or_introl eq_refl)) as [H1 H2]. simpl. split.
        -- rewrite H1. by rewrite bool_decide_eq_false_2.
        -- intros c [Hc | Hc]%orb_true_iff; [by rewrite Hc |].
           rewrite (H2 c Hc). apply orb_true_r.
      * destruct (IH piece (or_intror Hin)) as [H1 H2].
        split; [done |]. intros c Hc. rewrite (H2 c Hc). apply orb_true_r.
Qed.

Lemma occurs_lstrip (c : ascii) (s : string) :
  occurs c (lstrip s) = true → occurs c s = true.
Proof.
  induction s as [| a s IH]; simpl; [done |].
  destruct (is_space a); [| done]. intros H. rewrite (IH H). apply orb_true_r.
Qed.

Lemma occurs_rstrip (c : ascii) (s : string) :
  occurs c (rstrip s) = true → occurs c s = true.
Proof.
  induction s as [| a s IH]; simpl; [done |].
  destruct (rstrip s) as [| a' r] eqn:Hr.
  - destruct (is_space a); simpl; [done |].
    rewrite orb_false_r. intros H. by rewrite H.
  - simpl in *. intros [H | H]%orb_true_iff; [by rewrite H |].
    rewrite (IH H). apply orb_true_r.
Qed.

Lemma lstrip_no_lead (s : string) : no_lead (lstrip s).
Proof.
  induction s as [| a s IH]; simpl; [done |].
  destruct (is_space a) eqn:Ha; [done | by simpl].
Qed.

Lemma no_lead_lstrip (s : string) : no_lead s → lstrip s = s.
Proof. destruct s as [| a s]; simpl; [done |]. by intros ->. Qed.

Lemma rstrip_no_lead (s : string) : no_lead s → no_lead (rstrip s).
Proof.
  destruct s as [| a s]; simpl; [done |]. intros Ha.
  destruct (rstrip s); [by rewrite Ha | done].
Qed.

Lemma rstrip_idem (s : string) : rstrip (rstrip s) = rstrip s.
Proof.
  induction s as [| a s IH]; simpl; [done |].
  destruct (rstrip s) as [| a' r] eqn:Hr.
  - destruct (is_space a) eqn:Ha; simpl; [done | by rewrite Ha].
  - change (rstrip (String a (String a' r)))
      with (match rstrip (String a' r) with
            | EmptyString =>
                if is_space a then EmptyString else String a EmptyString
            | String c' r' => String a (String c' r')
            end).
    by rewrite IH.
Qed.

Lemma strip_fixed (s : string) :
  lstrip (strip s) = strip s ∧ rstrip (strip s) = strip s.
Proof.
  unfold strip. split; [| apply rstrip_idem].
  apply no_lead_lstrip, rstrip_no_lead, lstrip_no_lead.
Qed.

Lemma nonempty_true (s : string) : nonempty s = true ↔ s ≠ EmptyString.
Proof. destruct s; simpl; split; done. Qed.

Lemma is_ascii_occurs (s : string) :
  is_ascii s = true
  ↔ ∀ c, occurs c s = true → Nat.ltb (nat_of_ascii c) 128 = true.
Proof.
  induction s as [| a s IH]; simpl; [done |].
  rewrite andb_true_iff, IH. split.
  - intros [Ha Hs] c [Hc%bool_decide_eq_true | Hc]%orb_true_iff;
      [by subst c | by apply Hs].
  - intros H. split.
    + apply H. by rewrite bool_decide_eq_true_2.
    + intros c Hc. apply H. rewrite Hc. apply orb_true_r.
Qed.

(** Every key of the pool parsed from an ASCII value is clean: made of
    ASCII characters, not empty, without a comma, without white space at
    its ends. *)
Theorem parse_keys_clean (value k : string) :
  is_ascii value = true → In k (parse_keys value) → clean k.
Proof.
  intros Hascii. unfold parse_keys. rewrite in_map_iff.
  intros (piece & <- & [Hin Hne]%List.filter_In).
  apply nonempty_true in Hne.
  destruct (split_pieces _ _ _ Hin) as [Hsep Hsub].
  destruct (strip_fixed piece) as [Hl Hr].
  split; [| split; [done |]; split; [| done]].
  - apply is_ascii_occurs. intros c Hc.
    apply occurs_rstrip, occurs_lstrip, Hsub in Hc.
    by apply (proj1 (is_ascii_occurs value) Hascii).
  - destruct (occurs "," (strip piece)) eqn:Hocc; [| done].
    apply occurs_rstrip, occurs_lstrip in Hocc. congruence.
Qed.

(** The keys of [" k1 , ,k2,"] are clean. *)
Lemma parse_keys_clean_witness : clean "k2".
Proof.
  apply (parse_keys_clean " k1 , ,k2," "k2").
  - reflexivity.
  - vm_compute. right. left. reflexivity.
Defined.

Lemma split_no_sep (sep : ascii) (k : string) :
  occurs sep k = false → split sep k = [k].
Proof.
  induction k as [| a k IH]; simpl; [done |].
  intros [Ha Hk]%orb_false_iff. rewrite Ha. by rewrite (IH Hk).
Qed.

Lemma split_append (sep : ascii) (k rest : string) :
  occurs sep k = false →
  split sep (k +:+ String sep rest) = k :: split sep rest.
Proof.
  induction k as [| a k IH]; simpl.
  - intros _. by rewrite bool_decide_eq_true_2.
  - intros [Ha Hk]%orb_false_iff. rewrite Ha. by rewrite (IH Hk).
Qed.

Lemma split_join (sep : ascii) (l : list string) :
  l ≠ [] → Forall (λ k, occurs sep k = false) l →
  split sep (join sep l) = l.
Proof.
  induction l as [| k l IH]; [done |]. intros _ Hall.
  apply Forall_cons in Hall as [Hk Hl].
  destruct l as [| k2 l]; [by apply split_no_sep |].
  change (join sep (k :: k2 :: l)) with (k +:+ String sep (join sep (k2 :: l))).
  rewrite split_append by done. by rewrite IH.
Qed.

(** Round trip: a pool of clean keys (ASCII, not empty, without a comma,
    without white space at their ends), written to the variable with
    commas between the keys, is read back as it was, in the same order. *)
Theorem parse_keys_join (keys : list string) :
  Forall clean keys → parse_keys (join "," keys) = keys.
Proof.
  intros Hall. destruct (decide (keys = [])) as [-> | Hne]; [done |].
  unfold parse_keys. rewrite split_join; [| done |].
  - induction Hall as [| k l (_ & Hk & _ & Hl & Hr) Hl' IH]; [done |].
    assert (Hs : strip k = k) by (unfold strip; by rewrite Hl, Hr).
    cbn [List.filter]. rewrite Hs, (proj2 (nonempty_true k) Hk). cbn [map].
    rewrite Hs. f_equal. destruct l as [| k2 l]; [done |]. by apply IH.
  - eapply Forall_impl; [exact Hall |]. by intros k (_ & _ & Hc & _).
Qed.

Lemma parse_keys_join_witness :
  parse_keys (join "," ["AIza-first"; "AIza second"; "third"])
  = ["AIza-first"; "AIza second"; "third"].
Proof.
  apply (parse_keys_join ["AIza-first"; "AIza second"; "third"]).
  repeat constructor; (discriminate || reflexivity).
Defined.

Lemma lstrip_blank (s : string) :
  (∀ c, occurs c s = true → is_space c = true) → lstrip s = EmptyString.
Proof.
  induction s as [| a s IH]; simpl; [done |]. intros H.
  rewrite (H a) by (by rewrite bool_decide_eq_true_2).
  apply IH. intros c Hc. apply H. rewrite Hc. apply orb_true_r.
Qed.

(** A variable made of commas and white space only gives no key. *)
Lemma parse_keys_blank (value : string) :
  (∀ c, occurs c value = true → c = ","%char ∨ is_space c = true) →
  parse_keys value = [].
Proof.
  intros Hblank. unfold parse_keys.
  assert (Hnone : ∀ piece, In piece (split "," value) →
                           nonempty (strip piece) = false).
  { intros piece Hin. destruct (split_pieces _ _ _ Hin) as [Hsep Hsub].
    unfold strip. rewrite lstrip_blank; [done |].
    intros c Hc. destruct (Hblank c (Hsub c Hc)) as [-> | Hs]; [| done].
    congruence. }
  induction (split "," value) as [| p ps IH]; [done |].
  cbn [List.filter]. rewrite Hnone by (by left).
  apply IH. intros piece Hin. apply Hnone. by right.
Qed.

(** With the variable unset, empty, or made of commas and white space
    only, the pool is empty and every request ends at once with the
    "not configured" failure: nothing is called and the table is not
    touched. *)
Theorem blank_pool_not_configured (cfg : Config) (env : option string)
    (w : World) (req : GenerateRequest) (db : gmap Z string) :
  (∀ value c, env = Some value → occurs c value = true →
              c = ","%char ∨ is_space c = true) →
  GEMINI_KEYS (with_keys cfg env) = []
  ∧ generate (with_keys cfg env) w req db = (NotConfigured, db, []).
Proof.
  intros Hblank.
  assert (Hkeys : GEMINI_KEYS (with_keys cfg env) = []).
  { cbn [with_keys GEMINI_KEYS]. unfold GEMINI_KEYS_of.
    apply parse_keys_blank. destruct env as [value |]; simpl; [eauto | done]. }
  split; [done |]. by rewrite generate_run, Hkeys.
Qed.

Lemma blank_pool_not_configured_witness :
  GEMINI_KEYS (with_keys Scenario.pair (Some " , ,, ")) = []
  ∧ generate (with_keys Scenario.pair (Some " , ,, ")) Scenario.always_200
      Scenario.request ∅
    = (NotConfigured, ∅, []).
Proof.
  apply (blank_pool_not_configured Scenario.pair (Some " , ,, ")
           Scenario.always_200 Scenario.request ∅).
  intros value c [= <-] Hc. cbn [occurs] in Hc.
  repeat (apply orb_true_iff in Hc as [Hc%bool_decide_eq_true | Hc];
          [subst c; (by left) || (by right) |]).
  discriminate.
Defined.

End StartupFacts.

(* ===================================================================== *)
(** ** The table and the emitter on their own *)
(* ===================================================================== *)


(** The emitter on its own.  It never writes to the table and opens at
    most one SMTP session.  It returns true exactly when the configuration
    and the recipient are there, the mail library accepts the three
    headers and the session runs through.  It raises only for a rejected
    header, and then before any session is opened.  With a part of the
    configuration missing it returns false and opens no session. *)
Theorem send_warning_email_outcomes (cfg : Config) (w : World)
    (subject body : string) (to_email : option string) (db : gmap Z string) :
  let r := send_warning_email cfg w subject body to_email db in
  let to := default EmptyString to_email in
  let ready := truthy (SMTP_HOST cfg) && truthy (SMTP_USER cfg)
               && truthy (SMTP_PASS cfg) && truthy to_email in
  let rejected := rejects_header w "From" (default EmptyString (SMTP_USER cfg))
                  || rejects_header w "To" to
                  || rejects_header w "Subject" subject in
  ledger_of r = db
  ∧ (trace_of r = [] ∨ trace_of r = [EvSmtp to subject])
  ∧ (result_of r = Val true
     ↔ ready = true ∧ rejected = false ∧ smtp_deliver w to subject body = true)
  ∧ (result_of r = Val true → trace_of r = [EvSmtp to subject])
  ∧ (∀ e, result_of r = Exc e
          ↔ e = header_error ∧ ready = true ∧ rejected = true)
  ∧ (∀ e, result_of r = Exc e → trace_of r = [])
  ∧ (ready = false → result_of r = Val false ∧ trace_of r = []).
Proof.
  cbv zeta. unfold send_warning_email, set_header.
  destruct (truthy (SMTP_HOST cfg) && truthy (SMTP_USER cfg)
            && truthy (SMTP_PASS cfg) && truthy to_email); cbn [negb].
  - unfold bind, raise, ret, emit, ledger_of, trace_of, result_of.
    destruct (rejects_header w "From" _); cbn [orb fst snd].
    { repeat split; try done; try (by left); try (intros; intuition congruence). }
    destruct (rejects_header w "To" _); cbn [orb fst snd].
    { repeat split; try done; try (by left); try (intros; intuition congruence). }
    destruct (rejects_header w "Subject" _); cbn [orb fst snd].
    { repeat split; try done; try (by left); try (intros; intuition congruence). }
    destruct (smtp_deliver w _ subject body); cbn [fst snd app];
      repeat split; try done; try (by right); try (intros; intuition congruence).
  - unfold ret, ledger_of, trace_of, result_of. cbn [fst snd].
    repeat split; try done; try (by left); try (intros; intuition congruence).
Qed.

(* ===================================================================== *)
(** ** Further structure of a walk *)
(* ===================================================================== *)

Lemma n_sleeps_app (t1 t2 : list Event) :
  n_sleeps (t1 ++ t2) = n_sleeps t1 + n_sleeps t2.
Proof. unfold n_sleeps. rewrite List.filter_app, length_app. lia. Qed.

Lemma last_call_app (t1 t2 : list Event) :
  last_call (t1 ++ t2)
  = match last_call t2 with Some c => Some c | None => last_call t1 end.
Proof.
  induction t1 as [| e t1 IH]; simpl; [by destruct (last_call t2) |].
  rewrite IH. destruct (last_call t2); [done |]. by destruct (last_call t1).
Qed.

Lemma last_call_none (t : list Event) :
  last_call t = None → n_attempts t = 0.
Proof.
  induction t as [| e t IH]; [done |]. cbn [last_call].
  destruct (last_call t); [done |]. destruct e; try done; intros _;
    change (?e :: t) with ([e] ++ t); rewrite n_attempts_app, IH by done;
    reflexivity.
Qed.

(** A stretch of trace without calls and pauses adds nothing to the
    calls, the pauses and the keys attempted. *)
Lemma walk_view_nil (tr : list Event) :
  walk_view tr = [] →
  attempted tr = [] ∧ last_call tr = None ∧ n_sleeps tr = 0
  ∧ n_attempts tr = 0.
Proof.
  unfold walk_view, n_sleeps, n_attempts.
  induction tr as [| e tr IH]; [done |]. cbn [List.filter].
  destruct e; cbn [is_call is_sleep orb]; try discriminate;
    intros (H1 & H2 & H3 & H4)%IH; simpl; by rewrite ?H1, ?H2.
Qed.

Section WalkMore.

Variable cfg : Config.
Variable w : World.
Variable req : GenerateRequest.
Variable nk : gset Z.

Local Abbreviation MAX := (MAX_TOTAL_RETRIES_PER_PROMPT cfg).
Local Abbreviation answer n key :=
  (upstream w n key (prompt req) (metadata req)).
Local Abbreviation recipient :=
  (default EmptyString (py_or (email_to req) (DEFAULT_WARNING_TO cfg))).
Local Abbreviation run items ta le db := (walk cfg w req nk items ta le db).
Local Abbreviation quiet v idx db :=
  (walk_view_nil _ (notify_if_view cfg w req nk v idx db)).

(** The keys attempted are the first keys of the pool, in order. *)
Lemma walk_attempted (items : list (Z * string)) (ta : Z) (le : LastError)
    (db : gmap Z string) :
  attempted (trace_of (run items ta le db))
  = (take (Z.to_nat (n_attempts (trace_of (run items ta le db)))) items).*1.
Proof.
  pattern items, ta, le, db, (run items ta le db).
  apply walk_elim; clear items ta le db; try done.
  - intros idx key rest ta le db o0 v r e Hlt -> -> Hc -> Hr.
    rewrite trace_of_triple, n_attempts_cons_call.
    destruct (quiet (classify (answer (ta + 1) key)) idx db) as (Ha & _ & _ & Hn).
    change (EvCall idx (ta + 1) (answer (ta + 1) key) :: ?t)
      with ([EvCall idx (ta + 1) (answer (ta + 1) key)] ++ t).
    by rewrite attempted_app, Ha, Hn.
  - intros idx key rest ta le db o0 v r r' Hlt -> -> Hc -> Hr -> IH _.
    rewrite trace_of_triple, n_attempts_cons_call, n_attempts_app,
      n_attempts_cons_sleep.
    destruct (quiet (classify (answer (ta + 1) key)) idx db) as (Ha & _ & _ & Hn).
    change (EvCall idx (ta + 1) (answer (ta + 1) key) :: ?t)
      with ([EvCall idx (ta + 1) (answer (ta + 1) key)] ++ t).
    change (EvSleep ?d :: ?t) with ([EvSleep d] ++ t).
    rewrite !attempted_app, Ha, Hn, IH.
    set (k := n_attempts _). pose proof (n_attempts_nonneg (trace_of
      (run rest (ta + 1) (error_after idx (answer (ta + 1) key))
         (ledger_of (notify_if (classify (answer (ta + 1) key)) cfg w req nk
                       idx db))))) as Hk.
    fold k in Hk. replace (Z.to_nat (1 + (0 + k))) with (S (Z.to_nat k)) by lia.
    done.
  - intros idx key rest ta le db o0 v r Hlt -> -> Hc -> Hr _.
    rewrite trace_of_triple, n_attempts_cons_call.
    destruct (quiet (classify (answer (ta + 1) key)) idx db) as (Ha & _ & _ & Hn).
    change (EvCall idx (ta + 1) (answer (ta + 1) key) :: ?t)
      with ([EvCall idx (ta + 1) (answer (ta + 1) key)] ++ t).
    by rewrite attempted_app, Ha, Hn.
Qed.

(** On exhaustion the error carried is that of the last call made, or
    the one the walk started with when it made none. *)
Lemma walk_last_error (items : list (Z * string)) (ta : Z) (le : LastError)
    (db : gmap Z string) (le' : LastError) :
  result_of (run items ta le db) = Exhausted le' →
  le' = match last_call (trace_of (run items ta le db)) with
        | Some (i, _, o) => error_after i o
        | None => le
        end.
Proof.
  revert le'. pattern items, ta, le, db, (run items ta le db).
  apply walk_elim; clear items ta le db.
  - by intros ta le db le' [= <-].
  - by intros idx key rest ta le db _ le' [= <-].
  - intros idx key rest ta le db _ _ _ le' [=].
  - by intros idx key rest ta le db _ _ le' [= <-].
  - intros idx key rest ta le db o0 v r e Hlt -> -> Hc -> Hr le'.
    destruct (notify_if_exc _ _ _ _ _ _ _ _ Hr) as (_&_&_&_&_&->&_).
    intros [=].
  - intros idx key rest ta le db o0 v r r' Hlt -> -> Hc -> Hr -> IH _ le'.
    rewrite result_of_triple, trace_of_triple. intros Hres%IH.
    destruct (quiet (classify (answer (ta + 1) key)) idx db) as (_ & Hl & _ & _).
    change (EvCall idx (ta + 1) (answer (ta + 1) key) :: ?t)
      with ([EvCall idx (ta + 1) (answer (ta + 1) key)] ++ t).
    change (EvSleep ?d :: ?t) with ([EvSleep d] ++ t).
    rewrite !last_call_app, Hl. cbn [last_call].
    by destruct (last_call (trace_of _)) as [[[i n] o] |].
  - intros idx key rest ta le db _ _ _ le' [=].
  - intros idx key rest ta le db o0 v r Hlt -> -> Hc -> Hr _ le' [=].
Qed.

(** A success comes from a call with a status in [200,300), which is the
    last event; every call before it was one the loop continues after. *)
Lemma walk_success_origin (items : list (Z * string)) (ta : Z)
    (le : LastError) (db : gmap Z string) (g : GeminiResponse) :
  result_of (run items ta le db) = Ok g →
  ∃ pre i n s p,
    trace_of (run items ta le db) = pre ++ [EvCall i n (Response s p)]
    ∧ 200 ≤ s < 300
    ∧ g = {| success := true; key_used_index := Some i;
             raw_response := Some p; error := None |}
    ∧ ∀ j m o, In (EvCall j m o) pre → continuing (classify o) = true.
Proof.
  revert g. pattern items, ta, le, db, (run items ta le db).
  apply walk_elim; clear items ta le db;
    try (intros; rewrite result_of_triple in *; discriminate).
  - intros idx key rest ta le db _ Hv _ g [= <-].
    apply classify_success in Hv as (s & p & Ho & Hs). rewrite Ho.
    exists [], idx, (ta + 1), s, p. repeat split; try done; try lia.
  - intros idx key rest ta le db o0 v r r' Hlt -> -> Hc -> Hr -> IH _ g.
    rewrite result_of_triple, trace_of_triple.
    intros (pre & i & n & s & p & -> & Hs & -> & Hpre)%IH.
    exists (EvCall idx (ta + 1) (answer (ta + 1) key)
              :: trace_of (notify_if (classify (answer (ta + 1) key))
                             cfg w req nk idx db)
              ++ EvSleep (delay_after cfg (ta + 1)
                            (classify (answer (ta + 1) key))) :: pre),
      i, n, s, p.
    split; [cbn [app]; rewrite <- app_assoc; reflexivity |].
    split; [done |]. split; [done |].
    intros j m o [[= <- <- <-] | Hin]; [done |].
    apply in_app_or in Hin as [Hin | [[=] | Hin]];
      [by apply notify_if_no_call in Hin | eauto].
Qed.

(** A walk leaves the records of the snapshot as they are, and adds
    records only for watched indices outside the snapshot that it alerted
    for, stamped with the time of the world. *)
Lemma walk_records (items : list (Z * string)) (ta : Z) (le : LastError)
    (db : gmap Z string) :
  (∀ i, i ∈ nk → ledger_of (run items ta le db) !! i = db !! i)
  ∧ (∀ i t, ledger_of (run items ta le db) !! i = Some t →
            db !! i = Some t
            ∨ (t = utcnow w +:+ "Z" ∧ i ∈ WATCH_KEYS_INDICES cfg ∧ (i ∉ nk)
               ∧ In (EvAlert i) (trace_of (run items ta le db)))).
Proof.
  pattern items, ta, le, db, (run items ta le db).
  apply walk_elim; clear items ta le db;
    try (intros; rewrite ledger_of_triple; split; [done | by left]).
  - intros idx key rest ta le db o0 v r e Hlt -> -> Hc -> Hr.
    destruct (notify_if_exc _ _ _ _ _ _ _ _ Hr) as (_&_&_&_&_&_&->).
    rewrite !ledger_of_triple. split; [done | by left].
  - intros idx key rest ta le db o0 v r r' Hlt -> -> Hc -> Hr -> [IH1 IH2] _.
    rewrite ledger_of_triple, trace_of_triple.
    assert (Hlater : ∀ i,
      In (EvAlert i)
        (trace_of (run rest (ta + 1) (error_after idx (answer (ta + 1) key))
           (ledger_of (notify_if (classify (answer (ta + 1) key)) cfg w req
                         nk idx db)))) →
      In (EvAlert i)
        (EvCall idx (ta + 1) (answer (ta + 1) key)
         :: trace_of (notify_if (classify (answer (ta + 1) key)) cfg w req
                        nk idx db)
         ++ EvSleep (delay_after cfg (ta + 1)
                       (classify (answer (ta + 1) key)))
         :: trace_of (run rest (ta + 1)
                        (error_after idx (answer (ta + 1) key))
                        (ledger_of (notify_if (classify (answer (ta + 1) key))
                                      cfg w req nk idx db))))).
    { intros i Hi. right. apply in_or_app. right. by right. }
    split.
    + intros i Hi. rewrite IH1 by done.
      destruct (notify_if_val _ _ _ _ _ _ _ Hr) as
        [(_&_&Hn&_&H) | [(_&_&_&_&H) | [(_&_&_&_&H) | (_&H)]]];
        rewrite H, ledger_of_triple; try done.
      apply lookup_insert_ne. congruence.
    + intros i t [Hold | (Ht & Hw & Hn & Hal)]%IH2;
        [| right; by auto].
      destruct (notify_if_val _ _ _ _ _ _ _ Hr) as
        [(_&Hw&Hn&_&H) | [(_&_&_&_&H) | [(_&_&_&_&H) | (_&H)]]];
        rewrite H, ledger_of_triple in Hold; try (by left).
      destruct (decide (idx = i)) as [<- | Hne].
      * rewrite lookup_insert_eq in Hold. injection Hold as <-. right.
        repeat split; try done. right. apply in_or_app. left.
        rewrite H, trace_of_triple. by left.
      * rewrite lookup_insert_ne in Hold by done. by left.
  - intros idx key rest ta le db o0 v r Hlt -> -> Hc -> Hr _.
    rewrite ledger_of_triple, trace_of_triple. split.
    + intros i Hi.
      destruct (notify_if_val _ _ _ _ _ _ _ Hr) as
        [(_&_&Hn&_&H) | [(_&_&_&_&H) | [(_&_&_&_&H) | (_&H)]]];
        rewrite H, ledger_of_triple; try done.
      apply lookup_insert_ne. congruence.
    + intros i t Hold.
      destruct (notify_if_val _ _ _ _ _ _ _ Hr) as
        [(_&Hw&Hn&_&H) | [(_&_&_&_&H) | [(_&_&_&_&H) | (_&H)]]];
        rewrite H, ledger_of_triple in Hold; try (by left).
      destruct (decide (idx = i)) as [<- | Hne].
      * rewrite lookup_insert_eq in Hold. injection Hold as <-. right.
        repeat split; try done. right.
        rewrite H, trace_of_triple. by left.
      * rewrite lookup_insert_ne in Hold by done. by left.
Qed.

(** An SMTP session opened by the alerting of one turn. *)
Lemma notify_if_smtp_origin (v : Verdict) (idx : Z) (db : gmap Z string)
    (to subject : string) :
  result_of (notify_if v cfg w req nk idx db) = Val tt →
  In (EvSmtp to subject) (trace_of (notify_if v cfg w req nk idx db)) →
  to = recipient ∧ smtp_ready cfg req = true ∧ subject = alert_subject idx
  ∧ In (EvAlert idx) (trace_of (notify_if v cfg w req nk idx db)).
Proof.
  intros Hr Hin.
  destruct (notify_if_val _ _ _ _ _ _ _ Hr) as
    [(_&_&_&Hs&H) | [(_&_&_&Hs&H) | [(_&_&_&_&H) | (_&H)]]];
    rewrite H, trace_of_triple in Hin |- *; cbn [In] in Hin.
  - destruct Hin as [[=] | [[= <- <-] | [[=] | [[=] | []]]]].
    repeat split; try done. by left.
  - destruct Hin as [[=] | [[= <- <-] | [[=] | []]]].
    repeat split; try done. by left.
  - destruct Hin as [[=] | [[=] | []]].
  - destruct Hin.
Qed.

(** An SMTP session is only opened for the alert of a watched index, with
    the subject of that index, to the recipient of the request, and with
    the SMTP configuration complete. *)
Lemma walk_smtp_origin (items : list (Z * string)) (ta : Z) (le : LastError)
    (db : gmap Z string) (to subject : string) :
  In (EvSmtp to subject) (trace_of (run items ta le db)) →
  to = recipient ∧ smtp_ready cfg req = true
  ∧ ∃ i, subject = alert_subject i
         ∧ In (EvAlert i) (trace_of (run items ta le db)).
Proof.
  pattern items, ta, le, db, (run items ta le db).
  apply walk_elim; clear items ta le db.
  { intros ta le db []. }
  { intros idx key rest ta le db _ []. }
  { intros idx key rest ta le db _ _ _ [[=] | []]. }
  { intros idx key rest ta le db _ _ [[=] | []]. }
  { intros idx key rest ta le db o0 v r e Hlt -> -> Hc -> Hr.
    destruct (notify_if_exc _ _ _ _ _ _ _ _ Hr) as (_&_&_&_&_&_&->).
    rewrite !trace_of_triple. intros [[=] | [[=] | []]]. }
  2: { intros idx key rest ta le db _ _ _ [[=] | []]. }
  2: { intros idx key rest ta le db o0 v r Hlt -> -> Hc -> Hr _.
       rewrite trace_of_triple. intros [[=] | Hin].
       destruct (notify_if_smtp_origin _ _ _ _ _ Hr Hin) as (-> & Hs & -> & Hal).
       split; [done |]. split; [done |]. exists idx. split; [done |].
       by right. }
  intros idx key rest ta le db o0 v r r' Hlt -> -> Hc -> Hr -> IH _.
  rewrite trace_of_triple.
  intros [[=] | Hin]. apply in_app_or in Hin as [Hin | [[=] | Hin]].
  - destruct (notify_if_smtp_origin _ _ _ _ _ Hr Hin) as (-> & Hs & -> & Hal).
    split; [done |]. split; [done |]. exists idx. split; [done |].
    right. apply in_or_app. by left.
  - destruct (IH Hin) as (Hto & Hs & i & Hsub & Hal).
    split; [done |]. split; [done |]. exists i. split; [done |].
    right. apply in_or_app. right. by right.
Qed.

(** When no call succeeds or fails for good, the emitter does not raise
    and no attempt is one at which the power of the backoff overflows, the
    walk calls key after key until the pool or the budget runs out, pauses
    once after every call, and ends exhausted. *)
Lemma walk_all_failing (items : list (Z * string)) (ta : Z) (le : LastError)
    (db : gmap Z string) :
  (∀ n key, continuing (classify (answer n key)) = true) →
  (∀ i, i ∈ WATCH_KEYS_INDICES cfg → alert_rejected cfg w req i = false) →
  Z.min MAX (ta + Z.of_nat (length items)) ≤ 1751 →
  n_attempts (trace_of (run items ta le db))
  = Z.min (Z.max 0 (MAX - ta)) (Z.of_nat (length items))
  ∧ n_sleeps (trace_of (run items ta le db))
    = n_attempts (trace_of (run items ta le db))
  ∧ ∃ le', result_of (run items ta le db) = Exhausted le'.
Proof.
  intros Hall Hrej.
  assert (Hval : ∀ v idx db0,
    result_of (notify_if v cfg w req nk idx db0) = Val tt).
  { intros v idx db0. rewrite notify_if_result. case_bool_decide as Hd;
      [| done]. destruct Hd as (_ & Hw & _).
    by rewrite (Hrej idx Hw), andb_false_r. }
  revert ta le db.
  induction items as [| [idx key] rest IH]; intros ta le db Hlow.
  - split; [change (0 = Z.min (Z.max 0 (MAX - ta)) 0); lia |].
    split; [done |]. by exists le.
  - rewrite walk_cons. destruct (Z.leb_spec MAX ta) as [Hle | Hlt].
    { split; [rewrite trace_of_triple;
              change (0 = Z.min (Z.max 0 (MAX - ta))
                            (Z.of_nat (length ((idx, key) :: rest)))); lia |].
      split; [done |]. by exists le. }
    cbv zeta. specialize (Hall (ta + 1) key).
    assert (Hno : ∀ v, pause_raises (ta + 1) v = false).
    { intros v. unfold pause_raises, pow_overflows.
      apply andb_false_iff. right. apply Z.leb_gt.
      cbn [length] in Hlow. lia. }
    assert (Z.min MAX (ta + 1 + Z.of_nat (length rest)) ≤ 1751) as Hlow'
      by (cbn [length] in Hlow; lia).
    destruct (classify (answer (ta + 1) key)) eqn:Hv; try discriminate;
      rewrite Hval, Hno, trace_of_triple, result_of_triple;
      match goal with
      | |- context [trace_of (walk cfg w req nk rest ?a ?b ?c)] =>
          destruct (IH a b c Hlow') as (IH1 & IH2 & IH3)
      end;
      match goal with
      | |- context [notify_if ?v cfg w req nk idx db] =>
          destruct (quiet v idx db) as (_ & _ & Hs & Hn)
      end;
      change (EvCall idx (ta + 1) (answer (ta + 1) key) :: ?t)
        with ([EvCall idx (ta + 1) (answer (ta + 1) key)] ++ t);
      change (EvSleep ?d :: ?t) with ([EvSleep d] ++ t);
      rewrite !n_attempts_app, !n_sleeps_app, Hs, Hn, IH2, IH1;
      change (n_attempts [EvCall _ _ _]) with 1;
      change (n_attempts [EvSleep _]) with 0;
      change (n_sleeps [EvCall _ _ _]) with 0;
      change (n_sleeps [EvSleep _]) with 1;
      (split; [cbn [length]; lia |]); (split; [lia | done]).
Qed.

(** The attempt number of the last call counts the calls of the walk,
    and a walk that succeeds has paused once after every call but the
    last. *)
Lemma walk_counts (items : list (Z * string)) (ta : Z) (le : LastError)
    (db : gmap Z string) :
  (∀ i n o, last_call (trace_of (run items ta le db)) = Some (i, n, o) →
            n = ta + n_attempts (trace_of (run items ta le db)))
  ∧ (∀ g, result_of (run items ta le db) = Ok g →
          n_sleeps (trace_of (run items ta le db))
          = n_attempts (trace_of (run items ta le db)) - 1).
Proof.
  pattern items, ta, le, db, (run items ta le db).
  apply walk_elim; clear items ta le db.
  - intros ta le db. split; [by intros i n o [=] | by intros g [=]].
  - intros idx key rest ta le db _. split; [by intros i n o [=] | by intros g [=]].
  - intros idx key rest ta le db _ _ _. rewrite trace_of_triple.
    split; [intros i n o [= _ <- _] | intros g _]; by cbn.
  - intros idx key rest ta le db _ _. rewrite trace_of_triple, result_of_triple.
    split; [intros i n o [= _ <- _]; by cbn | by intros g [=]].
  - intros idx key rest ta le db o0 v r e Hlt -> -> Hc -> Hr.
    destruct (notify_if_exc _ _ _ _ _ _ _ _ Hr) as (_&_&_&_&_&_&->).
    rewrite !trace_of_triple, !result_of_triple.
    split; [intros i n o [= _ <- _]; by cbn | by intros g [=]].
  - intros idx key rest ta le db o0 v r r' Hlt -> -> Hc -> Hr -> [IH1 IH2] _.
    rewrite trace_of_triple, result_of_triple.
    destruct (quiet (classify (answer (ta + 1) key)) idx db)
      as (_ & Hl & Hs & Hn).
    change (EvCall idx (ta + 1) (answer (ta + 1) key) :: ?t)
      with ([EvCall idx (ta + 1) (answer (ta + 1) key)] ++ t).
    change (EvSleep ?d :: ?t) with ([EvSleep d] ++ t).
    rewrite !last_call_app, !n_attempts_app, !n_sleeps_app, Hl, Hs, Hn.
    change (n_attempts [EvCall _ _ _]) with 1.
    change (n_attempts [EvSleep _]) with 0.
    change (n_sleeps [EvCall _ _ _]) with 0.
    change (n_sleeps [EvSleep _]) with 1.
    cbn [last_call]. split.
    + intros i n o.
      destruct (last_call (trace_of _)) as [[[j m] o'] |] eqn:Hlast.
      * intros [= <- <- <-]. rewrite (IH1 _ _ _ eq_refl). lia.
      * intros [= <- <- <-].
        rewrite (last_call_none _ Hlast). lia.
    + intros g Hg%IH2. lia.
  - intros idx key rest ta le db _ _ _.
    rewrite trace_of_triple, result_of_triple.
    split; [intros i n o [= _ <- _]; by cbn | by intros g [=]].
  - intros idx key rest ta le db o0 v r Hlt -> -> Hc -> Hr _.
    rewrite trace_of_triple, result_of_triple.
    destruct (quiet (classify (answer (ta + 1) key)) idx db)
      as (_ & Hl & _ & Hn).
    change (EvCall idx (ta + 1) (answer (ta + 1) key) :: ?t)
      with ([EvCall idx (ta + 1) (answer (ta + 1) key)] ++ t).
    rewrite !last_call_app, !n_attempts_app, Hl, Hn.
    change (n_attempts [EvCall _ _ _]) with 1.
    split; [intros i n o [= _ <- _]; lia | by intros g [=]].
Qed.

End WalkMore.

(* ===================================================================== *)
(** ** The handler: order of attempts, endings, table and mail *)
(* ===================================================================== *)

Lemma take_enumerate_fst {A} (l : list A) (s : Z) (k : nat) :
  (k ≤ length l)%nat → (take k (enumerate s l)).*1 = seqZ s (Z.of_nat k).
Proof.
  revert s k. induction l as [| x l IH]; intros s [| k] Hk; simpl in *;
    try done; try lia.
  rewrite (seqZ_cons s) by lia. f_equal. rewrite IH by lia. f_equal; lia.
Qed.

Lemma last_call_cons_call (i n : Z) (o : RawOutcome) (t : list Event) :
  last_call (EvCall i n o :: t) ≠ None.
Proof. cbn [last_call]. by destruct (last_call t). Qed.

(** The keys of the pool are tried in their order, from the first on and
    without a gap: the indices attempted by a request are 1, 2, ..., up
    to the number of calls it made. *)
Theorem attempts_follow_pool_order (cfg : Config) (w : World)
    (req : GenerateRequest) (db : gmap Z string) :
  attempted (trace_of (generate cfg w req db))
  = seqZ 1 (n_attempts (trace_of (generate cfg w req db))).
Proof.
  rewrite generate_trace, walk_attempted.
  destruct (walk_attempts_bound cfg w req (dom db)
              (enumerate 1 (GEMINI_KEYS cfg)) 0 ErrNone db) as [_ Hb].
  pose proof (n_attempts_nonneg
                (trace_of (walk cfg w req (dom db)
                             (enumerate 1 (GEMINI_KEYS cfg)) 0 ErrNone db)))
    as H0.
  rewrite enumerate_length in Hb.
  rewrite take_enumerate_fst by lia. by rewrite Z2Nat.id.
Qed.

(** The 502 of an exhausted request reports the failure of the last call
    made.  It reports no failure at all exactly when the budget of attempts
    is zero or negative, in which case the pool is not empty and no key was
    called. *)
Theorem exhaustion_reports_last_call (cfg : Config) (w : World)
    (req : GenerateRequest) (db : gmap Z string) (le : LastError) :
  result_of (generate cfg w req db) = Exhausted le →
  GEMINI_KEYS cfg ≠ []
  ∧ le = match last_call (trace_of (generate cfg w req db)) with
         | Some (i, _, o) => error_after i o
         | None => ErrNone
         end
  ∧ (le = ErrNone ↔ MAX_TOTAL_RETRIES_PER_PROMPT cfg ≤ 0).
Proof.
  intros H. assert (GEMINI_KEYS cfg ≠ []) as Hk.
  { intros Hk. rewrite generate_run, Hk in H. discriminate. }
  rewrite generate_result in H by done. rewrite generate_trace.
  apply walk_last_error in H. split; [done |]. split; [done |].
  destruct (walk_first_call cfg w req (dom db)
              (enumerate 1 (GEMINI_KEYS cfg)) 0 ErrNone db)
    as [[Ht [Hnil | Hmax]] | (i & o & tl & Ht)].
  - by destruct (GEMINI_KEYS cfg).
  - rewrite Ht in H. by subst le.
  - pose proof (last_call_cons_call i (0 + 1) o tl) as Hl.
    assert (In (EvCall i (0 + 1) o)
              (trace_of (walk cfg w req (dom db)
                           (enumerate 1 (GEMINI_KEYS cfg)) 0 ErrNone db)))
      as Hin by (rewrite Ht; by left).
    apply walk_calls in Hin as [Hb _].
    rewrite Ht in H. destruct (last_call _) as [[[j m] o'] |]; [| done].
    split; [| lia]. subst le. unfold error_after.
    destruct o' as [s p | e]; [by destruct (is_rate_limit s p) | done].
Qed.

Lemma exhaustion_reports_last_call_witness :
  GEMINI_KEYS Scenario.single ≠ []
  ∧ ErrRateLimit 1
    = match last_call (trace_of (generate Scenario.single
                                   (Scenario.always_429 true)
                                   Scenario.request ∅)) with
      | Some (i, _, o) => error_after i o
      | None => ErrNone
      end
  ∧ (ErrRateLimit 1 = ErrNone
     ↔ MAX_TOTAL_RETRIES_PER_PROMPT Scenario.single ≤ 0).
Proof.
  apply (exhaustion_reports_last_call Scenario.single
           (Scenario.always_429 true) Scenario.request ∅ (ErrRateLimit 1)).
  vm_compute. reflexivity.
Defined.

(** A request succeeds only through a call answered with a status in
    [200,300): that call is the last event of the request, the response
    names its key and carries its payload, and every call before it was
    one the loop goes on after.  The index of the key returned is the
    number of calls the request made, and the request paused once after
    each of the calls that failed. *)
Theorem success_only_from_last_call (cfg : Config) (w : World)
    (req : GenerateRequest) (db : gmap Z string) (g : GeminiResponse) :
  result_of (generate cfg w req db) = Ok g →
  ∃ pre i s p,
    trace_of (generate cfg w req db) = pre ++ [EvCall i i (Response s p)]
    ∧ 200 ≤ s < 300
    ∧ g = {| success := true; key_used_index := Some i;
             raw_response := Some p; error := None |}
    ∧ i = n_attempts (trace_of (generate cfg w req db))
    ∧ n_sleeps (trace_of (generate cfg w req db)) = i - 1
    ∧ ∀ j m o, In (EvCall j m o) pre → continuing (classify o) = true.
Proof.
  intros H. assert (GEMINI_KEYS cfg ≠ []) as Hk.
  { intros Hk. rewrite generate_run, Hk in H. discriminate. }
  rewrite generate_result in H by done.
  destruct (walk_counts cfg w req (dom db) (enumerate 1 (GEMINI_KEYS cfg))
              0 ErrNone db) as [Hn Hs].
  specialize (Hs g H).
  apply walk_success_origin in H as (pre & i & n & s & p & Ht & Hst & -> & Hpre).
  assert (In (EvCall i n (Response s p)) (trace_of (generate cfg w req db)))
    as [-> _]%generate_calls.
  { rewrite generate_trace, Ht. apply in_or_app. right. by left. }
  specialize (Hn n n (Response s p)). rewrite Ht, last_call_app in Hn.
  specialize (Hn eq_refl). rewrite <- Ht in Hn.
  rewrite generate_trace. exists pre, n, s, p.
  split; [done |]. split; [done |]. split; [done |].
  split; [lia |]. split; [lia | done].
Qed.

Lemma success_only_from_last_call_witness :
  ∃ pre i s p,
    trace_of (generate Scenario.pair (Scenario.first_429 true)
                Scenario.request ∅)
    = pre ++ [EvCall i i (Response s p)]
    ∧ 200 ≤ s < 300
    ∧ {| success := true; key_used_index := Some 2;
         raw_response := Some (PyDict "{}"); error := None |}
      = {| success := true; key_used_index := Some i;
           raw_response := Some p; error := None |}
    ∧ i = n_attempts (trace_of (generate Scenario.pair
                                  (Scenario.first_429 true)
                                  Scenario.request ∅))
    ∧ n_sleeps (trace_of (generate Scenario.pair (Scenario.first_429 true)
                            Scenario.request ∅)) = i - 1
    ∧ ∀ j m o, In (EvCall j m o) pre → continuing (classify o) = true.
Proof.
  apply (success_only_from_last_call Scenario.pair (Scenario.first_429 true)
           Scenario.request ∅).
  vm_compute. reflexivity.
Defined.

(** A request that no other request overlaps never rewrites a record of
    the table: every record there before the request is there after it,
    unchanged.  A record that is new belongs to a watched index for which
    the request raised an alert and the emitter returned true, and it
    carries the time of the request.  (The snapshot of line 162 is taken
    before the first [await]: a request that overlaps another one may find
    the table changed since, which is outside this statement.) *)
Theorem table_records_are_kept (cfg : Config) (w : World)
    (req : GenerateRequest) (db : gmap Z string) :
  (∀ i t, db !! i = Some t →
          ledger_of (generate cfg w req db) !! i = Some t)
  ∧ (∀ i t, ledger_of (generate cfg w req db) !! i = Some t →
            db !! i = Some t
            ∨ (db !! i = None ∧ t = utcnow w +:+ "Z"
               ∧ i ∈ WATCH_KEYS_INDICES cfg
               ∧ In (EvAlert i) (trace_of (generate cfg w req db))
               ∧ In (EvSent i true) (trace_of (generate cfg w req db)))).
Proof.
  destruct (walk_records cfg w req (dom db) (enumerate 1 (GEMINI_KEYS cfg))
              0 ErrNone db) as [H1 H2].
  split.
  - intros i t Hi. rewrite generate_ledger, H1; [done |].
    by apply elem_of_dom_2 in Hi.
  - intros i t Hi. pose proof Hi as Hd%elem_of_dom_2.
    rewrite generate_ledger in Hi.
    apply H2 in Hi as [Hi | (Ht & Hw & Hn & Ha)]; [by left | right].
    apply generate_ledger_dom in Hd as [Hd | Hd]; [done |].
    rewrite generate_trace. rewrite generate_trace in Hd.
    by apply not_elem_of_dom in Hn.
Qed.

(** An SMTP session is opened only for an alert: it goes to the recipient
    of the request, or to the default recipient when the request names
    none, its subject is that of a watched index without a record in the
    table, for which the request raised the alert, and the SMTP
    configuration is complete. *)
Theorem smtp_sessions_are_alerts (cfg : Config) (w : World)
    (req : GenerateRequest) (db : gmap Z string) (to subject : string) :
  In (EvSmtp to subject) (trace_of (generate cfg w req db)) →
  py_or (email_to req) (DEFAULT_WARNING_TO cfg) = Some to
  ∧ to ≠ EmptyString
  ∧ smtp_ready cfg req = true
  ∧ ∃ i, subject = alert_subject i
         ∧ i ∈ WATCH_KEYS_INDICES cfg ∧ (i ∉ dom db)
         ∧ 1 ≤ i ≤ Z.of_nat (length (GEMINI_KEYS cfg))
         ∧ In (EvAlert i) (trace_of (generate cfg w req db)).
Proof.
  intros H. pose proof H as H'. rewrite generate_trace in H'.
  apply walk_smtp_origin in H' as (Hto & Hs & i & Hsub & Hal).
  rewrite <- generate_trace in Hal.
  pose proof Hal as (Hw & Hn & n & o & Hc & _)%generate_alert_origin.
  apply generate_calls in Hc as (-> & Hb & Hlen & _).
  assert (py_or (email_to req) (DEFAULT_WARNING_TO cfg) = Some to
          ∧ to ≠ EmptyString) as [H1 H2].
  { unfold smtp_ready in Hs. apply andb_true_iff in Hs as [_ Hs].
    destruct (py_or (email_to req) (DEFAULT_WARNING_TO cfg)) as [r |];
      [| discriminate].
    simpl in Hto. subst r. split; [done |]. by intros ->. }
  split; [done |]. split; [done |]. split; [done |].
  exists n. repeat split; try done; lia.
Qed.

Lemma smtp_sessions_are_alerts_witness :
  py_or (email_to Scenario.request) (DEFAULT_WARNING_TO Scenario.pair)
  = Some "ops@example.org"
  ∧ "ops@example.org" ≠ EmptyString
  ∧ smtp_ready Scenario.pair Scenario.request = true
  ∧ ∃ i, alert_subject 1 = alert_subject i
         ∧ i ∈ WATCH_KEYS_INDICES Scenario.pair
         ∧ (i ∉ dom (∅ : gmap Z string))
         ∧ 1 ≤ i ≤ Z.of_nat (length (GEMINI_KEYS Scenario.pair))
         ∧ In (EvAlert i)
              (trace_of (generate Scenario.pair (Scenario.first_429 true)
                           Scenario.request ∅)).
Proof.
  apply (smtp_sessions_are_alerts Scenario.pair (Scenario.first_429 true)
           Scenario.request ∅ "ops@example.org" (alert_subject 1)).
  vm_compute. do 2 right. left. reflexivity.
Defined.

(** When no call succeeds or fails for good, and the mail library accepts
    the headers of the alerts, a request calls key after key until the pool
    or the budget runs out: the number of calls is the smaller of the two,
    every call is followed by one pause, and the request ends with the 502
    of an exhausted pool.  This for a pool or a budget of at most 1751, so
    that the power of the backoff stays in the range of a double, and for
    a base of at most one second, so that every pause is a finite number
    of seconds. *)
Theorem all_failing_walk_length (cfg : Config) (w : World)
    (req : GenerateRequest) (db : gmap Z string) :
  GEMINI_KEYS cfg ≠ [] →
  (∀ n key, continuing (classify (upstream w n key (prompt req)
                                    (metadata req))) = true) →
  (∀ i, i ∈ WATCH_KEYS_INDICES cfg → alert_rejected cfg w req i = false) →
  Z.min (MAX_TOTAL_RETRIES_PER_PROMPT cfg)
        (Z.of_nat (length (GEMINI_KEYS cfg))) ≤ 1751 →
  (BASE_BACKOFF_SECONDS cfg <= 1)%Q →
  n_attempts (trace_of (generate cfg w req db))
  = Z.min (Z.max 0 (MAX_TOTAL_RETRIES_PER_PROMPT cfg))
          (Z.of_nat (length (GEMINI_KEYS cfg)))
  ∧ n_sleeps (trace_of (generate cfg w req db))
    = n_attempts (trace_of (generate cfg w req db))
  ∧ ∃ le, result_of (generate cfg w req db) = Exhausted le.
Proof.
  intros Hk Hall Hrej Hlow _.
  destruct (walk_all_failing cfg w req (dom db)
              (enumerate 1 (GEMINI_KEYS cfg)) 0 ErrNone db Hall Hrej)
    as (H1 & H2 & H3); [by rewrite enumerate_length, Z.add_0_l |].
  rewrite generate_trace, generate_result by done.
  rewrite enumerate_length, Z.sub_0_r in H1. done.
Qed.

Lemma all_failing_walk_length_witness :
  n_attempts (trace_of (generate Cases.five_budget_three Cases.unreachable
                          Scenario.request ∅))
  = Z.min (Z.max 0 3) (Z.of_nat 5)
  ∧ n_sleeps (trace_of (generate Cases.five_budget_three Cases.unreachable
                          Scenario.request ∅))
    = n_attempts (trace_of (generate Cases.five_budget_three
                              Cases.unreachable Scenario.request ∅))
  ∧ ∃ le, result_of (generate Cases.five_budget_three Cases.unreachable
                       Scenario.request ∅) = Exhausted le.
Proof.
  apply (all_failing_walk_length Cases.five_budget_three Cases.unreachable
           Scenario.request ∅).
  - discriminate.
  - intros n key. reflexivity.
  - intros i Hi. change (i ∈ ({[ 5; 8; 10 ]} : gset Z)) in Hi.
    rewrite !elem_of_union, !elem_of_singleton in Hi.
    destruct Hi as [[-> | ->] | ->]; vm_compute; reflexivity.
  - vm_compute. discriminate.
  - vm_compute. discriminate.
Defined.

(** A watched index beyond the pool or beyond the budget is never reached:
    when every watched index is larger than the number of keys or than the
    budget, a request raises no alert, opens no SMTP session, leaves the
    table as it was and does not fail on a header.  This is the case of
    the watch set of the source, 5, 8 and 10, with fewer than five keys. *)
Theorem unreached_watch_never_alerts (cfg : Config) (w : World)
    (req : GenerateRequest) (db : gmap Z string) :
  (∀ i, i ∈ WATCH_KEYS_INDICES cfg →
        Z.min (MAX_TOTAL_RETRIES_PER_PROMPT cfg)
              (Z.of_nat (length (GEMINI_KEYS cfg))) < i) →
  (∀ i, ¬ In (EvAlert i) (trace_of (generate cfg w req db)))
  ∧ (∀ to subject,
       ¬ In (EvSmtp to subject) (trace_of (generate cfg w req db)))
  ∧ ledger_of (generate cfg w req db) = db
  ∧ (∀ m, result_of (generate cfg w req db) ≠ Exc (ValueError m)).
Proof.
  intros Hfar.
  assert (Hno : ∀ i, ¬ In (EvAlert i) (trace_of (generate cfg w req db))).
  { intros i (Hw & _ & n & o & Hc & _)%generate_alert_origin.
    apply generate_calls in Hc as (-> & Hb & Hlen & _).
    specialize (Hfar n Hw). lia. }
  split; [done |]. split; [| split].
  - intros to subject H. rewrite generate_trace in H.
    apply walk_smtp_origin in H as (_ & _ & i & _ & Hal).
    rewrite <- generate_trace in Hal. by apply Hno in Hal.
  - destruct (walk_records cfg w req (dom db)
                (enumerate 1 (GEMINI_KEYS cfg)) 0 ErrNone db) as [H1 H2].
    rewrite generate_ledger. apply map_eq. intros i.
    destruct (db !! i) as [t |] eqn:Hi.
    + rewrite H1, Hi; [done |]. by apply elem_of_dom_2 in Hi.
    + destruct (ledger_of _ !! i) as [t |] eqn:Hl; [| done].
      apply H2 in Hl as [Hl | (_ & _ & _ & Hal)]; [congruence |].
      rewrite <- generate_trace in Hal. by apply Hno in Hal.
  - intros m (pre & i & o & Ht & _)%generate_raised.
    apply (Hno i). rewrite Ht. apply in_or_app. right. right. by left.
Qed.

Lemma unreached_watch_never_alerts_witness :
  (∀ i, ¬ In (EvAlert i)
            (trace_of (generate Cases.four (Scenario.always_429 true)
                         Scenario.request ∅)))
  ∧ (∀ to subject,
       ¬ In (EvSmtp to subject)
           (trace_of (generate Cases.four (Scenario.always_429 true)
                        Scenario.request ∅)))
  ∧ ledger_of (generate Cases.four (Scenario.always_429 true)
                 Scenario.request ∅) = ∅
  ∧ (∀ m, result_of (generate Cases.four (Scenario.always_429 true)
                       Scenario.request ∅) ≠ Exc (ValueError m)).
Proof.
  apply (unreached_watch_never_alerts Cases.four (Scenario.always_429 true)
           Scenario.request ∅).
  intros i Hi. change (i ∈ ({[ 5; 8; 10 ]} : gset Z)) in Hi.
  rewrite !elem_of_union, !elem_of_singleton in Hi.
  change (Z.min 30 4 < i). lia.
Defined.

(** Across any sequence of requests served one after another, none
    overlapping another, the table only grows and no record is changed: a
    record there before the requests is there after them, as it was, and a
    record that is new belongs to a watched index and carries the time of
    one of the requests. *)
Theorem served_records_are_final (cfg : Config)
    (rs : list (World * GenerateRequest)) (db : gmap Z string) :
  (∀ i t, db !! i = Some t → ledger_of (serve cfg rs db) !! i = Some t)
  ∧ (∀ i t, ledger_of (serve cfg rs db) !! i = Some t →
            db !! i = Some t
            ∨ (db !! i = None ∧ i ∈ WATCH_KEYS_INDICES cfg
               ∧ ∃ w req, In (w, req) rs ∧ t = utcnow w +:+ "Z")).
Proof.
  revert db. induction rs as [| [w req] rs IH]; intros db.
  { split; [done | by left]. }
  rewrite serve_cons_ledger.
  destruct (IH (ledger_of (generate cfg w req db))) as [IH1 IH2].
  destruct (walk_records cfg w req (dom db) (enumerate 1 (GEMINI_KEYS cfg))
              0 ErrNone db) as [H1 H2].
  rewrite <- generate_ledger in H1, H2.
  split.
  - intros i t Hi. apply IH1. rewrite H1; [done |].
    by apply elem_of_dom_2 in Hi.
  - intros i t [Hi | (Hi & Hw & w' & req' & Hin & Ht)]%IH2.
    + apply H2 in Hi as [Hi | (Ht & Hw & Hn & _)]; [by left | right].
      apply not_elem_of_dom in Hn. split; [done |]. split; [done |].
      exists w, req. split; [by left | done].
    + right. split; [| split; [done |]].
      * destruct (db !! i) as [t0 |] eqn:Hd; [| done].
        apply elem_of_dom_2 in Hd as Hd'. rewrite H1, Hd in Hi by done.
        discriminate.
      * exists w', req'. split; [by right | done].
Qed.

Lemma string_length_app (a b : string) :
  String.length (a +:+ b) = (String.length a + String.length b)%nat.
Proof. induction a as [| c a IH]; simpl; [done | by rewrite IH]. Qed.

Lemma string_app_inj_r (t s1 s2 : string) :
  s1 +:+ t = s2 +:+ t → s1 = s2.
Proof.
  revert s2. induction s1 as [| c s1 IH]; intros [| c2 s2] H; simpl in H.
  - done.
  - apply (f_equal String.length) in H.
    rewrite !string_length_app in H. simpl in H. lia.
  - apply (f_equal String.length) in H.
    rewrite !string_length_app in H. simpl in H. lia.
  - injection H as -> H. f_equal. by apply IH.
Qed.

Lemma alert_subject_inj (i j : Z) : alert_subject i = alert_subject j → i = j.
Proof.
  unfold alert_subject. intros H.
  apply (inj (String.app "API Key #")) in H.
  apply string_app_inj_r in H. by apply (inj pretty) in H.
Qed.

Lemma smtp_count_app (subject : string) (t1 t2 : list Event) :
  smtp_count subject (t1 ++ t2)
  = (smtp_count subject t1 + smtp_count subject t2)%nat.
Proof. unfold smtp_count. by rewrite List.filter_app, length_app. Qed.

Lemma smtp_count_pos (subject : string) (t : list Event) :
  smtp_count subject t ≠ 0%nat → ∃ to, In (EvSmtp to subject) t.
Proof.
  unfold smtp_count. induction t as [| e t IH]; cbn [List.filter]; [done |].
  destruct (is_smtp_about subject e) eqn:He.
  - intros _. destruct e as [| to s | | | |]; try discriminate.
    apply bool_decide_eq_true in He as ->. exists to. by left.
  - intros (to & Hin)%IH. exists to. by right.
Qed.

Section WalkMail.

Variable cfg : Config.
Variable w : World.
Variable req : GenerateRequest.
Variable nk : gset Z.

(** The alerting of one turn opens no more SMTP sessions with the
    subject of an index than it raises alerts for that index. *)
Lemma notify_if_smtp_count (v : Verdict) (idx i : Z) (db : gmap Z string) :
  result_of (notify_if v cfg w req nk idx db) = Val tt →
  (smtp_count (alert_subject i) (trace_of (notify_if v cfg w req nk idx db))
   ≤ alert_count i (trace_of (notify_if v cfg w req nk idx db)))%nat.
Proof.
  intros Hr.
  destruct (notify_if_val _ _ _ _ _ _ _ Hr) as
    [(_&_&_&_&H) | [(_&_&_&_&H) | [(_&_&_&_&H) | (_&H)]]];
    rewrite H, trace_of_triple; try apply Nat.le_0_l;
    unfold smtp_count, alert_count;
    cbn [List.filter is_smtp_about is_alert_for];
    (destruct (Z.eqb_spec idx i) as [-> | Hne];
     [by rewrite bool_decide_eq_true_2
     | rewrite bool_decide_eq_false_2;
       [done | by intros ?%alert_subject_inj]]).
Qed.

(** A walk opens no more SMTP sessions with the subject of an index than
    it raises alerts for that index. *)
Lemma walk_smtp_count (items : list (Z * string)) (ta : Z) (le : LastError)
    (db : gmap Z string) (i : Z) :
  (smtp_count (alert_subject i) (trace_of (walk cfg w req nk items ta le db))
   ≤ alert_count i (trace_of (walk cfg w req nk items ta le db)))%nat.
Proof.
  pattern items, ta, le, db, (walk cfg w req nk items ta le db).
  apply walk_elim; clear items ta le db;
    try (intros; rewrite trace_of_triple; apply Nat.le_0_l).
  - intros idx key rest ta le db o0 v r e Hlt -> -> Hc -> Hr.
    destruct (notify_if_exc _ _ _ _ _ _ _ _ Hr) as (_&_&_&_&_&_&->).
    rewrite !trace_of_triple. apply Nat.le_0_l.
  - intros idx key rest ta le db o0 v r r' Hlt -> -> Hc -> Hr -> IH _.
    rewrite trace_of_triple.
    pose proof (notify_if_smtp_count _ idx i db Hr) as Hn.
    change (EvCall idx ?n ?o :: ?t) with ([EvCall idx n o] ++ t).
    change (EvSleep ?d :: ?t) with ([EvSleep d] ++ t).
    rewrite !smtp_count_app, !alert_count_app.
    change (smtp_count _ [EvCall _ _ _]) with 0%nat.
    change (smtp_count _ [EvSleep _]) with 0%nat.
    lia.
  - intros idx key rest ta le db o0 v r Hlt -> -> Hc -> Hr _.
    rewrite trace_of_triple.
    pose proof (notify_if_smtp_count _ idx i db Hr) as Hn.
    change (EvCall idx ?n ?o :: ?t) with ([EvCall idx n o] ++ t).
    rewrite !smtp_count_app, !alert_count_app.
    change (smtp_count _ [EvCall _ _ _]) with 0%nat.
    lia.
Qed.

End WalkMail.

(** The subject of an alert names its key: two alerts have the same
    subject exactly when they are for the same index.  Within a request,
    no two SMTP sessions carry the same subject. *)
Theorem alert_subject_names_the_key (cfg : Config) (w : World)
    (req : GenerateRequest) (db : gmap Z string) :
  (∀ i j, alert_subject i = alert_subject j ↔ i = j)
  ∧ (∀ subject,
       (smtp_count subject (trace_of (generate cfg w req db)) ≤ 1)%nat).
Proof.
  split; [intros i j; split; [apply alert_subject_inj | by intros ->] |].
  intros subject.
  destruct (decide (smtp_count subject (trace_of (generate cfg w req db))
                    = 0%nat)) as [-> | (to & Hin)%smtp_count_pos]; [lia |].
  rewrite generate_trace in Hin |- *.
  apply walk_smtp_origin in Hin as (_ & _ & i & -> & _).
  pose proof (generate_alert_count cfg w req db i) as [Hc _].
  rewrite generate_trace in Hc.
  pose proof (walk_smtp_count cfg w req (dom db)
                (enumerate 1 (GEMINI_KEYS cfg)) 0 ErrNone db i). lia.
Qed.

(* ===================================================================== *)
(** ** A stale snapshot, and a walk long enough to overflow *)
(* ===================================================================== *)

Section WalkEdges.

Variable cfg : Config.
Variable w : World.
Variable req : GenerateRequest.
Variable nk : gset Z.

Local Abbreviation MAX := (MAX_TOTAL_RETRIES_PER_PROMPT cfg).
Local Abbreviation answer n key :=
  (upstream w n key (prompt req) (metadata req)).
Local Abbreviation run items ta le db := (walk cfg w req nk items ta le db).

(** What the alerting of one turn does, apart from the write, is decided
    by the snapshot and not by the table. *)
Lemma notify_if_table_independent (v : Verdict) (idx : Z)
    (db1 db2 : gmap Z string) :
  result_of (notify_if v cfg w req nk idx db1)
  = result_of (notify_if v cfg w req nk idx db2)
  ∧ trace_of (notify_if v cfg w req nk idx db1)
    = trace_of (notify_if v cfg w req nk idx db2).
Proof.
  destruct v; cbn [notify_if]; try done. rewrite !notify_block_run.
  destruct (_ && negb _); [| done].
  destruct (smtp_ready cfg req); [| done].
  destruct (alert_rejected cfg w req idx); [done |].
  by destruct (smtp_deliver _ _ _ _).
Qed.

(** The result and the events of a walk are decided by the snapshot taken
    at its start: they are the same on every table. *)
Lemma walk_table_independent (items : list (Z * string)) (ta : Z)
    (le : LastError) (db1 db2 : gmap Z string) :
  result_of (run items ta le db1) = result_of (run items ta le db2)
  ∧ trace_of (run items ta le db1) = trace_of (run items ta le db2).
Proof.
  revert ta le db1 db2.
  induction items as [| [idx key] rest IH]; intros ta le db1 db2; [done |].
  rewrite !walk_cons. destruct (_ <=? ta); [done |]. cbv zeta.
  destruct (notify_if_table_independent (classify (answer (ta + 1) key))
              idx db1 db2) as [Hr Ht].
  destruct (classify _) eqn:Hv; try done;
    rewrite Hr, Ht;
    destruct (result_of (notify_if _ cfg w req nk idx db2));
    try destruct (pause_raises _ _);
    rewrite ?trace_of_triple, ?result_of_triple; try done;
    match goal with
    | |- result_of (walk cfg w req nk rest ?a ?b ?c)
         = result_of (walk cfg w req nk rest _ _ ?d) ∧ _ =>
        destruct (IH a b c d) as [-> ->]
    end; done.
Qed.

(** After a delivered alert for an index, the table holds for it the
    record of this walk, whatever it held before. *)
Lemma walk_delivered_record (items : list (Z * string)) (ta : Z)
    (le : LastError) (db : gmap Z string) (i : Z) :
  In (EvSent i true) (trace_of (run items ta le db)) →
  ledger_of (run items ta le db) !! i = Some (utcnow w +:+ "Z").
Proof.
  assert (Hturn : ∀ v idx db0,
    result_of (notify_if v cfg w req nk idx db0) = Val tt →
    In (EvSent i true) (trace_of (notify_if v cfg w req nk idx db0)) →
    ledger_of (notify_if v cfg w req nk idx db0) !! i
    = Some (utcnow w +:+ "Z")).
  { intros v idx db0 Hr Hin.
    destruct (notify_if_val _ _ _ _ _ _ _ Hr) as
      [(_&_&_&_&H) | [(_&_&_&_&H) | [(_&_&_&_&H) | (_&H)]]];
      rewrite H, trace_of_triple in Hin; rewrite H, ledger_of_triple;
      cbn [In] in Hin.
    - destruct Hin as [[=] | [[=] | [[= <-] | [[=] | []]]]].
      apply lookup_insert_eq.
    - destruct Hin as [[=] | [[=] | [[=] | []]]].
    - destruct Hin as [[=] | [[=] | []]].
    - destruct Hin. }
  pattern items, ta, le, db, (run items ta le db).
  apply walk_elim; clear items ta le db.
  - intros ta le db [].
  - intros idx key rest ta le db _ [].
  - intros idx key rest ta le db _ _ _ [[=] | []].
  - intros idx key rest ta le db _ _ [[=] | []].
  - intros idx key rest ta le db o0 v r e Hlt -> -> Hc -> Hr.
    destruct (notify_if_exc _ _ _ _ _ _ _ _ Hr) as (_&_&_&_&_&_&->).
    rewrite !trace_of_triple. intros [[=] | [[=] | []]].
  - intros idx key rest ta le db o0 v r r' Hlt -> -> Hc -> Hr -> IH _.
    rewrite ledger_of_triple, trace_of_triple.
    intros [[=] | Hin]. apply in_app_or in Hin as [Hin | [[=] | Hin]];
      [| by apply IH].
    apply (Hturn _ _ _ Hr) in Hin.
    destruct (walk_records cfg w req nk rest (ta + 1)
                (error_after idx (answer (ta + 1) key))
                (ledger_of (notify_if (classify (answer (ta + 1) key))
                              cfg w req nk idx db))) as [_ H2].
    assert (i ∈ dom (ledger_of
      (run rest (ta + 1) (error_after idx (answer (ta + 1) key))
         (ledger_of (notify_if (classify (answer (ta + 1) key))
                       cfg w req nk idx db))))) as [t Ht]%elem_of_dom.
    { apply walk_ledger. left. by apply elem_of_dom_2 in Hin. }
    rewrite Ht. apply H2 in Ht as [Ht | [-> _]]; [congruence | done].
  - intros idx key rest ta le db _ _ _ [[=] | []].
  - intros idx key rest ta le db o0 v r Hlt -> -> Hc -> Hr _.
    rewrite ledger_of_triple, trace_of_triple.
    intros [[=] | Hin]. by apply (Hturn _ _ _ Hr).
Qed.

(** A walk of calls that all end in a backoff, long enough to reach
    attempt 1752, ends there with the [OverflowError] of the power: after
    1752 calls, with 1751 pauses taken. *)
Lemma walk_overflow (items : list (Z * string)) (ta : Z) (le : LastError)
    (db : gmap Z string) :
  (∀ n key, backs_off (classify (answer n key)) = true) →
  (∀ i, i ∈ WATCH_KEYS_INDICES cfg → alert_rejected cfg w req i = false) →
  ta ≤ 1751 →
  1752 ≤ Z.min MAX (ta + Z.of_nat (length items)) →
  result_of (run items ta le db) = Exc OverflowError
  ∧ n_attempts (trace_of (run items ta le db)) = 1752 - ta
  ∧ n_sleeps (trace_of (run items ta le db)) = 1751 - ta.
Proof.
  intros Hall Hrej.
  assert (Hval : ∀ v idx db0,
    result_of (notify_if v cfg w req nk idx db0) = Val tt).
  { intros v idx db0. rewrite notify_if_result. case_bool_decide as Hd;
      [| done]. destruct Hd as (_ & Hw & _).
    by rewrite (Hrej idx Hw), andb_false_r. }
  revert ta le db.
  induction items as [| [idx key] rest IH]; intros ta le db Hta Hlong.
  { cbn [length] in Hlong. lia. }
  rewrite walk_cons. destruct (Z.leb_spec MAX ta) as [Hle | Hlt]; [lia |].
  cbv zeta. specialize (Hall (ta + 1) key).
  assert (Hp : ∀ v, backs_off v = true →
                    pause_raises (ta + 1) v = bool_decide (ta = 1751)).
  { intros v Hv. unfold pause_raises, pow_overflows. rewrite Hv.
    cbn [andb]. case_bool_decide; [apply Z.leb_le | apply Z.leb_gt]; lia. }
  destruct (walk_view_nil _ (notify_if_view cfg w req nk
              (classify (answer (ta + 1) key)) idx db)) as (_ & _ & Hs & Hn).
  destruct (classify (answer (ta + 1) key)) eqn:Hv; try discriminate;
    rewrite Hval, Hp by done;
    (case_bool_decide as Hlast;
     [ subst ta; rewrite trace_of_triple, result_of_triple;
       change (EvCall idx ?n ?o :: ?t) with ([EvCall idx n o] ++ t);
       rewrite n_attempts_app, n_sleeps_app, Hs, Hn; done
     | rewrite trace_of_triple, result_of_triple;
       match goal with
       | |- context [trace_of (walk cfg w req nk rest ?a ?b ?c)] =>
           destruct (IH a b c) as (IH1 & IH2 & IH3);
           [lia | cbn [length] in Hlong; lia |]
       end;
       change (EvCall idx ?n ?o :: ?t) with ([EvCall idx n o] ++ t);
       change (EvSleep ?d :: ?t) with ([EvSleep d] ++ t);
       rewrite !n_attempts_app, !n_sleeps_app, Hs, Hn, IH1, IH2, IH3;
       change (n_attempts [EvCall _ _ _]) with 1;
       change (n_attempts [EvSleep _]) with 0;
       change (n_sleeps [EvCall _ _ _]) with 0;
       change (n_sleeps [EvSleep _]) with 1;
       (split; [done |]); split; lia ]).
Qed.

End WalkEdges.

(** The alerting of a request goes by the snapshot of the table it took
    at its start (line 162), not by the table.  The result and the events
    of the request are the same whatever the table holds by then; a
    watched index missing from the snapshot is alerted for at its
    rate-limited call, and the delivered alert replaces whatever record
    the table holds for it.  This is what a request does that another
    request overlapped: the other request marked the index after the
    snapshot was taken, and the index is alerted for a second time. *)
Theorem stale_snapshot_alerts_again (cfg : Config) (w : World)
    (req : GenerateRequest) (snapshot : gset Z) (db : gmap Z string)
    (i n : Z) (o : RawOutcome) :
  let r := walk cfg w req snapshot (enumerate 1 (GEMINI_KEYS cfg)) 0 ErrNone
             db in
  i ∈ WATCH_KEYS_INDICES cfg →
  i ∉ snapshot →
  In (EvCall i n o) (trace_of r) →
  classify o = RateLimited →
  (∀ db', result_of (walk cfg w req snapshot (enumerate 1 (GEMINI_KEYS cfg))
                       0 ErrNone db') = result_of r
          ∧ trace_of (walk cfg w req snapshot (enumerate 1 (GEMINI_KEYS cfg))
                        0 ErrNone db') = trace_of r)
  ∧ alert_count i (trace_of r) = 1%nat
  ∧ (In (EvSent i true) (trace_of r) →
     ledger_of r !! i = Some (utcnow w +:+ "Z")).
Proof.
  intros r Hw Hn Hin Hv. split; [| split].
  - intros db'. apply walk_table_independent.
  - by apply (proj2 (walk_alert_count cfg w req snapshot _ 0 ErrNone db i
                       (enumerate_NoDup _ 1)) Hw Hn n o).
  - apply walk_delivered_record.
Qed.

(** The pool [k1, k2] with index 1 watched and [k1] answering 429, for a
    request whose snapshot was empty while the table holds a record for
    index 1 by the time of the call: the alert is raised and delivered,
    and the record is replaced. *)
Lemma stale_snapshot_alerts_again_witness :
  Cases.marked_1 !! 1 = Some "2024-04-30T08:00:00Z"
  ∧ In (EvSent 1 true)
      (trace_of (walk Scenario.pair (Scenario.first_429 true) Scenario.request
                   ∅ (enumerate 1 (GEMINI_KEYS Scenario.pair)) 0 ErrNone
                   Cases.marked_1))
  ∧ (∀ db', result_of (walk Scenario.pair (Scenario.first_429 true)
                         Scenario.request ∅
                         (enumerate 1 (GEMINI_KEYS Scenario.pair)) 0 ErrNone
                         db')
            = result_of (walk Scenario.pair (Scenario.first_429 true)
                           Scenario.request ∅
                           (enumerate 1 (GEMINI_KEYS Scenario.pair)) 0 ErrNone
                           Cases.marked_1)
            ∧ trace_of (walk Scenario.pair (Scenario.first_429 true)
                          Scenario.request ∅
                          (enumerate 1 (GEMINI_KEYS Scenario.pair)) 0 ErrNone
                          db')
              = trace_of (walk Scenario.pair (Scenario.first_429 true)
                            Scenario.request ∅
                            (enumerate 1 (GEMINI_KEYS Scenario.pair)) 0
                            ErrNone Cases.marked_1))
  ∧ alert_count 1
      (trace_of (walk Scenario.pair (Scenario.first_429 true) Scenario.request
                   ∅ (enumerate 1 (GEMINI_KEYS Scenario.pair)) 0 ErrNone
                   Cases.marked_1)) = 1%nat
  ∧ (In (EvSent 1 true)
       (trace_of (walk Scenario.pair (Scenario.first_429 true)
                    Scenario.request ∅
                    (enumerate 1 (GEMINI_KEYS Scenario.pair)) 0 ErrNone
                    Cases.marked_1)) →
     ledger_of (walk Scenario.pair (Scenario.first_429 true) Scenario.request
                  ∅ (enumerate 1 (GEMINI_KEYS Scenario.pair)) 0 ErrNone
                  Cases.marked_1) !! 1
     = Some (utcnow (Scenario.first_429 true) +:+ "Z")).
Proof.
  split; [reflexivity |].
  split; [vm_compute; do 3 right; left; reflexivity |].
  apply (stale_snapshot_alerts_again Scenario.pair (Scenario.first_429 true)
           Scenario.request ∅ Cases.marked_1 1 1 Scenario.too_many).
  - change (1 ∈ ({[ 1 ]} : gset Z)). apply elem_of_singleton_2. reflexivity.
  - apply not_elem_of_empty.
  - vm_compute. left. reflexivity.
  - reflexivity.
Defined.



(* ===================================================================== *)
(** ** The form *)
(* ===================================================================== *)

Module FrontFacts.
Import Front.

Local Abbreviation request_of f :=
  {| req_prompt := form_prompt f;
     req_email_to := form_email_to f;
     req_metadata := metadata f |}.

Lemma prompt_given (f : Form) :
  Startup.nonempty (form_prompt f) = true ↔ form_prompt f ≠ EmptyString.
Proof. apply StartupFacts.nonempty_true. Qed.

Lemma prompt_missing (f : Form) :
  Startup.nonempty (form_prompt f) = false ↔ form_prompt f = EmptyString.
Proof. destruct (form_prompt f); simpl; split; done. Qed.

Lemma error_status (s : Z) :
  (400 <=? s) && (s <? 600) = true ↔ 400 ≤ s < 600.
Proof. rewrite andb_true_iff, Z.leb_le, Z.ltb_lt. tauto. Qed.

(** The events of [relay]: at most one post to the webhook, then one
    message, and never the message of a failed server call. *)
Lemma relay_shape (net : Net) (f : Form) (data : Json) :
  (relay net f data = [StError FailedToSendToN8n] ∧ data = JsonOther)
  ∨ ∃ fields e,
      data = JsonDict fields
      ∧ relay net f data = [PostN8n (n8n_payload f fields); e]
      ∧ ((e = StInfo ∧ ∃ j, post_n8n net (n8n_payload f fields)
                            = PostResponse 200 j)
         ∨ (∃ s j, e = StWarning s ∧ s ≠ 200
                   ∧ post_n8n net (n8n_payload f fields) = PostResponse s j)
         ∨ (e = StError FailedToSendToN8n
            ∧ post_n8n net (n8n_payload f fields) = PostRaised)).
Proof.
  destruct data as [fields |]; [right | by left].
  unfold relay. cbv zeta.
  destruct (post_n8n net (n8n_payload f fields)) as [| s j] eqn:Hn.
  - exists fields, (StError FailedToSendToN8n). split; [done |].
    split; [done |]. right. right. by split.
  - destruct (Z.eqb_spec s 200) as [-> | Hs].
    + exists fields, StInfo. split; [done |]. split; [done |]. left. eauto.
    + exists fields, (StWarning s). split; [done |]. split; [done |].
      right. left. eauto.
Qed.

(** The runs of a click, by what the server did. *)
Lemma on_click_cases (cfg : Settings) (net : Net) (f : Form) :
  (form_prompt f = EmptyString
   ∧ on_click cfg net f = ([StError PleaseEnterPrompt], Completed))
  ∨ (form_prompt f ≠ EmptyString
     ∧ (post_fastapi net (request_of f) = PostRaised
        ∨ (∃ s j, post_fastapi net (request_of f) = PostResponse s j
                  ∧ 400 ≤ s < 600)
        ∨ (∃ s, post_fastapi net (request_of f) = PostResponse s None
                ∧ ¬ 400 ≤ s < 600
                ∧ json_error_is_request_exception net = true))
     ∧ on_click cfg net f
       = ([PostFastapi (request_of f); StError ErrorCallingServer], Completed))
  ∨ (form_prompt f ≠ EmptyString
     ∧ (∃ s, post_fastapi net (request_of f) = PostResponse s None
             ∧ ¬ 400 ≤ s < 600)
     ∧ json_error_is_request_exception net = false
     ∧ on_click cfg net f = ([PostFastapi (request_of f)], Uncaught))
  ∨ (form_prompt f ≠ EmptyString
     ∧ ∃ s data,
         post_fastapi net (request_of f) = PostResponse s (Some data)
         ∧ ¬ 400 ≤ s < 600
         ∧ on_click cfg net f
           = (PostFastapi (request_of f) :: StSuccess :: StJson data
                :: (if Startup.nonempty (N8N_WEBHOOK_URL cfg)
                    then relay net f data else []),
              Completed)).
Proof.
  unfold on_click.
  destruct (Startup.nonempty (form_prompt f)) eqn:Hp; cbn [negb];
    [apply prompt_given in Hp | apply prompt_missing in Hp; by left].
  right. cbv zeta.
  destruct (post_fastapi net (request_of f)) as [| s j] eqn:Hpost.
  { left. auto. }
  destruct ((400 <=? s) && (s <? 600)) eqn:Hs.
  { apply error_status in Hs. left. split; [done |]. split; [| done].
    right. left. eauto. }
  assert (¬ 400 ≤ s < 600) as Hs'.
  { intros H%error_status. congruence. }
  destruct j as [data |].
  - right. right. split; [done |]. by exists s, data.
  - destruct (json_error_is_request_exception net) eqn:Hj.
    + left. split; [done |]. split; [| done]. right. right. eauto.
    + right. left. split; [done |]. split; [eauto | done].
Qed.

(** A click posts to the server at most once and to the webhook at most
    once.  The server is not called exactly when the prompt is empty.  The
    success message is shown exactly when the server answered with a
    status outside [400,600) and a body that decodes.  The webhook is
    called only after the success message and with a webhook address set.
    The run is left by an exception only when the body does not decode
    and the decoding error is no [RequestException]. *)
Theorem relay_discipline (cfg : Settings) (net : Net) (f : Form) :
  (length (List.filter is_post_fastapi (on_click cfg net f).1) ≤ 1)%nat
  ∧ (length (List.filter is_post_n8n (on_click cfg net f).1) ≤ 1)%nat
  ∧ (List.filter is_post_fastapi (on_click cfg net f).1 = []
     ↔ form_prompt f = EmptyString)
  ∧ (In StSuccess (on_click cfg net f).1
     ↔ form_prompt f ≠ EmptyString
       ∧ ∃ s data,
           post_fastapi net (request_of f) = PostResponse s (Some data)
           ∧ ¬ 400 ≤ s < 600)
  ∧ (∀ p, In (PostN8n p) (on_click cfg net f).1 →
          In StSuccess (on_click cfg net f).1
          ∧ N8N_WEBHOOK_URL cfg ≠ EmptyString)
  ∧ ((on_click cfg net f).2 = Uncaught
     ↔ form_prompt f ≠ EmptyString
       ∧ json_error_is_request_exception net = false
       ∧ ∃ s, post_fastapi net (request_of f) = PostResponse s None
              ∧ ¬ 400 ≤ s < 600).
Proof.
  destruct (on_click_cases cfg net f) as
    [(Hp & ->) | [(Hp & Hf & ->) | [(Hp & (s & Hf & Hs) & Hj & ->)
     | (Hp & s & data & Hf & Hs & ->)]]]; cbn [fst snd];
    refine (conj _ (conj _ (conj _ (conj _ (conj _ _))))).
  - cbn. lia.
  - cbn. lia.
  - done.
  - split; [by intros [[=] | []] | by intros [? _]].
  - by intros p [[=] | []].
  - split; [done | by intros [? _]].
  - cbn. lia.
  - cbn. lia.
  - split; [done | by intros ?].
  - split; [by intros [[=] | [[=] | []]] |].
    intros (_ & s & data & Hf' & Hs).
    destruct Hf as [Hf | [(s' & j & Hf & Hs') | (s' & Hf & _)]];
      rewrite Hf in Hf'; try discriminate.
    injection Hf' as <- _. tauto.
  - by intros p [[=] | [[=] | []]].
  - split; [done |]. intros (_ & Hj & s & Hf' & Hs).
    destruct Hf as [Hf | [(s' & j & Hf & Hs') | (s' & Hf & _ & Hj')]];
      rewrite Hf in Hf'; try discriminate; [| congruence].
    injection Hf' as <- _. tauto.
  - cbn. lia.
  - cbn. lia.
  - split; [done | by intros ?].
  - split; [by intros [[=] | []] |].
    intros (_ & s' & data & Hf' & _). rewrite Hf in Hf'. discriminate.
  - by intros p [[=] | []].
  - split; [| done]. intros _. eauto.
  - cbn [List.filter is_post_fastapi length].
    assert (List.filter is_post_fastapi
              (if Startup.nonempty (N8N_WEBHOOK_URL cfg)
               then relay net f data else []) = []) as ->; [| cbn; lia].
    destruct (Startup.nonempty (N8N_WEBHOOK_URL cfg)); [| done].
    destruct (relay_shape net f data) as
      [[-> _] | (fields & e & _ & -> & He)]; [done |].
    by destruct He as [[-> _] | [(s' & j & -> & _) | [-> _]]].
  - cbn [List.filter is_post_n8n].
    destruct (Startup.nonempty (N8N_WEBHOOK_URL cfg)); [| cbn; lia].
    destruct (relay_shape net f data) as
      [[-> _] | (fields & e & _ & -> & He)]; [cbn; lia |].
    destruct He as [[-> _] | [(s' & j & -> & _) | [-> _]]]; cbn; lia.
  - split; [done | by intros ?].
  - split; [eauto |]. intros _. right. by left.
  - intros p [[=] | [[=] | [[=] | Hin]]]. split; [right; by left |].
    destruct (Startup.nonempty (N8N_WEBHOOK_URL cfg)) eqn:Hn;
      [| destruct Hin].
    by apply StartupFacts.nonempty_true in Hn.
  - split; [done |].
    intros (_ & _ & s' & Hf' & _). rewrite Hf in Hf'. discriminate.
Qed.

(** What the webhook receives: the metadata of the form, field by field
    as the server received it, and under "aiResponse" the "raw_response"
    of the server's answer, or the empty text when the answer has none.
    The server had been sent the prompt, the address and the metadata of
    the form, and had answered with a dictionary. *)
Theorem webhook_receives_metadata_and_answer (cfg : Settings) (net : Net)
    (f : Form) (p : gmap string string) :
  In (PostN8n p) (on_click cfg net f).1 →
  ∃ s fields,
    In (PostFastapi (request_of f)) (on_click cfg net f).1
    ∧ post_fastapi net (request_of f)
      = PostResponse s (Some (JsonDict fields))
    ∧ p !! "aiResponse" = Some (default EmptyString (fields !! "raw_response"))
    ∧ (∀ k, k ≠ "aiResponse" → p !! k = metadata f !! k)
    ∧ p !! "firstName" = Some (first_name f)
    ∧ p !! "lastName" = Some (last_name f)
    ∧ p !! "companyName" = Some (company_name f)
    ∧ p !! "LinkedInURL" = Some (linkedin_url f)
    ∧ p !! "website" = Some (website f)
    ∧ p !! "phoneNumber" = Some (phone_number f)
    ∧ size p = 7%nat.
Proof.
  destruct (on_click_cases cfg net f) as
    [(Hp & ->) | [(Hp & Hf & ->) | [(Hp & (s & Hf & Hs) & Hj & ->)
     | (Hp & s & data & Hf & Hs & ->)]]]; cbn [fst snd].
  - by intros [[=] | []].
  - by intros [[=] | [[=] | []]].
  - by intros [[=] | []].
  - intros [[=] | [[=] | [[=] | Hin]]].
    destruct (Startup.nonempty (N8N_WEBHOOK_URL cfg)); [| destruct Hin].
    destruct (relay_shape net f data) as
      [[Hr _] | (fields & e & -> & Hr & He)]; rewrite Hr in Hin.
    { by destruct Hin as [[=] | []]. }
    assert (p = n8n_payload f fields) as ->.
    { destruct Hin as [[= <-] | [Hin | []]]; [done |].
      destruct He as [[-> _] | [(s' & j & -> & _) | [-> _]]]; discriminate. }
    exists s, fields. split; [by left |]. split; [done |].
    unfold n8n_payload. split; [apply lookup_insert_eq |].
    split; [intros k Hk; by apply lookup_insert_ne |].
    unfold metadata. repeat split; by vm_compute.
Qed.

Lemma webhook_receives_metadata_and_answer_witness :
  ∃ s fields,
    In (PostFastapi (request_of Cases.form))
      (on_click Cases.settings (Cases.answered 200) Cases.form).1
    ∧ post_fastapi (Cases.answered 200) (request_of Cases.form)
      = PostResponse s (Some (JsonDict fields))
    ∧ n8n_payload Cases.form {[ "raw_response" := "haiku" ]} !! "aiResponse"
      = Some (default EmptyString (fields !! "raw_response"))
    ∧ (∀ k, k ≠ "aiResponse" →
            n8n_payload Cases.form {[ "raw_response" := "haiku" ]} !! k
            = metadata Cases.form !! k)
    ∧ n8n_payload Cases.form {[ "raw_response" := "haiku" ]} !! "firstName"
      = Some (first_name Cases.form)
    ∧ n8n_payload Cases.form {[ "raw_response" := "haiku" ]} !! "lastName"
      = Some (last_name Cases.form)
    ∧ n8n_payload Cases.form {[ "raw_response" := "haiku" ]} !! "companyName"
      = Some (company_name Cases.form)
    ∧ n8n_payload Cases.form {[ "raw_response" := "haiku" ]} !! "LinkedInURL"
      = Some (linkedin_url Cases.form)
    ∧ n8n_payload Cases.form {[ "raw_response" := "haiku" ]} !! "website"
      = Some (website Cases.form)
    ∧ n8n_payload Cases.form {[ "raw_response" := "haiku" ]} !! "phoneNumber"
      = Some (phone_number Cases.form)
    ∧ size (n8n_payload Cases.form {[ "raw_response" := "haiku" ]}) = 7%nat.
Proof.
  apply (webhook_receives_metadata_and_answer Cases.settings
           (Cases.answered 200) Cases.form).
  do 3 right. left. reflexivity.
Defined.

(** A failure of the webhook stays with the webhook.  Once the server has
    answered with a status outside [400,600) and a body that decodes, the
    success message and the answer are shown whatever the webhook does,
    the message of a failed server call is not shown, and the run ends
    normally.  With a webhook address set, the run ends with one message
    about the webhook: sent for a status 200, a warning with the status
    otherwise, a failure when the post raised or the answer is no
    dictionary. *)
Theorem webhook_failure_is_contained (cfg : Settings) (net : Net) (f : Form)
    (s : Z) (data : Json) :
  form_prompt f ≠ EmptyString →
  post_fastapi net (request_of f) = PostResponse s (Some data) →
  ¬ 400 ≤ s < 600 →
  (on_click cfg net f).2 = Completed
  ∧ ∃ tail,
      (on_click cfg net f).1
      = PostFastapi (request_of f) :: StSuccess :: StJson data :: tail
      ∧ ¬ In (StError ErrorCallingServer) tail
      ∧ ¬ In StSuccess tail
      ∧ (N8N_WEBHOOK_URL cfg = EmptyString → tail = [])
      ∧ (N8N_WEBHOOK_URL cfg ≠ EmptyString →
         ∃ e, last tail = Some e
              ∧ (e = StInfo ∨ (∃ s', e = StWarning s' ∧ s' ≠ 200)
                 ∨ e = StError FailedToSendToN8n)).
Proof.
  intros Hp Hf Hs.
  destruct (on_click_cases cfg net f) as
    [(Hp' & _) | [(_ & Hf' & _) | [(_ & (s' & Hf' & _) & _)
     | (_ & s' & data' & Hf' & _ & ->)]]].
  - done.
  - destruct Hf' as [Hf' | [(s' & j & Hf' & Hs') | (s' & Hf' & _)]];
      rewrite Hf in Hf'; try discriminate.
    injection Hf' as <- _. done.
  - rewrite Hf in Hf'. discriminate.
  - rewrite Hf in Hf'. injection Hf' as <- <-. cbn [fst snd].
    split; [done |]. eexists. split; [reflexivity |].
    destruct (Startup.nonempty (N8N_WEBHOOK_URL cfg)) eqn:Hn.
    + apply StartupFacts.nonempty_true in Hn.
      destruct (relay_shape net f data) as
        [[-> _] | (fields & e & _ & -> & He)].
      * repeat split; try done; try (by intros [[=] | []]).
        intros _. exists (StError FailedToSendToN8n). auto.
      * assert (e = StInfo ∨ (∃ s', e = StWarning s' ∧ s' ≠ 200)
                ∨ e = StError FailedToSendToN8n) as He'.
        { destruct He as [[-> _] | [(s' & j & -> & Hs' & _) | [-> _]]];
            eauto. }
        repeat split; try done.
        -- intros [[=] | [He0 | []]]. rewrite He0 in He'.
           destruct He' as [[=] | [(? & [=] & _) | [=]]].
        -- intros [[=] | [He0 | []]]. rewrite He0 in He'.
           destruct He' as [[=] | [(? & [=] & _) | [=]]].
        -- intros _. by exists e.
    + assert (N8N_WEBHOOK_URL cfg = EmptyString) as Hn'.
      { by destruct (N8N_WEBHOOK_URL cfg). }
      repeat split; try done; by intros [].
Qed.

Lemma webhook_failure_is_contained_witness :
  (on_click Cases.settings (Cases.answered 500) Cases.form).2 = Completed
  ∧ ∃ tail,
      (on_click Cases.settings (Cases.answered 500) Cases.form).1
      = PostFastapi (request_of Cases.form) :: StSuccess
        :: StJson (JsonDict {[ "raw_response" := "haiku" ]}) :: tail
      ∧ ¬ In (StError ErrorCallingServer) tail
      ∧ ¬ In StSuccess tail
      ∧ (N8N_WEBHOOK_URL Cases.settings = EmptyString → tail = [])
      ∧ (N8N_WEBHOOK_URL Cases.settings ≠ EmptyString →
         ∃ e, last tail = Some e
              ∧ (e = StInfo ∨ (∃ s', e = StWarning s' ∧ s' ≠ 200)
                 ∨ e = StError FailedToSendToN8n)).
Proof.
  apply (webhook_failure_is_contained Cases.settings (Cases.answered 500)
           Cases.form 200 (JsonDict {[ "raw_response" := "haiku" ]})).
  - discriminate.
  - reflexivity.
  - lia.
Defined.

End FrontFacts.
